(** * SimpleVector: a heap-level model of [simple_vector.h]

    The container is a record of two counters and an owning pointer to a
    heap block.  Blocks live in a heap indexed by locations, so that buffer
    ownership, reallocation and deep copies are visible in the model.
    Methods are written in a small monad that threads the heap and has three
    outcomes: a value, a thrown exception, or undefined behaviour (a failed
    [assert], an access outside a block).

    [size_t] quantities are natural numbers: a block of [n] slots is a list of
    length [n], and no block of 2^63 slots or more can be allocated, so
    [size_ + 1] and [capacity_ * 2] do not wrap on the states considered.
    Pointer arithmetic is offset arithmetic; only dereferencing is checked.
    [PushBack] and [Insert] take their argument by reference: the object
    behind it is a variable or temporary of the caller, or a slot of a block
    (an element of this or of another vector), and it is read at the point
    where the source reads it. *)

From stdpp Require Import base gmap list strings.

Set Default Proof Using "Type".

(** The comparisons of the source that stdpp does not decide by itself. *)
Global Instance ge_dec : RelDecision ge := fun x y => decide (y ≤ x).
Global Instance gt_dec : RelDecision gt := fun x y => decide (y < x).

(** ** Heap, pointers and the outcome monad *)

Abbreviation loc := positive.

(** A raw pointer [Type*]: the block it points into and the slot offset.
    [(None, 0)] is [nullptr]. *)
Definition ptr : Type := option loc * nat.

Definition ptr_add (p : ptr) (n : nat) : ptr := (p.1, p.2 + n).
Definition ptr_sub (p : ptr) (n : nat) : ptr := (p.1, p.2 - n).

(** [std::out_of_range] carries only its [what()] string. *)
Inductive exn : Type :=
  | out_of_range (what : string).

(** The heap maps the location of each live block to its slots. *)
Abbreviation heap T := (gmap loc (list T)).

Section Model.
Context {T : Type}.

Inductive res (A : Type) : Type :=
  | Val (a : A) (h : heap T)
  | Exc (e : exn) (h : heap T)
  | Undef.
Global Arguments Val {A} a h.
Global Arguments Exc {A} e h.
Global Arguments Undef {A}.

Definition M (A : Type) : Type := heap T → res A.

Definition ret {A} (a : A) : M A := fun h => Val a h.

Definition bind {A B} (m : M A) (k : A → M B) : M B :=
  fun h =>
    match m h with
    | Val a h' => k a h'
    | Exc e h' => Exc e h'
    | Undef => Undef
    end.

Definition throw {A} (e : exn) : M A := fun h => Exc e h.

Definition undefined {A} : M A := fun _ => Undef.

(** [try { m } catch (const std::exception& e) { handler e }] *)
Definition try_catch {A} (m : M A) (handler : exn → M A) : M A :=
  fun h =>
    match m h with
    | Exc e h' => handler e h'
    | r => r
    end.

(** [assert(c)]: a failed assertion aborts; nothing after it runs. *)
Definition assert (c : bool) : M unit :=
  if c then ret tt else undefined.

(** [*p] as an rvalue. *)
Definition load (p : ptr) : M T :=
  fun h =>
    match p.1 with
    | Some l =>
        match h !! l with
        | Some b => match b !! p.2 with
                    | Some x => Val x h
                    | None => Undef
                    end
        | None => Undef
        end
    | None => Undef
    end.

(** [*p = x]. *)
Definition store (p : ptr) (x : T) : M unit :=
  fun h =>
    match p.1 with
    | Some l =>
        match h !! l with
        | Some b => if decide (p.2 < length b)
                    then Val tt (<[l := <[p.2 := x]> b]> h)
                    else Undef
        | None => Undef
        end
    | None => Undef
    end.
End Model.

Global Arguments res : clear implicits.
Global Arguments M : clear implicits.

Global Instance M_fmap {T} : FMap (M T) :=
  fun A B f m => @bind T A B m (fun a => ret (f a)).
Global Instance M_ret {T} : MRet (M T) := @ret T.
Global Instance M_bind {T} : MBind (M T) := fun A B k m => @bind T A B m k.
Global Arguments M_fmap : simpl never.
Global Arguments M_ret : simpl never.
Global Arguments M_bind : simpl never.

(** ** The owned buffer [ArrayPtr<Type>] and the [<algorithm>] loops *)

Section SimpleVector.
Context {T : Type} `{!EqDecision T}.

(** [Type{}], the value-initialised element. *)
Variable value_init : T.
(** What a slot holds after its value has been moved out of it: the
    identity for scalar types, some valid residue for class types. *)
Variable moved_from : T → T.

(** Modelled from the spec: [array_ptr.h] is not part of the sources at
    hand.  An Owned Buffer is the exclusive owner of one raw block of slots;
    it is null when it owns nothing. *)
Definition ArrayPtr : Type := option loc.

(** Modelled from the spec: the default-constructed Owned Buffer of
    [array_ptr.h] owns nothing. *)
Definition ArrayPtr_default : ArrayPtr := None.

(** Modelled from the spec: [ArrayPtr(size)] of [array_ptr.h] allocates
    exactly [size] default-initialised slots; a zero length yields the empty
    (null) buffer. *)
Definition ArrayPtr_new (size : nat) : M T ArrayPtr :=
  fun h =>
    if decide (size = 0) then Val None h
    else let l := fresh (dom h) in
         Val (Some l) (<[l := replicate size value_init]> h).

(** Modelled from the spec: [ArrayPtr(Type* raw)] of [array_ptr.h] adopts a
    raw block handed over by [Release]. *)
Definition ArrayPtr_from_raw (raw : option loc) : ArrayPtr := raw.

(** Modelled from the spec: [Get] of [array_ptr.h], the address of the first
    slot. *)
Definition ArrayPtr_Get (a : ArrayPtr) : ptr := (a, 0).

(** Modelled from the spec: [operator[]] of [array_ptr.h], a reference to
    the slot at [index], with no bounds check at this layer. *)
Definition ArrayPtr_index (a : ArrayPtr) (index : nat) : ptr := (a, index).

(** Modelled from the spec: [Release] of [array_ptr.h] relinquishes the raw
    block to the caller and leaves the buffer empty. *)
Definition ArrayPtr_Release (a : ArrayPtr) : option loc * ArrayPtr :=
  (a, None).

(** Modelled from the spec: [swap] of [array_ptr.h] exchanges the owned
    blocks, copying no element. *)
Definition ArrayPtr_swap (a other : ArrayPtr) : ArrayPtr * ArrayPtr :=
  (other, a).

(** Modelled from the spec: the destructor of [array_ptr.h] releases the
    owned block exactly once; releasing a block that is not live is
    undefined. *)
Definition ArrayPtr_delete (a : ArrayPtr) : M T unit :=
  match a with
  | None => mret tt
  | Some l => fun h => match h !! l with
                       | Some _ => Val tt (delete l h)
                       | None => Undef
                       end
  end.

(** [*d = std::move( *s )]: the destination takes the value, the source
    keeps the moved-from residue. *)
Definition move_assign (d s : ptr) : M T unit :=
  x ← load s; store d x;; store s (moved_from x).

(** What a [const Type&] or [Type&&] parameter is bound to: an object of
    the caller that lives outside every block (a variable, a temporary, a
    literal), which no member function can reach and which is known by its
    value, or a slot of a block. *)
Inductive ref : Type :=
  | Local (x : T)
  | Slot (p : ptr).

(** Reading through the reference. *)
Definition deref (r : ref) : M T T :=
  match r with
  | Local x => mret x
  | Slot p => load p
  end.

(** [*d = item] for [const Type& item]. *)
Definition assign_from (d : ptr) (item : ref) : M T unit :=
  x ← deref item; store d x.

(** [*d = std::move(item)] for [Type&& item]: a slot keeps the moved-from
    residue; what is left in an object of the caller is the caller's. *)
Definition move_assign_from (d : ptr) (item : ref) : M T unit :=
  match item with
  | Local x => store d x
  | Slot s => move_assign d s
  end.

(** [std::fill(first, first + n, value)] *)
Fixpoint fill_n (first : ptr) (n : nat) (value : T) : M T unit :=
  match n with
  | 0 => mret tt
  | S n' => store first value;; fill_n (ptr_add first 1) n' value
  end.

Definition fill (first last : ptr) (value : T) : M T unit :=
  fill_n first (last.2 - first.2) value.

(** [std::generate(first, first + n, g)] *)
Fixpoint generate_n (first : ptr) (n : nat) (g : unit → T) : M T unit :=
  match n with
  | 0 => mret tt
  | S n' => store first (g tt);; generate_n (ptr_add first 1) n' g
  end.

Definition generate (first last : ptr) (g : unit → T) : M T unit :=
  generate_n first (last.2 - first.2) g.

(** [std::copy(first, first + n, d_first)] on plain iterators. *)
Fixpoint copy_n (first : ptr) (n : nat) (d_first : ptr) : M T unit :=
  match n with
  | 0 => mret tt
  | S n' => x ← load first; store d_first x;;
            copy_n (ptr_add first 1) n' (ptr_add d_first 1)
  end.

Definition copy (first last d_first : ptr) : M T unit :=
  copy_n first (last.2 - first.2) d_first.

(** [std::copy(init.begin(), init.end(), d_first)]: the initializer list
    is not heap data of the container. *)
Fixpoint copy_init (init : list T) (d_first : ptr) : M T unit :=
  match init with
  | [] => mret tt
  | x :: init' => store d_first x;; copy_init init' (ptr_add d_first 1)
  end.

(** [std::copy] on [std::make_move_iterator]s. *)
Fixpoint copy_move_n (first : ptr) (n : nat) (d_first : ptr) : M T unit :=
  match n with
  | 0 => mret tt
  | S n' => move_assign d_first first;;
            copy_move_n (ptr_add first 1) n' (ptr_add d_first 1)
  end.

Definition copy_move (first last d_first : ptr) : M T unit :=
  copy_move_n first (last.2 - first.2) d_first.

(** [std::copy_backward] on move iterators:
    [while (first != last) *(--d_last) = std::move( *(--last) )]. *)
Fixpoint copy_backward_move_n (last : ptr) (n : nat) (d_last : ptr)
  : M T unit :=
  match n with
  | 0 => mret tt
  | S n' => move_assign (ptr_sub d_last 1) (ptr_sub last 1);;
            copy_backward_move_n (ptr_sub last 1) n' (ptr_sub d_last 1)
  end.

Definition copy_backward_move (first last d_last : ptr) : M T unit :=
  copy_backward_move_n last (last.2 - first.2) d_last.



(** [std::equal(first1, first1 + n, first2)] *)
Fixpoint equal_n (first1 : ptr) (n : nat) (first2 : ptr) : M T bool :=
  match n with
  | 0 => mret true
  | S n' => x ← load first1; y ← load first2;
            if decide (x = y)
            then equal_n (ptr_add first1 1) n' (ptr_add first2 1)
            else mret false
  end.

Definition equal (first1 last1 first2 : ptr) : M T bool :=
  equal_n first1 (last1.2 - first1.2) first2.

(** ** The class [SimpleVector<Type>] *)

Record ReserveProxyObj := mkReserve { reserve_capacity_ : nat }.

Definition Reserve_proxy (capacity_to_reserve : nat) : ReserveProxyObj :=
  mkReserve capacity_to_reserve.

Record SimpleVector := mkVec {
  size_ : nat;
  capacity_ : nat;
  data_ : ArrayPtr
}.

Definition Iterator : Type := ptr.
Definition ConstIterator : Type := ptr.

Definition begin (v : SimpleVector) : Iterator := ArrayPtr_Get (data_ v).
Definition end_ (v : SimpleVector) : Iterator :=
  ptr_add (ArrayPtr_Get (data_ v)) (size_ v).
Definition cbegin (v : SimpleVector) : ConstIterator :=
  ArrayPtr_Get (data_ v).
Definition cend (v : SimpleVector) : ConstIterator :=
  ptr_add (ArrayPtr_Get (data_ v)) (size_ v).

(** [SimpleVector() noexcept = default] *)
Definition ctor_default : SimpleVector :=
  {| size_ := 0; capacity_ := 0; data_ := ArrayPtr_default |}.

(** [explicit SimpleVector(ReserveProxyObj reserve)] *)
Definition ctor_reserve (reserve : ReserveProxyObj) : M T SimpleVector :=
  d ← ArrayPtr_new (reserve_capacity_ reserve);
  mret {| size_ := 0; capacity_ := reserve_capacity_ reserve; data_ := d |}.

(** [SimpleVector(size_t size, const Type& value)] *)
Definition ctor_fill (size : nat) (value : T) : M T SimpleVector :=
  d ← ArrayPtr_new size;
  let this := {| size_ := size; capacity_ := size; data_ := d |} in
  fill (begin this) (end_ this) value;;
  mret this.

(** [explicit SimpleVector(size_t size)] *)
Definition ctor_size (size : nat) : M T SimpleVector :=
  ctor_fill size value_init.

(** [SimpleVector(std::initializer_list<Type> init)] *)
Definition ctor_init (init : list T) : M T SimpleVector :=
  this ← ctor_size (length init);
  copy_init init (begin this);;
  mret this.

(** [void swap(SimpleVector& other) noexcept] *)
Definition swap (this other : SimpleVector) : SimpleVector * SimpleVector :=
  let d := ArrayPtr_swap (data_ this) (data_ other) in
  ({| size_ := size_ other; capacity_ := capacity_ other; data_ := d.1 |},
   {| size_ := size_ this; capacity_ := capacity_ this; data_ := d.2 |}).

(** The implicit destructor: the member [data_] releases its block. *)
Definition dtor (v : SimpleVector) : M T unit := ArrayPtr_delete (data_ v).

(** [SimpleVector(const SimpleVector& other)]: [this] starts from the
    default member initialisers, [temp] dies at the closing brace. *)
Definition ctor_copy (other : SimpleVector) : M T SimpleVector :=
  temp ← ctor_size (size_ other);
  copy (cbegin other) (cend other) (begin temp);;
  let st := swap ctor_default temp in
  dtor st.2;;
  mret st.1.

(** [SimpleVector(SimpleVector&& other)]: the new object and what is left
    of [other]. *)
Definition ctor_move (other : SimpleVector) : SimpleVector * SimpleVector :=
  let r := ArrayPtr_Release (data_ other) in
  ({| size_ := size_ other; capacity_ := capacity_ other;
      data_ := ArrayPtr_from_raw r.1 |},
   {| size_ := 0; capacity_ := 0; data_ := r.2 |}).

Definition GetSize (v : SimpleVector) : nat := size_ v.
Definition GetCapacity (v : SimpleVector) : nat := capacity_ v.
Definition IsEmpty (v : SimpleVector) : bool := bool_decide (size_ v = 0).

(** [Type& operator[](size_t index) noexcept] *)
Definition subscript (v : SimpleVector) (index : nat) : M T ptr :=
  assert (bool_decide (index < size_ v));;
  mret (ArrayPtr_index (data_ v) index).

(** [Type& At(size_t index)] *)
Definition At (v : SimpleVector) (index : nat) : M T ptr :=
  if decide (index ≥ size_ v)
  then throw (out_of_range "Выход за пределы массива")
  else mret (ptr_add (ArrayPtr_Get (data_ v)) index).

Definition Clear (v : SimpleVector) : SimpleVector :=
  {| size_ := 0; capacity_ := capacity_ v; data_ := data_ v |}.

(** [void IncreaseCapacity(size_t new_capacity)]: the old block leaves
    with the local [new_data]. *)
Definition IncreaseCapacity (new_capacity : nat) (v : SimpleVector)
  : M T SimpleVector :=
  new_data ← ArrayPtr_new new_capacity;
  copy_move (begin v) (end_ v) (ArrayPtr_Get new_data);;
  let d := ArrayPtr_swap new_data (data_ v) in
  ArrayPtr_delete d.1;;
  mret {| size_ := size_ v; capacity_ := new_capacity; data_ := d.2 |}.

Definition Resize (new_size : nat) (v : SimpleVector) : M T SimpleVector :=
  if decide (new_size ≤ size_ v) then
    mret {| size_ := new_size; capacity_ := capacity_ v; data_ := data_ v |}
  else
    v' ← (if decide (new_size ≤ capacity_ v) then
            generate (end_ v) (ptr_sub (ptr_add (end_ v) new_size) (size_ v))
                     (fun _ => value_init);;
            mret v
          else
            let new_capacity := new_size `max` (capacity_ v * 2) in
            IncreaseCapacity new_capacity v);
    mret {| size_ := new_size; capacity_ := capacity_ v';
            data_ := data_ v' |}.

Definition Reserve (new_capacity : nat) (v : SimpleVector)
  : M T SimpleVector :=
  if decide (new_capacity > capacity_ v)
  then IncreaseCapacity new_capacity v
  else mret v.

(** [void PushBack(const Type& item)]: the item is read after the
    reallocation, when there is one. *)
Definition PushBack (item : ref) (v : SimpleVector) : M T SimpleVector :=
  v' ← (if decide (size_ v ≥ capacity_ v) then
          let new_capacity := (size_ v + 1) `max` (capacity_ v * 2) in
          IncreaseCapacity new_capacity v
        else mret v);
  assign_from (ptr_add (ArrayPtr_Get (data_ v')) (size_ v')) item;;
  mret {| size_ := size_ v' + 1; capacity_ := capacity_ v';
          data_ := data_ v' |}.

(** [void PushBack(Type&& item)] *)
Definition PushBack_move (item : ref) (v : SimpleVector)
  : M T SimpleVector :=
  v' ← (if decide (size_ v ≥ capacity_ v) then
          let new_capacity := (size_ v + 1) `max` (capacity_ v * 2) in
          IncreaseCapacity new_capacity v
        else mret v);
  move_assign_from (ptr_add (ArrayPtr_Get (data_ v')) (size_ v')) item;;
  mret {| size_ := size_ v' + 1; capacity_ := capacity_ v';
          data_ := data_ v' |}.

Definition PopBack (v : SimpleVector) : M T SimpleVector :=
  assert (bool_decide (size_ v > 0));;
  mret {| size_ := size_ v - 1; capacity_ := capacity_ v;
          data_ := data_ v |}.

(** [p <= q] and [p < q] on pointers: ordered only within one block. *)
Definition ptr_le (p q : ptr) : bool :=
  bool_decide (p.1 = q.1 ∧ p.2 ≤ q.2).
Definition ptr_lt (p q : ptr) : bool :=
  bool_decide (p.1 = q.1 ∧ p.2 < q.2).

(** [Iterator Insert(ConstIterator pos, const Type& value)]: the value is
    read after the backward shift (with headroom) or after the elements
    before [pos] have been moved into the new block (without). *)
Definition Insert (pos : ConstIterator) (value : ref) (v : SimpleVector)
  : M T (Iterator * SimpleVector) :=
  assert (ptr_le (begin v) pos && ptr_le pos (end_ v));;
  let index := pos.2 - (begin v).2 in
  v' ← (if decide (size_ v < capacity_ v) then
          copy_backward_move (ptr_add (begin v) index) (end_ v)
                             (ptr_add (end_ v) 1);;
          assign_from (ArrayPtr_index (data_ v) index) value;;
          mret v
        else
          let new_capacity := (size_ v + 1) `max` (capacity_ v * 2) in
          new_data ← ArrayPtr_new new_capacity;
          copy_move (begin v) (ptr_add (begin v) index)
                    (ArrayPtr_Get new_data);;
          assign_from (ArrayPtr_index new_data index) value;;
          copy_move (ptr_add (begin v) index) (end_ v)
                    (ptr_add (ptr_add (ArrayPtr_Get new_data) index) 1);;
          let d := ArrayPtr_swap new_data (data_ v) in
          ArrayPtr_delete d.1;;
          mret {| size_ := size_ v; capacity_ := new_capacity;
                  data_ := d.2 |});
  let v'' := {| size_ := size_ v' + 1; capacity_ := capacity_ v';
                data_ := data_ v' |} in
  mret (ArrayPtr_index (data_ v'') index, v'').

(** [Iterator Insert(ConstIterator pos, Type&& value)] *)
Definition Insert_move (pos : ConstIterator) (value : ref) (v : SimpleVector)
  : M T (Iterator * SimpleVector) :=
  assert (ptr_le (begin v) pos && ptr_le pos (end_ v));;
  let index := pos.2 - (begin v).2 in
  v' ← (if decide (size_ v < capacity_ v) then
          copy_backward_move (ptr_add (begin v) index) (end_ v)
                             (ptr_add (end_ v) 1);;
          move_assign_from (ArrayPtr_index (data_ v) index) value;;
          mret v
        else
          let new_capacity := (size_ v + 1) `max` (capacity_ v * 2) in
          new_data ← ArrayPtr_new new_capacity;
          copy_move (begin v) (ptr_add (begin v) index)
                    (ArrayPtr_Get new_data);;
          move_assign_from (ArrayPtr_index new_data index) value;;
          copy_move (ptr_add (begin v) index) (end_ v)
                    (ptr_add (ptr_add (ArrayPtr_Get new_data) index) 1);;
          let d := ArrayPtr_swap new_data (data_ v) in
          ArrayPtr_delete d.1;;
          mret {| size_ := size_ v; capacity_ := new_capacity;
                  data_ := d.2 |});
  let v'' := {| size_ := size_ v' + 1; capacity_ := capacity_ v';
                data_ := data_ v' |} in
  mret (ArrayPtr_index (data_ v'') index, v'').

Definition Erase (pos : ConstIterator) (v : SimpleVector)
  : M T (Iterator * SimpleVector) :=
  assert (ptr_le (begin v) pos && ptr_lt pos (end_ v));;
  let index := pos.2 - (begin v).2 in
  copy_move (ptr_add (ptr_add (begin v) index) 1) (end_ v)
            (ptr_add (begin v) index);;
  let v' := {| size_ := size_ v - 1; capacity_ := capacity_ v;
               data_ := data_ v |} in
  mret (ArrayPtr_index (data_ v') index, v').

(** [operator==] *)
Definition eq_op (lhs rhs : SimpleVector) : M T bool :=
  if decide (GetSize lhs ≠ GetSize rhs) then mret false
  else equal (cbegin lhs) (cend lhs) (cbegin rhs).

Definition ne_op (lhs rhs : SimpleVector) : M T bool :=
  negb <$> eq_op lhs rhs.

(** ** Client programs over named vector objects

    Objects have addresses; [operator=] compares them, and two objects
    never stand for the same storage unless their addresses are equal. *)

Abbreviation addr := positive.
Abbreviation objs := (gmap addr SimpleVector).

(** [SimpleVector& operator=(const SimpleVector& rhs)], the only
    assignment operator of the class: with a copy constructor, a move
    constructor and this operator declared by the user, no move assignment
    is generated, so [lhs = std::move(rhs)] resolves to it as well. *)
Definition operator_assign (this rhs : addr) (σ : objs) : M T objs :=
  if decide (this ≠ rhs) then
    match σ !! this, σ !! rhs with
    | Some t, Some r =>
        temp ← ctor_copy r;
        let st := swap t temp in
        dtor st.2;;
        mret (<[this := st.1]> σ)
    | _, _ => undefined
    end
  else mret σ.

(** A declaration [SimpleVector<Type> a(...)] binds a fresh object. *)
Definition declare (a : addr) (init : M T SimpleVector) (σ : objs)
  : M T objs :=
  match σ !! a with
  | None => v ← init; mret (<[a := v]> σ)
  | Some _ => undefined
  end.

(** A call [a.method(...)] of a mutating member. *)
Definition call (a : addr) (method : SimpleVector → M T SimpleVector)
  (σ : objs) : M T objs :=
  match σ !! a with
  | Some v => v' ← method v; mret (<[a := v']> σ)
  | None => undefined
  end.

(** The argument of a call [a.PushBack(...)] or [a.Insert(pos, ...)]. *)
Inductive arg : Type :=
  | Lvalue (x : T)              (* a variable of the caller, holding x *)
  | Rvalue (x : T)              (* a temporary, or std::move(variable) *)
  | Elem (b : addr) (i : nat).  (* b[i] *)

(** Binding the argument to the reference parameter; [true] for an rvalue,
    which selects the [Type&&] overload. *)
Definition bind_arg (σ : objs) (item : arg) : M T (bool * ref) :=
  match item with
  | Lvalue x => mret (false, Local x)
  | Rvalue x => mret (true, Local x)
  | Elem b i =>
      match σ !! b with
      | Some w => p ← subscript w i; mret (false, Slot p)
      | None => undefined
      end
  end.

Inductive cmd : Type :=
  | DeclDefault (a : addr)
  | DeclReserve (a : addr) (n : nat)
  | DeclSize (a : addr) (n : nat)
  | DeclFill (a : addr) (n : nat) (value : T)
  | DeclInit (a : addr) (init : list T)
  | DeclCopy (a b : addr)
  | DeclMove (a b : addr)
  | Assign (a b : addr)          (* a = b; *)
  | AssignMove (a b : addr)      (* a = std::move(b); *)
  | CallClear (a : addr)
  | CallResize (a : addr) (n : nat)
  | CallReserve (a : addr) (n : nat)
  | CallPushBack (a : addr) (item : arg)
  | CallPopBack (a : addr)
  | CallInsert (a : addr) (index : nat) (value : arg)
  | CallErase (a : addr) (index : nat)
  | CallSwap (a b : addr)
  | SetItem (a : addr) (index : nat) (value : T)
  | Destroy (a : addr).

Definition exec (c : cmd) (σ : objs) : M T objs :=
  match c with
  | DeclDefault a => declare a (mret ctor_default) σ
  | DeclReserve a n => declare a (ctor_reserve (Reserve_proxy n)) σ
  | DeclSize a n => declare a (ctor_size n) σ
  | DeclFill a n value => declare a (ctor_fill n value) σ
  | DeclInit a init => declare a (ctor_init init) σ
  | DeclCopy a b =>
      match σ !! b with
      | Some other => declare a (ctor_copy other) σ
      | None => undefined
      end
  | DeclMove a b =>
      match σ !! a, σ !! b with
      | None, Some other =>
          let r := ctor_move other in
          mret (<[a := r.1]> (<[b := r.2]> σ))
      | _, _ => undefined
      end
  | Assign a b => operator_assign a b σ
  | AssignMove a b => operator_assign a b σ
  | CallClear a => call a (fun v => mret (Clear v)) σ
  | CallResize a n => call a (Resize n) σ
  | CallReserve a n => call a (Reserve n) σ
  | CallPushBack a item =>
      bind_arg σ item ≫= λ r : bool * ref,
        call a (if r.1 then PushBack_move r.2 else PushBack r.2) σ
  | CallPopBack a => call a PopBack σ
  | CallInsert a index value =>
      bind_arg σ value ≫= λ r : bool * ref,
        call a (fun v => snd <$> (if r.1 then Insert_move else Insert)
                                   (ptr_add (begin v) index) r.2 v) σ
  | CallErase a index =>
      call a (fun v => snd <$> Erase (ptr_add (begin v) index) v) σ
  | CallSwap a b =>
      match σ !! a, σ !! b with
      | Some this, Some other =>
          let st := swap this other in
          mret (<[a := st.1]> (<[b := st.2]> σ))
      | _, _ => undefined
      end
  | SetItem a index value =>
      call a (fun v => p ← subscript v index; store p value;; mret v) σ
  | Destroy a =>
      match σ !! a with
      | Some v => dtor v;; mret (delete a σ)
      | None => undefined
      end
  end.

Fixpoint exec_all (cs : list cmd) (σ : objs) : M T objs :=
  match cs with
  | [] => mret σ
  | c :: cs' => σ' ← exec c σ; exec_all cs' σ'
  end.

(** [for (item : items) v.PushBack(item);] *)
Fixpoint push_all (items : list T) (v : SimpleVector) : M T SimpleVector :=
  match items with
  | [] => mret v
  | item :: items' => v' ← PushBack (Local item) v; push_all items' v'
  end.

(** The objects a command may modify. *)
Definition modifies (c : cmd) : list addr :=
  match c with
  | DeclDefault a | DeclReserve a _ | DeclSize a _ | DeclFill a _ _
  | DeclInit a _ | DeclCopy a _ | Assign a _ | AssignMove a _
  | CallClear a | CallResize a _ | CallReserve a _ | CallPushBack a _
  | CallPopBack a | CallInsert a _ _ | CallErase a _ | SetItem a _ _
  | Destroy a => [a]
  | DeclMove a b | CallSwap a b => [a; b]
  end.

(** ** Observations and invariants *)

(** The slots of the owned block. *)
Definition block (h : heap T) (v : SimpleVector) : list T :=
  match data_ v with
  | Some l => default [] (h !! l)
  | None => []
  end.

(** The logical, user-visible sequence: slots [0, size). *)
Definition elems (h : heap T) (v : SimpleVector) : list T :=
  take (size_ v) (block h v).

(** The state invariant of one vector: [size <= capacity], and the buffer
    is a live block of exactly [capacity] slots (null when there is none). *)
Definition wf (h : heap T) (v : SimpleVector) : Prop :=
  size_ v ≤ capacity_ v ∧
  match data_ v with
  | Some l => ∃ b, h !! l = Some b ∧ length b = capacity_ v
  | None => capacity_ v = 0
  end.

(** Exclusive ownership: every object is well formed and no block is
    owned twice. *)
Definition state_wf (σ : objs) (h : heap T) : Prop :=
  (∀ a v, σ !! a = Some v → wf h v) ∧
  (∀ a b va vb l, a ≠ b → σ !! a = Some va → σ !! b = Some vb →
                  data_ va = Some l → data_ vb ≠ Some l).

(** What one operation on a vector may do to the heap: the result is well
    formed, its buffer is the old one or a block that was not live before,
    and no other location changes. *)
Definition owned_step (h : heap T) (v : SimpleVector)
  (h' : heap T) (v' : SimpleVector) : Prop :=
  wf h' v' ∧
  (∀ l, data_ v' = Some l → data_ v = Some l ∨ h !! l = None) ∧
  (∀ l, data_ v ≠ Some l → data_ v' ≠ Some l → h' !! l = h !! l).

(** The buffer and the heap after [ArrayPtr<Type>(n)] has been built and
    its block filled with [b]. *)
Definition alloc_data (n : nat) (h : heap T) : ArrayPtr :=
  if decide (n = 0) then None else Some (fresh (dom h)).

Definition alloc_heap (n : nat) (b : list T) (h : heap T) : heap T :=
  if decide (n = 0) then h else <[fresh (dom h) := b]> h.


(** The heap once the block of a buffer is released. *)
Definition hfree (a : ArrayPtr) (h : heap T) : heap T :=
  match a with
  | Some l => delete l h
  | None => h
  end.

(** What the slot vacated last by a shift holds: the residue of the last
    value moved, or its old content when nothing was moved. *)
Definition residue (y : T) (moved : option T) : T :=
  from_option moved_from y moved.


(** The value a reference denotes in a heap, when its object is live. *)
Definition ref_value (h : heap T) (r : ref) : option T :=
  match r with
  | Local x => Some x
  | Slot p =>
      match p.1 with
      | Some l => h !! l ≫= (.!! p.2)
      | None => None
      end
  end.

(** The reference does not name a slot of the vector's own buffer. *)
Definition outside (r : ref) (v : SimpleVector) : Prop :=
  match r with
  | Local _ => True
  | Slot p => p.1 ≠ data_ v
  end.

(** The vector's old block at the moment [Insert] at [index] reads its
    argument.  With headroom the elements [index, size) stand one slot to
    the right and slot [index] holds what the last move left there; without,
    the elements before [index] have been moved out into the new block. *)
Definition block_at_read (h : heap T) (v : SimpleVector) (index : nat)
  : list T :=
  let pre := take index (elems h v) in
  let mid := drop index (elems h v) in
  if decide (size_ v < capacity_ v) then
    pre ++ residue (default value_init (block h v !! size_ v)) (head mid)
        :: mid ++ drop (size_ v + 1) (block h v)
  else
    (moved_from <$> pre) ++ mid ++ drop (size_ v) (block h v).

(** The heap at that moment, as far as a reference that was valid at the
    call can see it. *)
Definition heap_at_read (h : heap T) (v : SimpleVector) (index : nat)
  : heap T :=
  match data_ v with
  | Some l => <[l := block_at_read h v index]> h
  | None => h
  end.

(** ** Ordering, traversal and the bookkeeping of blocks *)

(** [operator<] of [Type]. *)
Variable Type_lt : T → T → bool.

(** [std::lexicographical_compare(first1, first1 + n1, first2, first2 + n2)]:
    [for (; first1 != last1 && first2 != last2; ++first1, ++first2)] with
    the two element tests, then [first1 == last1 && first2 != last2]. *)
Fixpoint lexicographical_compare_n (first1 : ptr) (n1 : nat)
  (first2 : ptr) (n2 : nat) : M T bool :=
  match n1, n2 with
  | S n1', S n2' =>
      x ← load first1; y ← load first2;
      if Type_lt x y then mret true
      else if Type_lt y x then mret false
      else lexicographical_compare_n (ptr_add first1 1) n1'
                                     (ptr_add first2 1) n2'
  | _, _ => mret (bool_decide (n1 = 0) && negb (bool_decide (n2 = 0)))
  end.

Definition lexicographical_compare (first1 last1 first2 last2 : ptr)
  : M T bool :=
  lexicographical_compare_n first1 (last1.2 - first1.2)
                            first2 (last2.2 - first2.2).

(** [operator<], [operator<=], [operator>], [operator>=] *)
Definition lt_op (lhs rhs : SimpleVector) : M T bool :=
  lexicographical_compare (cbegin lhs) (cend lhs) (cbegin rhs) (cend rhs).

Definition le_op (lhs rhs : SimpleVector) : M T bool :=
  negb <$> lt_op rhs lhs.

Definition gt_op (lhs rhs : SimpleVector) : M T bool :=
  lt_op rhs lhs.

Definition ge_op (lhs rhs : SimpleVector) : M T bool :=
  negb <$> lt_op lhs rhs.

(** The lexicographic order on sequences, written on lists: what the
    comparison operators are compared with. *)
Fixpoint lex_lt (xs ys : list T) : bool :=
  match xs, ys with
  | _, [] => false
  | [], _ :: _ => true
  | x :: xs', y :: ys' =>
      if Type_lt x y then true
      else if Type_lt y x then false
      else lex_lt xs' ys'
  end.

(** [for (auto it = first; it != last; ++it) out.push_back( *it );] the
    values a traversal of an iterator range reads, in order. *)
Fixpoint collect_n (first : ptr) (n : nat) : M T (list T) :=
  match n with
  | 0 => mret []
  | S n' => x ← load first; xs ← collect_n (ptr_add first 1) n';
            mret (x :: xs)
  end.

Definition collect (first last : ptr) : M T (list T) :=
  collect_n first (last.2 - first.2).

(** A step that gives up its old block releases it. *)
Definition released (h : heap T) (v : SimpleVector)
  (h' : heap T) (v' : SimpleVector) : Prop :=
  ∀ l, data_ v = Some l → data_ v' ≠ Some l → h' !! l = None.

(** No block is live without an owner. *)
Definition no_leak (σ : objs) (h : heap T) : Prop :=
  ∀ l, is_Some (h !! l) → ∃ a v, σ !! a = Some v ∧ data_ v = Some l.

(** The calls of members that work on one vector only. *)
Definition is_member_call (c : cmd) : bool :=
  match c with
  | CallClear _ | CallResize _ _ | CallReserve _ _ | CallPushBack _ _
  | CallPopBack _ | CallInsert _ _ _ | CallErase _ _ | SetItem _ _ _ => true
  | _ => false
  end.

(** A command that rewrites one object: by an owned step that releases
    what it gives up and, for a member call, does not lower the capacity. *)
Definition one_object_step (c : cmd) (σ : objs) (h : heap T)
  (σ' : objs) (h' : heap T) : Prop :=
  ∃ a v v',
    (σ !! a = Some v ∨ σ !! a = None ∧ v = ctor_default) ∧
    σ' = <[a := v']> σ ∧
    owned_step h v h' v' ∧ released h v h' v' ∧
    (is_member_call c = true → σ !! a = Some v ∧ capacity_ v ≤ capacity_ v').

Arguments ArrayPtr_delete : simpl never.
Arguments ArrayPtr_new : simpl never.

(** ** Running the monad *)

Lemma bind_val {A B} (m : M T A) (k : A → M T B) h a h' :
  m h = Val a h' → (m ≫= k) h = k a h'.
Proof. intros Hm. unfold mbind, M_bind, bind. by rewrite Hm. Qed.

Lemma bind_inv {A B} (m : M T A) (k : A → M T B) h b h' :
  (m ≫= k) h = Val b h' → ∃ a h1, m h = Val a h1 ∧ k a h1 = Val b h'.
Proof.
  unfold mbind, M_bind, bind. destruct (m h) as [a h1| |]; [|done..].
  intros Hk. by exists a, h1.
Qed.

Lemma bind_assoc_h {A B C} (m : M T A) (f : A → M T B) (g : B → M T C) h :
  ((m ≫= f) ≫= g) h = (m ≫= λ a, f a ≫= g) h.
Proof. unfold mbind, M_bind, bind. by destruct (m h). Qed.

Lemma fmap_val {A B} (f : A → B) (m : M T A) h a h' :
  m h = Val a h' → (f <$> m) h = Val (f a) h'.
Proof. intros Hm. unfold fmap, M_fmap, bind, ret. by rewrite Hm. Qed.

Lemma fmap_inv {A B} (f : A → B) (m : M T A) h b h' :
  (f <$> m) h = Val b h' → ∃ a, m h = Val a h' ∧ b = f a.
Proof.
  unfold fmap, M_fmap, bind, ret. destruct (m h) as [a h1| |]; [|done..].
  intros [= <- <-]. by exists a.
Qed.

Lemma load_ok h l (b : list T) i x :
  h !! l = Some b → b !! i = Some x → load (Some l, i) h = Val x h.
Proof. intros Hl Hi. unfold load. simpl. by rewrite Hl, Hi. Qed.

Lemma store_ok h l (b : list T) i x :
  h !! l = Some b → i < length b →
  store (Some l, i) x h = Val tt (<[l := <[i := x]> b]> h).
Proof.
  intros Hl Hi. unfold store. simpl. rewrite Hl.
  by destruct (decide (i < length b)).
Qed.

(** A move between two slots of one block. *)
Lemma move_assign_same h l (b : list T) i j x :
  h !! l = Some b → b !! i = Some x → j < length b →
  move_assign (Some l, j) (Some l, i) h
  = Val tt (<[l := <[i := moved_from x]> (<[j := x]> b)]> h).
Proof.
  intros Hl Hi Hj. unfold move_assign.
  rewrite (bind_val _ _ _ _ _ (load_ok _ _ _ _ _ Hl Hi)).
  rewrite (bind_val _ _ _ _ _ (store_ok _ _ _ _ _ Hl Hj)).
  erewrite store_ok; [|apply lookup_insert_eq|].
  - by rewrite insert_insert_eq.
  - rewrite length_insert. by eapply lookup_lt_Some.
Qed.

(** A move from one block into another. *)
Lemma move_assign_cross h ls ld (bs bd : list T) i j x :
  ls ≠ ld → h !! ls = Some bs → h !! ld = Some bd →
  bs !! i = Some x → j < length bd →
  move_assign (Some ld, j) (Some ls, i) h
  = Val tt (<[ls := <[i := moved_from x]> bs]> (<[ld := <[j := x]> bd]> h)).
Proof.
  intros Hne Hs Hd Hi Hj. unfold move_assign.
  rewrite (bind_val _ _ _ _ _ (load_ok _ _ _ _ _ Hs Hi)).
  rewrite (bind_val _ _ _ _ _ (store_ok _ _ _ _ _ Hd Hj)).
  erewrite store_ok; [done| |by eapply lookup_lt_Some].
  by rewrite lookup_insert_ne.
Qed.

(** ** The loops, on blocks split at the ranges they touch *)

Lemma insert_middle (l1 l2 : list T) x y n :
  n = length l1 → <[n := x]> (l1 ++ y :: l2) = l1 ++ x :: l2.
Proof.
  intros ->. rewrite <-(Nat.add_0_r (length l1)). by rewrite insert_app_r.
Qed.

Ltac heap_eq :=
  apply map_eq; intros ?;
  repeat (rewrite ?lookup_insert, ?lookup_delete; case_decide);
  simplify_eq; try done.

Lemma fill_n_ok n : ∀ h l (pre old post : list T) x,
  h !! l = Some (pre ++ old ++ post) → length old = n →
  fill_n (Some l, length pre) n x h
  = Val tt (<[l := pre ++ replicate n x ++ post]> h).
Proof.
  induction n as [|n IH]; intros h l pre old post x Hl Hn.
  - destruct old; [|done]. simpl. unfold mret, M_ret, ret.
    by rewrite insert_id.
  - destruct old as [|y old]; [done|]. simpl in Hn. simpl fill_n.
    change ((y :: old) ++ post) with (y :: old ++ post) in Hl.
    erewrite bind_val;
      [|eapply store_ok; [done|]; rewrite length_app; simpl; lia].
    rewrite insert_middle by done.
    replace (ptr_add (Some l, length pre) 1)
      with (Some l, length (pre ++ [x]))
      by (unfold ptr_add; simpl; by rewrite length_app).
    erewrite (IH _ l (pre ++ [x]) old post);
      [|rewrite lookup_insert_eq, <-app_assoc; done|lia].
    rewrite insert_insert_eq, <-app_assoc. done.
Qed.

Lemma generate_n_fill_n n : ∀ first (g : unit → T),
  generate_n first n g = fill_n first n (g tt).
Proof. induction n as [|n IH]; intros; simpl; [done|]. by rewrite IH. Qed.

Lemma copy_init_ok init : ∀ h l (pre old post : list T),
  h !! l = Some (pre ++ old ++ post) → length old = length init →
  copy_init init (Some l, length pre) h
  = Val tt (<[l := pre ++ init ++ post]> h).
Proof.
  induction init as [|x init IH]; intros h l pre old post Hl Hn.
  - destruct old; [|done]. simpl. unfold mret, M_ret, ret.
    by rewrite insert_id.
  - destruct old as [|y old]; [done|]. simpl in Hn. simpl copy_init.
    change ((y :: old) ++ post) with (y :: old ++ post) in Hl.
    erewrite bind_val;
      [|eapply store_ok; [done|]; rewrite length_app; simpl; lia].
    rewrite insert_middle by done.
    replace (ptr_add (Some l, length pre) 1)
      with (Some l, length (pre ++ [x]))
      by (unfold ptr_add; simpl; by rewrite length_app).
    erewrite (IH _ l (pre ++ [x]) old post);
      [|rewrite lookup_insert_eq, <-app_assoc; done|lia].
    rewrite insert_insert_eq, <-app_assoc. done.
Qed.

Lemma copy_n_ok n : ∀ h ls ld (ps mid qs pd old qd : list T),
  ls ≠ ld →
  h !! ls = Some (ps ++ mid ++ qs) → h !! ld = Some (pd ++ old ++ qd) →
  length mid = n → length old = n →
  copy_n (Some ls, length ps) n (Some ld, length pd) h
  = Val tt (<[ld := pd ++ mid ++ qd]> h).
Proof.
  induction n as [|n IH]; intros h ls ld ps mid qs pd old qd Hne Hs Hd Hm Ho.
  - destruct mid, old; try done. simpl. unfold mret, M_ret, ret.
    by rewrite insert_id.
  - destruct mid as [|x mid], old as [|y old]; try done.
    simpl in Hm, Ho. simpl copy_n.
    change ((x :: mid) ++ qs) with (x :: mid ++ qs) in Hs.
    change ((y :: old) ++ qd) with (y :: old ++ qd) in Hd.
    erewrite bind_val; [|eapply load_ok; [done|]; by apply list_lookup_middle].
    erewrite bind_val;
      [|eapply store_ok; [done|]; rewrite length_app; simpl; lia].
    rewrite insert_middle by done.
    replace (ptr_add (Some ls, length ps) 1)
      with (Some ls, length (ps ++ [x]))
      by (unfold ptr_add; simpl; by rewrite length_app).
    replace (ptr_add (Some ld, length pd) 1)
      with (Some ld, length (pd ++ [x]))
      by (unfold ptr_add; simpl; by rewrite length_app).
    erewrite (IH _ ls ld (ps ++ [x]) mid qs (pd ++ [x]) old qd); [|done|..].
    + rewrite insert_insert_eq, <-app_assoc. done.
    + rewrite lookup_insert_ne by done. rewrite <-app_assoc. done.
    + rewrite lookup_insert_eq, <-app_assoc. done.
    + lia.
    + lia.
Qed.

Lemma copy_move_n_ok n : ∀ h ls ld (ps mid qs pd old qd : list T),
  ls ≠ ld →
  h !! ls = Some (ps ++ mid ++ qs) → h !! ld = Some (pd ++ old ++ qd) →
  length mid = n → length old = n →
  copy_move_n (Some ls, length ps) n (Some ld, length pd) h
  = Val tt (<[ld := pd ++ mid ++ qd]>
              (<[ls := ps ++ (moved_from <$> mid) ++ qs]> h)).
Proof.
  induction n as [|n IH]; intros h ls ld ps mid qs pd old qd Hne Hs Hd Hm Ho.
  - destruct mid, old; try done. simpl. unfold mret, M_ret, ret.
    f_equal. rewrite (insert_id h ls) by done. by rewrite insert_id.
  - destruct mid as [|x mid], old as [|y old]; try done.
    simpl in Hm, Ho. simpl copy_move_n.
    change ((x :: mid) ++ qs) with (x :: mid ++ qs) in Hs.
    change ((y :: old) ++ qd) with (y :: old ++ qd) in Hd.
    erewrite bind_val.
    2:{ eapply move_assign_cross; [done..| |].
        - by apply list_lookup_middle.
        - rewrite length_app. simpl. lia. }
    rewrite !insert_middle by done.
    replace (ptr_add (Some ls, length ps) 1)
      with (Some ls, length (ps ++ [moved_from x]))
      by (unfold ptr_add; simpl; by rewrite length_app).
    replace (ptr_add (Some ld, length pd) 1)
      with (Some ld, length (pd ++ [x]))
      by (unfold ptr_add; simpl; by rewrite length_app).
    erewrite (IH _ ls ld (ps ++ [moved_from x]) mid qs (pd ++ [x]) old qd);
      [|done|..].
    + rewrite <-!app_assoc. simpl. f_equal. heap_eq.
    + rewrite lookup_insert_eq, <-app_assoc. done.
    + rewrite lookup_insert_ne by done.
      rewrite lookup_insert_eq, <-app_assoc. done.
    + lia.
    + lia.
Qed.

(** The forward shift of [Erase]: source and destination overlap, the
    destination is one slot to the left. *)
Lemma copy_move_n_shift_left mid : ∀ h l (pre post : list T) y,
  h !! l = Some (pre ++ y :: mid ++ post) →
  copy_move_n (Some l, length pre + 1) (length mid) (Some l, length pre) h
  = Val tt (<[l := pre ++ mid ++ residue y (last mid) :: post]> h).
Proof.
  induction mid as [|x mid IH]; intros h l pre post y Hl.
  - simpl. unfold mret, M_ret, ret. by rewrite insert_id.
  - simpl length. simpl copy_move_n.
    change ((x :: mid) ++ post) with (x :: mid ++ post) in Hl.
    erewrite bind_val.
    2:{ eapply (move_assign_same _ _ _ _ _ x); [done| |].
        - replace (pre ++ y :: x :: mid ++ post)
            with ((pre ++ [y]) ++ x :: mid ++ post)
            by (by rewrite <-app_assoc).
          apply list_lookup_middle. by rewrite length_app.
        - rewrite length_app. simpl. lia. }
    rewrite (insert_middle pre) by done.
    replace (pre ++ x :: x :: mid ++ post)
      with ((pre ++ [x]) ++ x :: mid ++ post) by (by rewrite <-app_assoc).
    rewrite insert_middle by (by rewrite length_app).
    replace (ptr_add (Some l, length pre + 1) 1)
      with (Some l, length (pre ++ [x]) + 1)
      by (unfold ptr_add; simpl; by rewrite length_app).
    replace (ptr_add (Some l, length pre) 1)
      with (Some l, length (pre ++ [x]))
      by (unfold ptr_add; simpl; by rewrite length_app).
    erewrite (IH _ l (pre ++ [x]) post (moved_from x));
      [|by rewrite lookup_insert_eq].
    rewrite insert_insert_eq, <-app_assoc. simpl.
    destruct mid as [|z mid]; [done|]. rewrite last_cons_cons.
    destruct (last (z :: mid)) eqn:Hlast; [done|].
    by apply last_None in Hlast.
Qed.

(** The backward shift of [Insert]: the destination is one slot to the
    right, the last element moves first. *)
Lemma copy_backward_move_n_shift_right mid : ∀ h l (pre post : list T) y,
  h !! l = Some (pre ++ mid ++ y :: post) →
  copy_backward_move_n (Some l, length pre + length mid) (length mid)
                       (Some l, length pre + length mid + 1) h
  = Val tt (<[l := pre ++ residue y (head mid) :: mid ++ post]> h).
Proof.
  induction mid as [|x mid IH] using rev_ind; intros h l pre post y Hl.
  - simpl. unfold mret, M_ret, ret. by rewrite insert_id.
  - rewrite length_app. simpl length. rewrite Nat.add_1_r.
    simpl copy_backward_move_n.
    replace (ptr_sub (Some l, length pre + S (length mid)) 1)
      with (Some l, length pre + length mid)
      by (unfold ptr_sub; simpl; f_equal; lia).
    replace (ptr_sub (Some l, length pre + S (length mid) + 1) 1)
      with (Some l, length pre + length mid + 1)
      by (unfold ptr_sub; simpl; f_equal; lia).
    rewrite <-(app_assoc mid [x]) in Hl. simpl in Hl.
    rewrite app_assoc in Hl.
    erewrite bind_val.
    2:{ eapply (move_assign_same _ _ _ _ _ x); [done| |].
        - apply list_lookup_middle. by rewrite length_app.
        - rewrite !length_app. simpl. lia. }
    replace ((pre ++ mid) ++ x :: y :: post)
      with (((pre ++ mid) ++ [x]) ++ y :: post) by (by rewrite <-app_assoc).
    rewrite insert_middle by (rewrite !length_app; simpl; lia).
    rewrite <-(app_assoc _ [x]). simpl.
    rewrite insert_middle by (by rewrite length_app).
    rewrite <-app_assoc.
    erewrite (IH _ l pre (x :: post) (moved_from x));
      [|by rewrite lookup_insert_eq].
    rewrite insert_insert_eq, <-app_assoc. simpl.
    destruct mid as [|z mid]; done.
Qed.



Lemma equal_n_ok n : ∀ h l1 l2 (p1 m1 q1 p2 m2 q2 : list T),
  h !! l1 = Some (p1 ++ m1 ++ q1) → h !! l2 = Some (p2 ++ m2 ++ q2) →
  length m1 = n → length m2 = n →
  equal_n (Some l1, length p1) n (Some l2, length p2) h
  = Val (bool_decide (m1 = m2)) h.
Proof.
  induction n as [|n IH]; intros h l1 l2 p1 m1 q1 p2 m2 q2 H1 H2 Hn1 Hn2.
  - by destruct m1, m2.
  - destruct m1 as [|x m1], m2 as [|y m2]; try done.
    simpl in Hn1, Hn2. simpl equal_n.
    change ((x :: m1) ++ q1) with (x :: m1 ++ q1) in H1.
    change ((y :: m2) ++ q2) with (y :: m2 ++ q2) in H2.
    erewrite bind_val; [|eapply load_ok; [done|]; by apply list_lookup_middle].
    erewrite bind_val; [|eapply load_ok; [done|]; by apply list_lookup_middle].
    destruct (decide (x = y)) as [->|Hxy].
    + replace (ptr_add (Some l1, length p1) 1)
        with (Some l1, length (p1 ++ [y]))
        by (unfold ptr_add; simpl; by rewrite length_app).
      replace (ptr_add (Some l2, length p2) 1)
        with (Some l2, length (p2 ++ [y]))
        by (unfold ptr_add; simpl; by rewrite length_app).
      erewrite (IH _ l1 l2 (p1 ++ [y]) m1 q1 (p2 ++ [y]) m2 q2);
        [|by rewrite <-app_assoc|by rewrite <-app_assoc|lia|lia].
      f_equal. apply bool_decide_ext. split; congruence.
    + unfold mret, M_ret, ret. f_equal. symmetry.
      apply bool_decide_eq_false. congruence.
Qed.

(** ** Vectors and their blocks *)

Lemma fresh_loc_None (h : heap T) : h !! fresh (dom h) = None.
Proof. apply not_elem_of_dom, is_fresh. Qed.

Lemma wf_data_Some h v :
  wf h v → 0 < capacity_ v → ∃ l, data_ v = Some l.
Proof.
  intros [_ Hd] Hc. destruct (data_ v) as [l|]; [by exists l|lia].
Qed.

Lemma wf_lookup h v l :
  wf h v → data_ v = Some l →
  h !! l = Some (block h v) ∧ length (block h v) = capacity_ v.
Proof.
  intros [_ Hd] Hl. unfold block. rewrite Hl in *.
  destruct Hd as (b & -> & Hb). done.
Qed.

Lemma wf_block_length h v : wf h v → length (block h v) = capacity_ v.
Proof.
  intros Hwf. destruct (data_ v) as [l|] eqn:Hl.
  - by eapply wf_lookup.
  - destruct Hwf as [_ Hd]. unfold block. rewrite Hl in *. done.
Qed.

Lemma wf_elems_length h v : wf h v → length (elems h v) = size_ v.
Proof.
  intros Hwf. unfold elems. rewrite length_take, (wf_block_length _ _ Hwf).
  destruct Hwf. lia.
Qed.

Lemma block_split h v :
  block h v = elems h v ++ drop (size_ v) (block h v).
Proof. unfold elems. by rewrite take_drop. Qed.

Lemma block_insert (h : heap T) l b s c :
  block (<[l := b]> h) {| size_ := s; capacity_ := c; data_ := Some l |} = b.
Proof. unfold block. simpl. by rewrite lookup_insert_eq. Qed.

Lemma fresh_ne_data h v l :
  wf h v → data_ v = Some l → l ≠ fresh (dom h).
Proof.
  intros Hwf Hl ->. apply (wf_lookup _ _ _ Hwf) in Hl as [Hl _].
  by rewrite fresh_loc_None in Hl.
Qed.

Lemma ArrayPtr_new_ok h n :
  0 < n →
  ArrayPtr_new n h
  = Val (Some (fresh (dom h)))
        (<[fresh (dom h) := replicate n value_init]> h).
Proof. intros Hn. unfold ArrayPtr_new. destruct (decide (n = 0)); [lia|done]. Qed.

Lemma ArrayPtr_delete_ok h a :
  (∀ l, a = Some l → is_Some (h !! l)) →
  ArrayPtr_delete a h = Val tt (hfree a h).
Proof.
  intros Ha. destruct a as [l|]; [|done]. unfold ArrayPtr_delete, hfree.
  by destruct (Ha l eq_refl) as [b ->].
Qed.

(** Moving the live range of a vector into the front of a fresh block. *)
Lemma copy_move_into_fresh h v n l' (tail : list T) :
  wf h v → size_ v ≤ n → h !! l' = None →
  copy_move (begin v) (end_ v) (Some l', 0)
            (<[l' := replicate (size_ v) value_init ++ tail]> h)
  = Val tt (<[l' := elems h v ++ tail]>
              (match data_ v with
               | Some l => <[l := (moved_from <$> elems h v)
                                  ++ drop (size_ v) (block h v)]> h
               | None => h
               end)).
Proof.
  intros Hwf Hn Hfresh. unfold copy_move, begin, end_, ArrayPtr_Get, ptr_add.
  simpl. rewrite Nat.sub_0_r.
  destruct (data_ v) as [l|] eqn:Hl.
  - destruct (wf_lookup _ _ _ Hwf Hl) as [Hb Hlen].
    assert (l ≠ l') as Hne by (intros ->; by rewrite Hfresh in Hb).
    rewrite (copy_move_n_ok (size_ v) _ l l' []
               (elems h v) (drop (size_ v) (block h v))
               [] (replicate (size_ v) value_init) tail); simpl.
    + f_equal. heap_eq.
    + done.
    + rewrite lookup_insert_ne by done. by rewrite <-block_split.
    + by rewrite lookup_insert_eq.
    + by apply wf_elems_length.
    + by rewrite length_replicate.
  - assert (size_ v = 0) as Hs.
    { destruct Hwf as [? Hd]. rewrite Hl in Hd. lia. }
    unfold elems. rewrite Hs. simpl. done.
Qed.

Lemma IncreaseCapacity_ok h v n :
  wf h v → size_ v ≤ n → 0 < n →
  IncreaseCapacity n v h
  = Val {| size_ := size_ v; capacity_ := n;
           data_ := Some (fresh (dom h)) |}
        (<[fresh (dom h) := elems h v ++ replicate (n - size_ v) value_init]>
           (hfree (data_ v) h)).
Proof.
  intros Hwf Hs Hn. unfold IncreaseCapacity.
  rewrite (bind_val _ _ _ _ _ (ArrayPtr_new_ok h n Hn)).
  replace (replicate n value_init)
    with (replicate (size_ v) value_init
            ++ replicate (n - size_ v) value_init)
    by (rewrite <-replicate_add; f_equal; lia).
  unfold ArrayPtr_Get.
  rewrite (bind_val _ _ _ _ _
             (copy_move_into_fresh h v n _ _ Hwf Hs (fresh_loc_None h))).
  simpl. erewrite bind_val.
  2:{ apply ArrayPtr_delete_ok. intros l Hl.
      pose proof (fresh_ne_data _ _ _ Hwf Hl).
      rewrite Hl, lookup_insert_ne, lookup_insert_eq by done. done. }
  unfold mret, M_ret, ret. f_equal.
  destruct (data_ v) as [l|] eqn:Hl; simpl; [|done].
  pose proof (fresh_ne_data _ _ _ Hwf Hl). heap_eq.
Qed.

(** ** The three shapes of a step: pure, in place, reallocating *)

Lemma owned_step_pure h v s :
  wf h v → s ≤ capacity_ v →
  owned_step h v h
    {| size_ := s; capacity_ := capacity_ v; data_ := data_ v |}.
Proof.
  intros [Hs Hd] Hle. split; [|split]; [|by left|done].
  split; simpl; done.
Qed.

Lemma owned_step_refl h v : wf h v → owned_step h v h v.
Proof. intros Hwf. split; [done|]. split; [by left|done]. Qed.

Lemma owned_step_inplace h v l (b' : list T) s :
  wf h v → data_ v = Some l → length b' = capacity_ v → s ≤ capacity_ v →
  owned_step h v (<[l := b']> h)
    {| size_ := s; capacity_ := capacity_ v; data_ := Some l |}.
Proof.
  intros Hwf Hl Hb Hle. split; [|split]; simpl.
  - split; simpl; [done|]. exists b'. by rewrite lookup_insert_eq.
  - intros l' [= <-]. by left.
  - intros l' Hne _. apply lookup_insert_ne. congruence.
Qed.

Lemma owned_step_realloc h v (b' : list T) s c :
  wf h v → length b' = c → s ≤ c →
  owned_step h v (<[fresh (dom h) := b']> (hfree (data_ v) h))
    {| size_ := s; capacity_ := c; data_ := Some (fresh (dom h)) |}.
Proof.
  intros Hwf Hb Hle. split; [|split]; simpl.
  - split; simpl; [done|]. exists b'. by rewrite lookup_insert_eq.
  - intros l' [= <-]. right. apply fresh_loc_None.
  - intros l' Hne Hne'. rewrite lookup_insert_ne by congruence.
    destruct (data_ v) as [l|]; simpl; [|done].
    apply lookup_delete_ne. congruence.
Qed.

(** ** Reference parameters *)

Lemma bind_undef {A B} (m : M T A) (k : A → M T B) h :
  m h = Undef → (m ≫= k) h = Undef.
Proof. intros Hm. unfold mbind, M_bind, bind. by rewrite Hm. Qed.

Lemma deref_value h r :
  deref r h = match ref_value h r with
              | Some x => Val x h
              | None => Undef
              end.
Proof.
  destruct r as [x|[[l|] i]]; simpl; [done| |done].
  unfold load. simpl. destruct (h !! l) as [b|]; simpl; [|done].
  by destruct (b !! i).
Qed.

Lemma assign_from_Local d x : assign_from d (Local x) = store d x.
Proof. reflexivity. Qed.

Lemma assign_from_ok h d r x :
  ref_value h r = Some x → assign_from d r h = store d x h.
Proof.
  intros Hx. unfold assign_from. erewrite bind_val; [done|].
  by rewrite deref_value, Hx.
Qed.

Lemma assign_from_undef h d r :
  ref_value h r = None → assign_from d r h = Undef.
Proof.
  intros Hx. unfold assign_from. apply bind_undef.
  by rewrite deref_value, Hx.
Qed.

Lemma assign_from_inv h d r u h' :
  assign_from d r h = Val u h' →
  ∃ x, ref_value h r = Some x ∧ store d x h = Val u h'.
Proof.
  unfold assign_from. intros Ha.
  apply bind_inv in Ha as (x & h1 & Hd & Hs).
  rewrite deref_value in Hd. destruct (ref_value h r) as [y|]; [|done].
  injection Hd as -> ->. by exists x.
Qed.

Lemma move_assign_from_undef h d r :
  ref_value h r = None → move_assign_from d r h = Undef.
Proof.
  destruct r as [x|p]; [done|]. intros Hx. simpl. unfold move_assign.
  apply bind_undef. change (load p) with (deref (Slot p)).
  by rewrite deref_value, Hx.
Qed.

(** A reference that is valid in [h] does not point into a block that is
    allocated later. *)
Lemma ref_value_insert_fresh h h' l (b : list T) r x :
  ref_value h r = Some x → h !! l = None →
  ref_value (<[l := b]> h') r = ref_value h' r.
Proof.
  destruct r as [y|[[lr|] i]]; simpl; [done| |done].
  intros Hx Hl. rewrite lookup_insert_ne; [done|].
  intros ->. by rewrite Hl in Hx.
Qed.

Lemma ref_value_hfree h v r x :
  ref_value h r = Some x → outside r v →
  ref_value (hfree (data_ v) h) r = Some x.
Proof.
  destruct r as [y|[[lr|] i]]; simpl; [done| |done].
  intros Hx Hout. destruct (data_ v) as [l|]; simpl; [|done].
  rewrite lookup_delete_ne; [done|]. congruence.
Qed.

Lemma ref_value_hfree_own h v p :
  wf h v → p.1 = data_ v → ref_value (hfree (data_ v) h) (Slot p) = None.
Proof.
  intros Hwf Hp. destruct p as [q i]. simpl in Hp. subst q. simpl.
  destruct (data_ v) as [l|]; simpl; [|done].
  by rewrite lookup_delete_eq.
Qed.

Lemma hfree_fresh (h : heap T) a : hfree a h !! fresh (dom h) = None.
Proof.
  destruct a as [l|]; simpl; [|apply fresh_loc_None].
  apply lookup_delete_None. right. apply fresh_loc_None.
Qed.

Lemma ref_value_live_hfree h a r x :
  ref_value (hfree a h) r = Some x → ref_value h r = Some x.
Proof.
  destruct r as [y|[[lr|] i]]; simpl; [done| |done].
  destruct a as [l|]; simpl; [|done].
  destruct (decide (l = lr)) as [->|Hne].
  - by rewrite lookup_delete_eq.
  - by rewrite lookup_delete_ne.
Qed.

(** ** The methods, one equation per path *)

Lemma PushBack_room h v l item x :
  wf h v → data_ v = Some l → size_ v < capacity_ v →
  ref_value h item = Some x →
  PushBack item v h
  = Val {| size_ := size_ v + 1; capacity_ := capacity_ v;
           data_ := Some l |}
        (<[l := elems h v ++ x :: drop (size_ v + 1) (block h v)]> h).
Proof.
  intros Hwf Hl Hlt Hx. unfold PushBack.
  destruct (decide (size_ v ≥ capacity_ v)) as [Hge|_]; [lia|].
  destruct (wf_lookup _ _ _ Hwf Hl) as [Hb Hlen].
  erewrite bind_val; [|done]. rewrite Hl.
  unfold ArrayPtr_Get, ptr_add. simpl.
  erewrite bind_val;
    [|rewrite (assign_from_ok _ _ _ _ Hx); eapply store_ok; [done|lia]].
  unfold mret, M_ret, ret. do 2 f_equal.
  pose proof (block_split h v) as Hsplit.
  destruct (drop (size_ v) (block h v)) as [|y post] eqn:Hdrop.
  { apply (f_equal length) in Hdrop. rewrite length_drop in Hdrop.
    simpl in Hdrop. lia. }
  rewrite Hsplit at 1.
  rewrite insert_middle by (by rewrite wf_elems_length).
  do 2 f_equal. rewrite <-drop_drop, Hdrop. done.
Qed.

Lemma PushBack_full h v item x :
  wf h v → capacity_ v ≤ size_ v →
  ref_value (hfree (data_ v) h) item = Some x →
  let new_capacity := (size_ v + 1) `max` (capacity_ v * 2) in
  PushBack item v h
  = Val {| size_ := size_ v + 1; capacity_ := new_capacity;
           data_ := Some (fresh (dom h)) |}
        (<[fresh (dom h) :=
             elems h v ++ x
               :: replicate (new_capacity - (size_ v + 1)) value_init]>
           (hfree (data_ v) h)).
Proof.
  intros Hwf Hge Hx new_capacity. unfold PushBack.
  destruct (decide (size_ v ≥ capacity_ v)) as [_|Hlt]; [|lia].
  fold new_capacity.
  erewrite bind_val; [|apply IncreaseCapacity_ok; [done|lia..]].
  simpl. unfold ArrayPtr_Get, ptr_add. simpl.
  erewrite bind_val.
  2:{ rewrite (assign_from_ok _ _ _ x).
      - eapply store_ok; [apply lookup_insert_eq|].
        rewrite length_app, length_replicate, wf_elems_length by done. lia.
      - erewrite ref_value_insert_fresh; [done..|apply hfree_fresh]. }
  unfold mret, M_ret, ret. f_equal. rewrite insert_insert_eq. f_equal.
  replace (new_capacity - size_ v) with (S (new_capacity - (size_ v + 1)))
    by lia.
  simpl. by rewrite insert_middle by (by rewrite wf_elems_length).
Qed.

(** Without room the item is read after the old block has been released:
    a reference into that block dangles. *)
Lemma PushBack_full_own h v p :
  wf h v → capacity_ v ≤ size_ v → p.1 = data_ v →
  PushBack (Slot p) v h = Undef ∧ PushBack_move (Slot p) v h = Undef.
Proof.
  intros Hwf Hge Hp.
  assert (ref_value
            (<[fresh (dom h) :=
                 elems h v
                   ++ replicate ((size_ v + 1) `max` (capacity_ v * 2)
                                 - size_ v) value_init]>
               (hfree (data_ v) h)) (Slot p) = None) as Hnone.
  { destruct p as [q i]. simpl in Hp. subst q. simpl.
    destruct (data_ v) as [l|] eqn:Hl; [|done].
    pose proof (fresh_ne_data _ _ _ Hwf Hl).
    rewrite lookup_insert_ne by done. simpl.
    by rewrite lookup_delete_eq. }
  unfold PushBack, PushBack_move.
  destruct (decide (size_ v ≥ capacity_ v)) as [_|Hlt]; [|lia].
  split.
  - erewrite bind_val; [|apply IncreaseCapacity_ok; [done|lia..]].
    apply bind_undef. by apply assign_from_undef.
  - erewrite bind_val; [|apply IncreaseCapacity_ok; [done|lia..]].
    apply bind_undef. by apply move_assign_from_undef.
Qed.


Lemma PushBack_inv_Local h v item v' h' :
  PushBack item v h = Val v' h' →
  ∃ x, PushBack (Local x) v h = Val v' h'.
Proof.
  unfold PushBack. intros Hp.
  apply bind_inv in Hp as (v1 & h1 & Hg & Hp).
  apply bind_inv in Hp as (u & h2 & Ha & Hp).
  apply assign_from_inv in Ha as (x & Hx & Hs). exists x.
  rewrite (bind_val _ _ _ _ _ Hg), assign_from_Local.
  by rewrite (bind_val _ _ _ _ _ Hs).
Qed.

Lemma PopBack_ok h v :
  0 < size_ v →
  PopBack v h
  = Val {| size_ := size_ v - 1; capacity_ := capacity_ v;
           data_ := data_ v |} h.
Proof.
  intros Hs. unfold PopBack, assert.
  rewrite bool_decide_eq_true_2 by lia. done.
Qed.

Lemma Resize_shrink h v n :
  n ≤ size_ v →
  Resize n v h
  = Val {| size_ := n; capacity_ := capacity_ v; data_ := data_ v |} h.
Proof.
  intros Hn. unfold Resize. by destruct (decide (n ≤ size_ v)).
Qed.

Lemma Resize_room h v l n :
  wf h v → data_ v = Some l → size_ v < n → n ≤ capacity_ v →
  Resize n v h
  = Val {| size_ := n; capacity_ := capacity_ v; data_ := Some l |}
        (<[l := elems h v ++ replicate (n - size_ v) value_init
                 ++ drop n (block h v)]> h).
Proof.
  intros Hwf Hl Hlt Hle. unfold Resize.
  destruct (decide (n ≤ size_ v)); [lia|].
  destruct (decide (n ≤ capacity_ v)); [|lia].
  destruct (wf_lookup _ _ _ Hwf Hl) as [Hb Hlen].
  unfold generate, end_, ArrayPtr_Get, ptr_add, ptr_sub. simpl.
  rewrite generate_n_fill_n, Hl.
  replace (size_ v + n - size_ v - size_ v) with (n - size_ v) by lia.
  rewrite <-(wf_elems_length h v Hwf) at 1.
  erewrite bind_val.
  2:{ erewrite bind_val; [done|].
      apply (fill_n_ok _ _ _ _ (take (n - size_ v) (drop (size_ v) (block h v)))
               (drop n (block h v))).
      - rewrite Hb. f_equal. rewrite (block_split h v) at 1. f_equal.
        rewrite <-(take_drop (n - size_ v) (drop (size_ v) (block h v))) at 1.
        f_equal. rewrite drop_drop. f_equal. lia.
      - rewrite length_take, length_drop. lia. }
  simpl. by rewrite Hl.
Qed.

Lemma Resize_grow h v n :
  wf h v → capacity_ v < n →
  let new_capacity := n `max` (capacity_ v * 2) in
  Resize n v h
  = Val {| size_ := n; capacity_ := new_capacity;
           data_ := Some (fresh (dom h)) |}
        (<[fresh (dom h) :=
             elems h v ++ replicate (new_capacity - size_ v) value_init]>
           (hfree (data_ v) h)).
Proof.
  intros Hwf Hlt new_capacity. unfold Resize.
  pose proof (proj1 Hwf).
  destruct (decide (n ≤ size_ v)); [lia|].
  destruct (decide (n ≤ capacity_ v)); [lia|].
  fold new_capacity.
  erewrite bind_val; [|apply IncreaseCapacity_ok; [done|lia..]].
  done.
Qed.

Lemma Reserve_grow h v n :
  wf h v → capacity_ v < n →
  Reserve n v h
  = Val {| size_ := size_ v; capacity_ := n;
           data_ := Some (fresh (dom h)) |}
        (<[fresh (dom h) := elems h v ++ replicate (n - size_ v) value_init]>
           (hfree (data_ v) h)).
Proof.
  intros Hwf Hlt. unfold Reserve. pose proof (proj1 Hwf).
  destruct (decide (n > capacity_ v)); [|lia].
  apply IncreaseCapacity_ok; [done|lia..].
Qed.

Lemma Reserve_keep h v n :
  n ≤ capacity_ v → Reserve n v h = Val v h.
Proof.
  intros Hle. unfold Reserve. destruct (decide (n > capacity_ v)); [lia|done].
Qed.

Lemma drop_size_cons h v :
  wf h v → size_ v < capacity_ v →
  ∃ y, drop (size_ v) (block h v) = y :: drop (size_ v + 1) (block h v).
Proof.
  intros Hwf Hlt. pose proof (wf_block_length _ _ Hwf) as Hlen.
  destruct (drop (size_ v) (block h v)) as [|y post] eqn:Hdrop.
  { apply (f_equal length) in Hdrop. rewrite length_drop in Hdrop.
    simpl in Hdrop. lia. }
  exists y. by rewrite <-drop_drop, Hdrop.
Qed.

Lemma Insert_room h v l index value x :
  wf h v → data_ v = Some l → size_ v < capacity_ v → index ≤ size_ v →
  ref_value (heap_at_read h v index) value = Some x →
  Insert (ptr_add (begin v) index) value v h
  = Val ((Some l, index),
         {| size_ := size_ v + 1; capacity_ := capacity_ v;
            data_ := Some l |})
        (<[l := take index (elems h v) ++ x :: drop index (elems h v)
                 ++ drop (size_ v + 1) (block h v)]> h).
Proof.
  intros Hwf Hl Hlt Hidx Hx. unfold Insert.
  destruct (wf_lookup _ _ _ Hwf Hl) as [Hb Hlen].
  pose proof (wf_elems_length _ _ Hwf) as HE.
  destruct (drop_size_cons _ _ Hwf Hlt) as [y Hy].
  unfold begin, end_, ArrayPtr_Get, ArrayPtr_index, ptr_add, ptr_le, assert.
  simpl. rewrite Hl.
  rewrite !bool_decide_eq_true_2 by (split; [done|lia]). simpl.
  rewrite Nat.sub_0_r.
  destruct (decide (size_ v < capacity_ v)); [|lia].
  set (pre := take index (elems h v)).
  set (mid := drop index (elems h v)).
  assert (length pre = index) as Hpre
    by (unfold pre; rewrite length_take; lia).
  assert (length mid = size_ v - index) as Hmid
    by (unfold mid; rewrite length_drop; lia).
  assert (h !! l = Some (pre ++ mid
                           ++ y :: drop (size_ v + 1) (block h v))) as Hb'.
  { rewrite Hb. f_equal. rewrite (block_split h v) at 1.
    rewrite Hy, app_assoc. f_equal. unfold pre, mid.
    by rewrite take_drop. }
  assert (heap_at_read h v index
          = <[l := pre ++ residue y (head mid)
                    :: mid ++ drop (size_ v + 1) (block h v)]> h) as Hread.
  { unfold heap_at_read, block_at_read. rewrite Hl.
    destruct (decide (size_ v < capacity_ v)); [|lia].
    replace (block h v !! size_ v) with (Some y); [done|].
    by rewrite <-(Nat.add_0_r (size_ v)), <-lookup_drop, Hy. }
  rewrite Hread in Hx.
  unfold copy_backward_move. simpl.
  replace (size_ v - index) with (length mid) by lia.
  replace (Some l, size_ v) with (Some l, length pre + length mid)
    by (f_equal; lia).
  replace (Some l, size_ v + 1) with (Some l, length pre + length mid + 1)
    by (f_equal; lia).
  erewrite bind_val; [|done].
  erewrite bind_val.
  2:{ erewrite bind_val;
        [|by apply (copy_backward_move_n_shift_right mid _ l pre)].
      erewrite bind_val; [done|].
      rewrite (assign_from_ok _ _ _ _ Hx).
      eapply store_ok; [apply lookup_insert_eq|].
      rewrite length_app. simpl. lia. }
  simpl. unfold mret, M_ret, ret.
  by rewrite Hl, insert_insert_eq, insert_middle.
Qed.

Lemma Erase_ok h v l index y :
  wf h v → data_ v = Some l → elems h v !! index = Some y →
  Erase (ptr_add (begin v) index) v h
  = Val ((Some l, index),
         {| size_ := size_ v - 1; capacity_ := capacity_ v;
            data_ := Some l |})
        (<[l := take index (elems h v) ++ drop (S index) (elems h v)
                 ++ residue y (last (drop (S index) (elems h v)))
                 :: drop (size_ v) (block h v)]> h).
Proof.
  intros Hwf Hl Hy. unfold Erase.
  destruct (wf_lookup _ _ _ Hwf Hl) as [Hb Hlen].
  pose proof (wf_elems_length _ _ Hwf) as HE.
  pose proof (lookup_lt_Some _ _ _ Hy) as Hidx. rewrite HE in Hidx.
  unfold begin, end_, ArrayPtr_Get, ArrayPtr_index, ptr_add, ptr_le, ptr_lt,
    assert.
  simpl. rewrite Hl.
  rewrite !bool_decide_eq_true_2 by (split; [done|lia]). simpl.
  rewrite Nat.sub_0_r.
  set (pre := take index (elems h v)).
  set (mid := drop (S index) (elems h v)).
  assert (length pre = index) as Hpre
    by (unfold pre; rewrite length_take; lia).
  assert (length mid = size_ v - (index + 1)) as Hmid
    by (unfold mid; rewrite length_drop; lia).
  assert (h !! l = Some (pre ++ y :: mid ++ drop (size_ v) (block h v)))
    as Hb'.
  { rewrite Hb. f_equal. rewrite (block_split h v) at 1.
    rewrite <-(take_drop_middle (elems h v) index y) at 1 by done.
    by rewrite <-app_assoc. }
  unfold copy_move. simpl.
  rewrite <-Hmid, <-Hpre.
  erewrite bind_val; [|done].
  erewrite bind_val; [|by apply (copy_move_n_shift_left mid _ l pre)].
  by rewrite Hpre.
Qed.

Lemma SetItem_ok h v l index value :
  wf h v → data_ v = Some l → index < size_ v →
  (p ← subscript v index; store p value;; mret v) h
  = Val v (<[l := <[index := value]> (block h v)]> h).
Proof.
  intros Hwf Hl Hidx. unfold subscript, assert.
  destruct (wf_lookup _ _ _ Hwf Hl) as [Hb Hlen]. pose proof (proj1 Hwf).
  rewrite bool_decide_eq_true_2 by done.
  unfold ArrayPtr_index. rewrite Hl.
  erewrite bind_val; [|by erewrite bind_val].
  erewrite bind_val; [done|]. eapply store_ok; [done|lia].
Qed.

(** A moving copy between two live blocks, on a heap that names both. *)
Lemma copy_move_n_two h l l' n (ps mid qs pd old qd : list T) i j :
  l ≠ l' → length mid = n → length old = n →
  i = length ps → j = length pd →
  copy_move_n (Some l, i) n (Some l', j)
              (<[l' := pd ++ old ++ qd]> (<[l := ps ++ mid ++ qs]> h))
  = Val tt (<[l' := pd ++ mid ++ qd]>
              (<[l := ps ++ (moved_from <$> mid) ++ qs]> h)).
Proof.
  intros Hne Hm Ho -> ->.
  rewrite (copy_move_n_ok n _ l l' ps mid qs pd old qd); [|done|..|done|done].
  - f_equal. heap_eq.
  - rewrite lookup_insert_ne by done. apply lookup_insert_eq.
  - apply lookup_insert_eq.
Qed.

Lemma Insert_full h v index value x0 x :
  wf h v → capacity_ v ≤ size_ v → index ≤ size_ v →
  ref_value h value = Some x0 →
  ref_value (heap_at_read h v index) value = Some x →
  let new_capacity := (size_ v + 1) `max` (capacity_ v * 2) in
  Insert (ptr_add (begin v) index) value v h
  = Val ((Some (fresh (dom h)), index),
         {| size_ := size_ v + 1; capacity_ := new_capacity;
            data_ := Some (fresh (dom h)) |})
        (<[fresh (dom h) :=
             take index (elems h v) ++ x :: drop index (elems h v)
               ++ replicate (new_capacity - (size_ v + 1)) value_init]>
           (hfree (data_ v) h)).
Proof.
  intros Hwf Hge Hidx Hx0 Hx new_capacity. unfold Insert.
  pose proof (wf_elems_length _ _ Hwf) as HE.
  pose proof (proj1 Hwf) as Hsc.
  unfold begin, end_, ArrayPtr_Get, ArrayPtr_index, ptr_add, ptr_le, assert.
  simpl.
  rewrite !bool_decide_eq_true_2 by (split; [done|lia]). simpl.
  rewrite Nat.sub_0_r.
  destruct (decide (size_ v < capacity_ v)); [lia|].
  fold new_capacity.
  erewrite bind_val; [|done].
  set (l' := fresh (dom h)).
  set (pre := take index (elems h v)).
  set (mid := drop index (elems h v)).
  set (k := new_capacity - (size_ v + 1)).
  assert (length pre = index) as Hpre
    by (unfold pre; rewrite length_take; lia).
  assert (length mid = size_ v - index) as Hmid
    by (unfold mid; rewrite length_drop; lia).
  assert (replicate new_capacity value_init
          = replicate index value_init
              ++ value_init :: replicate (size_ v - index) value_init
              ++ replicate k value_init) as Hrep.
  { rewrite <-replicate_add, <-(replicate_S (size_ v - index + k)),
      <-replicate_add. f_equal. unfold k. lia. }
  rewrite bind_assoc_h.
  erewrite bind_val; [|by apply ArrayPtr_new_ok; lia].
  fold l'. rewrite Hrep. unfold copy_move. simpl.
  destruct (data_ v) as [l|] eqn:Hl.
  - destruct (wf_lookup _ _ _ Hwf Hl) as [Hb Hlen].
    assert (l ≠ l') as Hne by (by eapply fresh_ne_data).
    rewrite <-(insert_id h l (block h v)) at 1 by done.
    rewrite (block_split h v) at 1.
    rewrite <-(take_drop index (elems h v)) at 1.
    fold pre mid. rewrite <-app_assoc, Nat.sub_0_r.
    rewrite bind_assoc_h. erewrite bind_val.
    2:{ apply (copy_move_n_two _ l l' index
                 [] pre _ [] (replicate index value_init));
          [done|done|by rewrite length_replicate|done|done]. }
    simpl. rewrite bind_assoc_h. erewrite bind_val.
    2:{ rewrite (assign_from_ok _ _ _ x).
        - eapply store_ok; [apply lookup_insert_eq|].
          rewrite length_app. simpl. lia.
        - erewrite ref_value_insert_fresh;
            [|exact Hx0|apply fresh_loc_None].
          rewrite <-Hx. unfold heap_at_read, block_at_read. rewrite Hl.
          destruct (decide (size_ v < capacity_ v)); [lia|]. done. }
    rewrite insert_insert_eq, insert_middle by done.
    rewrite bind_assoc_h. erewrite bind_val.
    2:{ rewrite (cons_middle x pre), app_assoc.
        apply (copy_move_n_two _ l l' (size_ v - index)
                 (moved_from <$> pre) mid _ (pre ++ [x])
                 (replicate (size_ v - index) value_init));
          [done|done|by rewrite length_replicate|
           by rewrite length_fmap|
           rewrite length_app; simpl; lia]. }
    rewrite bind_assoc_h. erewrite bind_val.
    2:{ apply ArrayPtr_delete_ok. intros ? [= <-].
        rewrite lookup_insert_ne, lookup_insert_eq by done. done. }
    simpl. unfold mret, M_ret, ret, mbind, M_bind, bind. f_equal.
    rewrite <-app_assoc. simpl. heap_eq.
  - assert (size_ v = 0 ∧ capacity_ v = 0) as [Hs Hc].
    { destruct Hwf as [? Hd]. rewrite Hl in Hd. lia. }
    assert (index = 0) as -> by lia.
    rewrite Hs. simpl.
    rewrite bind_assoc_h. erewrite bind_val; [|done].
    rewrite bind_assoc_h. erewrite bind_val.
    2:{ rewrite (assign_from_ok _ _ _ x).
        - eapply store_ok; [apply lookup_insert_eq|simpl; lia].
        - erewrite ref_value_insert_fresh;
            [|exact Hx0|apply fresh_loc_None].
          rewrite <-Hx. unfold heap_at_read. by rewrite Hl. }
    rewrite bind_assoc_h. erewrite bind_val; [|done].
    rewrite bind_assoc_h. erewrite bind_val; [|done].
    simpl. unfold mret, M_ret, ret, mbind, M_bind, bind. f_equal.
    rewrite insert_insert_eq. unfold pre, mid, elems.
    rewrite Hs. simpl. done.
Qed.


Lemma Insert_inv_Local h pos value v r h' :
  Insert pos value v h = Val r h' →
  ∃ x, Insert pos (Local x) v h = Val r h'.
Proof.
  unfold Insert. intros Hi.
  apply bind_inv in Hi as (u & h0 & Hassert & Hi).
  apply bind_inv in Hi as (v1 & h1 & Hbranch & Hi).
  destruct (decide (size_ v < capacity_ v)).
  - apply bind_inv in Hbranch as (u1 & h2 & Hshift & Hbranch).
    apply bind_inv in Hbranch as (u2 & h3 & Ha & Hbranch).
    apply assign_from_inv in Ha as (x & Hx & Hs). exists x.
    rewrite (bind_val _ _ _ _ _ Hassert). erewrite bind_val; [exact Hi|].
    rewrite (bind_val _ _ _ _ _ Hshift), assign_from_Local.
    by rewrite (bind_val _ _ _ _ _ Hs).
  - apply bind_inv in Hbranch as (new_data & h2 & Hnew & Hbranch).
    apply bind_inv in Hbranch as (u1 & h3 & Hpre & Hbranch).
    apply bind_inv in Hbranch as (u2 & h4 & Ha & Hbranch).
    apply assign_from_inv in Ha as (x & Hx & Hs). exists x.
    rewrite (bind_val _ _ _ _ _ Hassert). erewrite bind_val; [exact Hi|].
    rewrite (bind_val _ _ _ _ _ Hnew), (bind_val _ _ _ _ _ Hpre).
    rewrite assign_from_Local.
    by rewrite (bind_val _ _ _ _ _ Hs).
Qed.

(** ** Constructors, copy and comparison *)

Lemma ArrayPtr_new_alloc h n :
  ArrayPtr_new n h
  = Val (alloc_data n h) (alloc_heap n (replicate n value_init) h).
Proof.
  unfold ArrayPtr_new, alloc_data, alloc_heap. by destruct (decide (n = 0)).
Qed.

Lemma owned_step_alloc h n (b : list T) s :
  length b = n → s ≤ n →
  owned_step h ctor_default (alloc_heap n b h)
    {| size_ := s; capacity_ := n; data_ := alloc_data n h |}.
Proof.
  intros Hb Hs. unfold alloc_heap, alloc_data.
  destruct (decide (n = 0)) as [->|Hn].
  - split; [|split]; simpl; [|done..]. split; simpl; [lia|done].
  - split; [|split]; simpl.
    + split; simpl; [done|]. exists b. by rewrite lookup_insert_eq.
    + intros l [= <-]. right. apply fresh_loc_None.
    + intros l _ Hne. apply lookup_insert_ne. congruence.
Qed.

Lemma ctor_reserve_ok h n :
  ctor_reserve (Reserve_proxy n) h
  = Val {| size_ := 0; capacity_ := n; data_ := alloc_data n h |}
        (alloc_heap n (replicate n value_init) h).
Proof.
  unfold ctor_reserve. simpl.
  by rewrite (bind_val _ _ _ _ _ (ArrayPtr_new_alloc h n)).
Qed.

Lemma ctor_fill_ok h n value :
  ctor_fill n value h
  = Val {| size_ := n; capacity_ := n; data_ := alloc_data n h |}
        (alloc_heap n (replicate n value) h).
Proof.
  unfold ctor_fill.
  rewrite (bind_val _ _ _ _ _ (ArrayPtr_new_alloc h n)).
  unfold fill, begin, end_, ArrayPtr_Get, ptr_add, alloc_data, alloc_heap.
  simpl. rewrite Nat.sub_0_r.
  destruct (decide (n = 0)) as [->|Hn]; [done|].
  erewrite bind_val; [done|].
  rewrite (fill_n_ok n _ _ [] (replicate n value_init) [] value); simpl.
  - by rewrite insert_insert_eq, app_nil_r.
  - by rewrite lookup_insert_eq, app_nil_r.
  - by rewrite length_replicate.
Qed.

Lemma ctor_size_ok h n :
  ctor_size n h
  = Val {| size_ := n; capacity_ := n; data_ := alloc_data n h |}
        (alloc_heap n (replicate n value_init) h).
Proof. apply ctor_fill_ok. Qed.

Lemma ctor_init_ok h init :
  ctor_init init h
  = Val {| size_ := length init; capacity_ := length init;
           data_ := alloc_data (length init) h |}
        (alloc_heap (length init) init h).
Proof.
  unfold ctor_init. rewrite (bind_val _ _ _ _ _ (ctor_size_ok h _)).
  unfold begin, ArrayPtr_Get, alloc_data, alloc_heap. simpl.
  destruct (decide (length init = 0)) as [Hn|Hn].
  - apply nil_length_inv in Hn as ->. done.
  - erewrite bind_val; [done|].
    rewrite (copy_init_ok init _ _ []
               (replicate (length init) value_init) []); simpl.
    + by rewrite insert_insert_eq, app_nil_r.
    + by rewrite lookup_insert_eq, app_nil_r.
    + by rewrite length_replicate.
Qed.

Lemma ctor_copy_ok h other :
  wf h other →
  ctor_copy other h
  = Val {| size_ := size_ other; capacity_ := size_ other;
           data_ := alloc_data (size_ other) h |}
        (alloc_heap (size_ other) (elems h other) h).
Proof.
  intros Hwf. unfold ctor_copy.
  rewrite (bind_val _ _ _ _ _ (ctor_size_ok h _)).
  unfold copy, cbegin, cend, begin, ArrayPtr_Get, ptr_add, dtor,
    alloc_data, alloc_heap.
  simpl. rewrite Nat.sub_0_r.
  destruct (decide (size_ other = 0)) as [Hn|Hn].
  - rewrite Hn. done.
  - destruct (wf_data_Some h other Hwf) as [l Hl].
    { destruct Hwf. lia. }
    destruct (wf_lookup _ _ _ Hwf Hl) as [Hb Hlen].
    pose proof (fresh_ne_data _ _ _ Hwf Hl) as Hne.
    rewrite Hl. erewrite bind_val.
    2:{ apply (copy_n_ok (size_ other) _ l (fresh (dom h)) []
                 (elems h other) (drop (size_ other) (block h other))
                 [] (replicate (size_ other) value_init) []).
        - done.
        - rewrite lookup_insert_ne by done. simpl.
          by rewrite <-block_split.
        - by rewrite lookup_insert_eq, app_nil_r.
        - by apply wf_elems_length.
        - by rewrite length_replicate. }
    erewrite bind_val; [|done].
    simpl. by rewrite insert_insert_eq, app_nil_r.
Qed.

Lemma eq_op_ok h lhs rhs :
  wf h lhs → wf h rhs →
  eq_op lhs rhs h = Val (bool_decide (elems h lhs = elems h rhs)) h.
Proof.
  intros Hl Hr. unfold eq_op, GetSize.
  pose proof (wf_elems_length _ _ Hl) as Hnl.
  pose proof (wf_elems_length _ _ Hr) as Hnr.
  destruct (decide (size_ lhs ≠ size_ rhs)) as [Hne|Heq].
  { unfold mret, M_ret, ret. f_equal. symmetry.
    apply bool_decide_eq_false. congruence. }
  assert (size_ lhs = size_ rhs) as Hsz by lia.
  unfold equal, cbegin, cend, ArrayPtr_Get, ptr_add. simpl.
  rewrite Nat.sub_0_r.
  destruct (decide (size_ lhs = 0)) as [Hz|Hz].
  { rewrite Hz. simpl. unfold mret, M_ret, ret. f_equal. symmetry.
    apply bool_decide_eq_true.
    rewrite (nil_length_inv (elems h lhs)) by lia.
    rewrite (nil_length_inv (elems h rhs)) by lia. done. }
  destruct (wf_data_Some h lhs Hl) as [l1 Hl1]; [destruct Hl; lia|].
  destruct (wf_data_Some h rhs Hr) as [l2 Hl2]; [destruct Hr; lia|].
  rewrite Hl1, Hl2.
  apply (equal_n_ok _ _ l1 l2 [] (elems h lhs) (drop (size_ lhs) (block h lhs))
           [] (elems h rhs) (drop (size_ rhs) (block h rhs))); simpl.
  - rewrite <-block_split. by apply wf_lookup.
  - rewrite <-block_split. by apply wf_lookup.
  - done.
  - lia.
Qed.

(** ** Every mutator is an owned step *)

Ltac len :=
  repeat first
    [ rewrite length_app | rewrite length_cons | rewrite length_replicate
    | rewrite length_take | rewrite length_drop | rewrite length_fmap
    | rewrite length_insert | rewrite wf_elems_length by done
    | rewrite wf_block_length by done ];
  simpl; lia.

(** What a reference reads when [Insert] reads it. *)
Lemma block_at_read_length h v index :
  wf h v → index ≤ size_ v →
  length (block_at_read h v index) = capacity_ v.
Proof.
  intros Hwf Hidx. pose proof (proj1 Hwf) as Hsc.
  pose proof (wf_elems_length _ _ Hwf) as HE.
  pose proof (wf_block_length _ _ Hwf) as HB.
  unfold block_at_read. destruct (decide (size_ v < capacity_ v)); len.
Qed.

Lemma heap_at_read_outside h v index r :
  outside r v → ref_value (heap_at_read h v index) r = ref_value h r.
Proof.
  destruct r as [x|[[lr|] i]]; simpl; [done| |done].
  intros Hout. unfold heap_at_read. destruct (data_ v) as [l|]; [|done].
  rewrite lookup_insert_ne; [done|]. congruence.
Qed.

Lemma heap_at_read_own h v index j :
  wf h v → data_ v ≠ None →
  ref_value (heap_at_read h v index) (Slot (ptr_add (begin v) j))
  = block_at_read h v index !! j.
Proof.
  intros Hwf Hd. unfold heap_at_read, begin, ArrayPtr_Get, ptr_add. simpl.
  destruct (data_ v) as [l|]; [|done].
  by rewrite lookup_insert_eq.
Qed.

Lemma ref_value_own h v j :
  ref_value h (Slot (ptr_add (begin v) j)) = block h v !! j.
Proof.
  unfold begin, ArrayPtr_Get, ptr_add, block. simpl.
  destruct (data_ v) as [l|]; [|done]. by destruct (h !! l).
Qed.

(** A reference that is valid at the call is still valid when [Insert]
    reads it. *)
Lemma heap_at_read_valid h v index r x :
  wf h v → index ≤ size_ v → ref_value h r = Some x →
  is_Some (ref_value (heap_at_read h v index) r).
Proof.
  intros Hwf Hidx Hx.
  destruct r as [y|[[lr|] i]]; simpl in *; [done| |done].
  unfold heap_at_read. destruct (data_ v) as [l|] eqn:Hl; [|by rewrite Hx].
  destruct (decide (l = lr)) as [->|Hne].
  - rewrite lookup_insert_eq. simpl. apply lookup_lt_is_Some.
    rewrite block_at_read_length by done.
    destruct (wf_lookup _ _ _ Hwf Hl) as [Hb Hlen]. rewrite Hb in Hx.
    simpl in Hx. apply lookup_lt_Some in Hx.
    by rewrite wf_block_length in Hx.
  - rewrite lookup_insert_ne by done. by rewrite Hx.
Qed.

Lemma PushBack_owned h v item v' h' :
  wf h v → PushBack item v h = Val v' h' → owned_step h v h' v'.
Proof.
  intros Hwf Hp. pose proof (proj1 Hwf) as Hsc.
  apply PushBack_inv_Local in Hp as (x & Hp). revert Hp.
  destruct (decide (size_ v < capacity_ v)) as [Hlt|Hge].
  - destruct (wf_data_Some h v Hwf) as [l Hl]; [lia|].
    rewrite (PushBack_room _ _ l _ x) by done. intros [= <- <-].
    apply owned_step_inplace; [done|done|len|lia].
  - rewrite (PushBack_full _ _ _ x) by (done || lia). intros [= <- <-].
    apply owned_step_realloc; [done|len|lia].
Qed.

Lemma PopBack_owned h v v' h' :
  wf h v → PopBack v h = Val v' h' → owned_step h v h' v'.
Proof.
  intros Hwf. pose proof (proj1 Hwf) as Hsc.
  destruct (decide (0 < size_ v)) as [Hlt|Hge].
  - rewrite PopBack_ok by done. intros [= <- <-].
    apply owned_step_pure; [done|lia].
  - unfold PopBack, assert. by rewrite bool_decide_eq_false_2.
Qed.

Lemma Clear_owned h v : wf h v → owned_step h v h (Clear v).
Proof. intros Hwf. apply owned_step_pure; [done|lia]. Qed.

Lemma Resize_owned h v n v' h' :
  wf h v → Resize n v h = Val v' h' → owned_step h v h' v'.
Proof.
  intros Hwf. pose proof (proj1 Hwf) as Hsc.
  destruct (decide (n ≤ size_ v)) as [Hle|Hgt].
  - rewrite Resize_shrink by done. intros [= <- <-].
    apply owned_step_pure; [done|lia].
  - destruct (decide (n ≤ capacity_ v)) as [Hle|Hgt'].
    + destruct (wf_data_Some h v Hwf) as [l Hl]; [lia|].
      rewrite (Resize_room _ _ l) by (done || lia). intros [= <- <-].
      apply owned_step_inplace; [done|done|len|lia].
    + rewrite Resize_grow by (done || lia). intros [= <- <-].
      apply owned_step_realloc; [done|len|lia].
Qed.

Lemma Reserve_owned h v n v' h' :
  wf h v → Reserve n v h = Val v' h' → owned_step h v h' v'.
Proof.
  intros Hwf. pose proof (proj1 Hwf) as Hsc.
  destruct (decide (n ≤ capacity_ v)) as [Hle|Hgt].
  - rewrite Reserve_keep by done. intros [= <- <-].
    by apply owned_step_refl.
  - rewrite Reserve_grow by (done || lia). intros [= <- <-].
    apply owned_step_realloc; [done|len|lia].
Qed.

Lemma Insert_out_of_range h v index value :
  size_ v < index →
  Insert (ptr_add (begin v) index) value v h = Undef.
Proof.
  intros Hgt. unfold Insert, assert, ptr_le, begin, end_, ArrayPtr_Get,
    ptr_add. simpl.
  rewrite (bool_decide_eq_false_2 (_ ∧ index ≤ _)) by lia.
  by rewrite andb_false_r.
Qed.

Lemma Insert_owned h v index value it v' h' :
  wf h v → Insert (ptr_add (begin v) index) value v h = Val (it, v') h' →
  owned_step h v h' v'.
Proof.
  intros Hwf Hi. pose proof (proj1 Hwf) as Hsc.
  apply Insert_inv_Local in Hi as (x & Hi). revert Hi.
  destruct (decide (index ≤ size_ v)) as [Hidx|Hidx].
  - destruct (decide (size_ v < capacity_ v)) as [Hlt|Hge].
    + destruct (wf_data_Some h v Hwf) as [l Hl]; [lia|].
      rewrite (Insert_room _ _ l _ _ x) by done. intros [= <- <- <-].
      apply owned_step_inplace; [done|done|len|lia].
    + rewrite (Insert_full _ _ _ _ x x) by (done || lia).
      intros [= <- <- <-].
      apply owned_step_realloc; [done|len|lia].
  - by rewrite Insert_out_of_range by lia.
Qed.

Lemma Erase_out_of_range h v index :
  size_ v ≤ index → Erase (ptr_add (begin v) index) v h = Undef.
Proof.
  intros Hgt. unfold Erase, assert, ptr_le, ptr_lt, begin, end_,
    ArrayPtr_Get, ptr_add. simpl.
  rewrite (bool_decide_eq_false_2 (_ ∧ index < _)) by lia.
  by rewrite andb_false_r.
Qed.

Lemma Erase_owned h v index it v' h' :
  wf h v → Erase (ptr_add (begin v) index) v h = Val (it, v') h' →
  owned_step h v h' v'.
Proof.
  intros Hwf. pose proof (proj1 Hwf) as Hsc.
  destruct (elems h v !! index) as [y|] eqn:Hy.
  - pose proof (lookup_lt_Some _ _ _ Hy) as Hidx.
    rewrite wf_elems_length in Hidx by done.
    destruct (wf_data_Some h v Hwf) as [l Hl]; [lia|].
    rewrite (Erase_ok _ _ l _ y) by done. intros [= <- <- <-].
    apply owned_step_inplace; [done|done|len|lia].
  - apply lookup_ge_None in Hy. rewrite wf_elems_length in Hy by done.
    by rewrite Erase_out_of_range.
Qed.

Lemma SetItem_owned h v index value v' h' :
  wf h v →
  (p ← subscript v index; store p value;; mret v) h = Val v' h' →
  owned_step h v h' v'.
Proof.
  intros Hwf. pose proof (proj1 Hwf) as Hsc.
  destruct (decide (index < size_ v)) as [Hidx|Hidx].
  - destruct (wf_data_Some h v Hwf) as [l Hl]; [lia|].
    rewrite (SetItem_ok _ _ l) by done. intros [= <- <-].
    destruct v as [s c d]. simpl in *. subst d.
    apply (owned_step_inplace _ (mkVec s c (Some l))); [done|done|len|done].
  - unfold subscript, assert. rewrite bool_decide_eq_false_2 by done.
    done.
Qed.

(** ** Assignment *)

Lemma SimpleVector_eta v :
  {| size_ := size_ v; capacity_ := capacity_ v; data_ := data_ v |} = v.
Proof. by destruct v. Qed.

Lemma operator_assign_ok σ h this rhs t r :
  this ≠ rhs → σ !! this = Some t → σ !! rhs = Some r →
  wf h t → wf h r →
  operator_assign this rhs σ h
  = Val (<[this := {| size_ := size_ r; capacity_ := size_ r;
                      data_ := alloc_data (size_ r) h |}]> σ)
        (hfree (data_ t) (alloc_heap (size_ r) (elems h r) h)).
Proof.
  intros Hne Ht Hr Hwt Hwr. unfold operator_assign.
  destruct (decide (this ≠ rhs)); [|done]. rewrite Ht, Hr.
  rewrite (bind_val _ _ _ _ _ (ctor_copy_ok h r Hwr)).
  unfold swap, dtor, ArrayPtr_swap. simpl.
  erewrite bind_val; [done|].
  apply ArrayPtr_delete_ok. intros l Hl.
  destruct (wf_lookup _ _ _ Hwt Hl) as [Hb _].
  unfold alloc_heap. destruct (decide (size_ r = 0)); [by rewrite Hb|].
  rewrite lookup_insert_ne; [by rewrite Hb|].
  intros <-. by rewrite fresh_loc_None in Hb.
Qed.

Lemma operator_assign_self σ h this :
  operator_assign this this σ h = Val σ h.
Proof. unfold operator_assign. by destruct (decide (this ≠ this)). Qed.

Lemma assign_owned h t r :
  wf h t → wf h r →
  owned_step h t
    (hfree (data_ t) (alloc_heap (size_ r) (elems h r) h))
    {| size_ := size_ r; capacity_ := size_ r;
       data_ := alloc_data (size_ r) h |}.
Proof.
  intros Hwt Hwr. unfold alloc_heap, alloc_data.
  destruct (decide (size_ r = 0)) as [Hz|Hz].
  - split; [|split]; simpl; [|done|].
    + split; simpl; [done|lia].
    + intros l Hne _. destruct (data_ t) as [lt|]; simpl; [|done].
      apply lookup_delete_ne. congruence.
  - assert (∀ lt, data_ t = Some lt → lt ≠ fresh (dom h)) as Hfresh.
    { intros lt Hlt. by apply (fresh_ne_data h t). }
    split; [|split]; simpl.
    + split; simpl; [done|]. exists (elems h r).
      split; [|by apply wf_elems_length].
      destruct (data_ t) as [lt|]; simpl.
      * rewrite lookup_delete_ne by (by apply Hfresh).
        apply lookup_insert_eq.
      * apply lookup_insert_eq.
    + intros l [= <-]. right. apply fresh_loc_None.
    + intros l Hne Hne'. destruct (data_ t) as [lt|]; simpl.
      * rewrite lookup_delete_ne by congruence.
        apply lookup_insert_ne. congruence.
      * apply lookup_insert_ne. congruence.
Qed.

(** ** Stores of objects: frames and the invariant *)

Lemma block_eq_lookup h h' v :
  (∀ l, data_ v = Some l → h' !! l = h !! l) → block h' v = block h v.
Proof.
  intros Hl. unfold block. destruct (data_ v) as [l|]; [|done].
  by rewrite Hl.
Qed.

Lemma wf_eq_lookup h h' v :
  (∀ l, data_ v = Some l → h' !! l = h !! l) → wf h v → wf h' v.
Proof.
  intros Hl [Hs Hd]. split; [done|].
  destruct (data_ v) as [l|]; [|done]. by rewrite Hl.
Qed.

Lemma state_wf_update σ h a v v' h' :
  state_wf σ h →
  (σ !! a = Some v ∨ σ !! a = None ∧ v = ctor_default) →
  owned_step h v h' v' →
  state_wf (<[a := v']> σ) h' ∧
  ∀ b vb l, b ≠ a → σ !! b = Some vb → data_ vb = Some l →
            h' !! l = h !! l ∧ data_ v' ≠ Some l.
Proof.
  intros [Hwf Hdisj] Ha (Hwf' & Hnew & Hframe).
  assert (∀ b vb l, b ≠ a → σ !! b = Some vb → data_ vb = Some l →
                    h' !! l = h !! l ∧ data_ v' ≠ Some l) as Hother.
  { intros b vb l Hne Hb Hl.
    assert (data_ v ≠ Some l) as Hv.
    { destruct Ha as [Ha|[_ ->]]; [|done].
      intros Hvl. by apply (Hdisj a b v vb l). }
    assert (data_ v' ≠ Some l) as Hv'.
    { intros Hvl. destruct (Hnew l Hvl) as [?|Hnone]; [done|].
      destruct (wf_lookup _ _ _ (Hwf b vb Hb) Hl) as [Hlive _].
      by rewrite Hnone in Hlive. }
    split; [by apply Hframe|done]. }
  split; [|done]. split.
  - intros b vb Hb. destruct (decide (b = a)) as [->|Hne].
    + rewrite lookup_insert_eq in Hb. by injection Hb as <-.
    + rewrite lookup_insert_ne in Hb by done.
      eapply wf_eq_lookup; [|by eapply Hwf].
      intros l Hl. by eapply Hother.
  - intros b c vb vc l Hbc Hb Hc Hl.
    destruct (decide (b = a)) as [->|Hba];
      destruct (decide (c = a)) as [->|Hca]; try done.
    + rewrite lookup_insert_eq in Hb. injection Hb as <-.
      rewrite lookup_insert_ne in Hc by done.
      intros Hcl. by destruct (Hother c vc l Hca Hc Hcl).
    + rewrite lookup_insert_eq in Hc. injection Hc as <-.
      rewrite lookup_insert_ne in Hb by done.
      by destruct (Hother b vb l Hba Hb Hl).
    + rewrite lookup_insert_ne in Hb, Hc by done.
      by eapply (Hdisj b c).
Qed.

(** Renaming objects keeps the invariant: it is about owners, not names. *)
Lemma state_wf_reindex σ σ' h (f : addr → addr) :
  (∀ c, σ' !! c = σ !! f c) → (∀ c d, f c = f d → c = d) →
  state_wf σ h → state_wf σ' h.
Proof.
  intros Hf Hinj [Hwf Hdisj]. split.
  - intros a v Ha. rewrite Hf in Ha. by eapply Hwf.
  - intros a b va vb l Hne Ha Hb. rewrite Hf in Ha, Hb.
    apply (Hdisj (f a) (f b)); [|done..]. intros Heq. by apply Hne, Hinj.
Qed.

Lemma state_wf_swap σ h a b va vb :
  σ !! a = Some va → σ !! b = Some vb →
  state_wf σ h → state_wf (<[a := vb]> (<[b := va]> σ)) h.
Proof.
  intros Ha Hb.
  apply (state_wf_reindex _ _ _
           (λ c, if decide (c = a) then b
                 else if decide (c = b) then a else c)).
  - intros c. repeat case_decide; simplify_map_eq; done.
  - intros c d. repeat case_decide; congruence.
Qed.

Lemma wf_ctor_default h : wf h ctor_default.
Proof. split; simpl; done. Qed.

Lemma update_sound σ h a v v' h' :
  state_wf σ h →
  (σ !! a = Some v ∨ σ !! a = None ∧ v = ctor_default) →
  owned_step h v h' v' →
  state_wf (<[a := v']> σ) h' ∧
  ∀ b vb, b ≠ a → σ !! b = Some vb →
          <[a := v']> σ !! b = Some vb ∧ block h' vb = block h vb.
Proof.
  intros Hst Ha Hstep.
  destruct (state_wf_update _ _ _ _ _ _ Hst Ha Hstep) as [Hst' Hother].
  split; [done|]. intros b vb Hne Hb. split.
  - by rewrite lookup_insert_ne.
  - apply block_eq_lookup. intros l Hl. by eapply Hother.
Qed.

Lemma declare_sound a init σ h σ' h' :
  (∀ v' h', init h = Val v' h' → owned_step h ctor_default h' v') →
  state_wf σ h → declare a init σ h = Val σ' h' →
  state_wf σ' h' ∧
  ∀ b vb, b ≠ a → σ !! b = Some vb →
          σ' !! b = Some vb ∧ block h' vb = block h vb.
Proof.
  intros Hinit Hst. unfold declare.
  destruct (σ !! a) as [?|] eqn:Ha; [done|].
  intros (v' & h1 & Hv & [= <- <-])%bind_inv.
  apply (update_sound _ _ _ ctor_default); [done|by right|by apply Hinit].
Qed.

Lemma call_sound a method σ h σ' h' :
  (∀ v v' h', wf h v → method v h = Val v' h' → owned_step h v h' v') →
  state_wf σ h → call a method σ h = Val σ' h' →
  state_wf σ' h' ∧
  ∀ b vb, b ≠ a → σ !! b = Some vb →
          σ' !! b = Some vb ∧ block h' vb = block h vb.
Proof.
  intros Hm Hst. unfold call.
  destruct (σ !! a) as [v|] eqn:Ha; [|done].
  intros (v' & h1 & Hv & [= <- <-])%bind_inv.
  apply (update_sound _ _ _ v); [done|by left|].
  apply Hm; [|done]. by eapply (proj1 Hst).
Qed.

Lemma not_elem_of_1 (a b : addr) : b ∉ [a] → b ≠ a.
Proof. intros Hb ->. apply Hb. by left. Qed.

Lemma not_elem_of_2 (a a' b : addr) : b ∉ [a; a'] → b ≠ a ∧ b ≠ a'.
Proof.
  intros Hb. split; intros ->; apply Hb; [by left|]. right. by left.
Qed.

(** Binding an argument reads nothing and changes nothing; an rvalue is an
    object of the caller, on which the two overloads agree.  So every call
    of [PushBack] or [Insert] in a program is a call of the [const Type&]
    overload on some reference. *)
Lemma subscript_inv v index h p h' :
  subscript v index h = Val p h' →
  h' = h ∧ p = ArrayPtr_index (data_ v) index ∧ index < size_ v.
Proof.
  unfold subscript, assert.
  destruct (bool_decide (index < size_ v)) eqn:Hlt; [|done].
  apply bool_decide_eq_true in Hlt. by intros [= <- <-].
Qed.

Lemma bind_arg_inv σ item h r h' :
  bind_arg σ item h = Val r h' →
  h' = h ∧ (r.1 = true → ∃ x, r.2 = Local x).
Proof.
  destruct item as [x|x|b i]; simpl.
  - by intros [= <- <-].
  - intros [= <- <-]. split; [done|]. by exists x.
  - destruct (σ !! b) as [w|]; [|done].
    intros (p & h1 & (-> & _)%subscript_inv & [= <- <-])%bind_inv. done.
Qed.

Lemma exec_CallPushBack a item σ h σ' h' :
  exec (CallPushBack a item) σ h = Val σ' h' →
  ∃ r, call a (PushBack r) σ h = Val σ' h'.
Proof.
  simpl. intros ([mv r] & h1 & Hb & Hc)%bind_inv.
  apply bind_arg_inv in Hb as [-> Hmv]. simpl in *.
  destruct mv; [|by exists r].
  destruct Hmv as [x ->]; [done|]. by exists (Local x).
Qed.

Lemma exec_CallInsert a index value σ h σ' h' :
  exec (CallInsert a index value) σ h = Val σ' h' →
  ∃ r, call a (fun v => snd <$> Insert (ptr_add (begin v) index) r v) σ h
       = Val σ' h'.
Proof.
  simpl. intros ([mv r] & h1 & Hb & Hc)%bind_inv.
  apply bind_arg_inv in Hb as [-> Hmv]. simpl in *.
  destruct mv; [|by exists r].
  destruct Hmv as [x ->]; [done|]. by exists (Local x).
Qed.

(** Each command keeps the invariant, and leaves alone every object it
    does not name as modified: its record and the slots of its block. *)
Lemma exec_sound c σ h σ' h' :
  state_wf σ h → exec c σ h = Val σ' h' →
  state_wf σ' h' ∧
  ∀ b vb, b ∉ modifies c → σ !! b = Some vb →
          σ' !! b = Some vb ∧ block h' vb = block h vb.
Proof.
  intros Hst Hex.
  destruct c; simpl in Hex; simpl modifies.
  - (* DeclDefault *)
    eapply declare_sound in Hex as [? Hfr]; [|..|done].
    + split; [done|]. intros b vb Hb%not_elem_of_1. by apply Hfr.
    + intros v' h1 [= <- <-]. apply owned_step_refl, wf_ctor_default.
  - (* DeclReserve *)
    eapply declare_sound in Hex as [? Hfr]; [|..|done].
    + split; [done|]. intros b vb Hb%not_elem_of_1. by apply Hfr.
    + intros v' h1. rewrite ctor_reserve_ok. intros [= <- <-].
      apply owned_step_alloc; [by rewrite length_replicate|lia].
  - (* DeclSize *)
    eapply declare_sound in Hex as [? Hfr]; [|..|done].
    + split; [done|]. intros b vb Hb%not_elem_of_1. by apply Hfr.
    + intros v' h1. rewrite ctor_size_ok. intros [= <- <-].
      apply owned_step_alloc; [by rewrite length_replicate|lia].
  - (* DeclFill *)
    eapply declare_sound in Hex as [? Hfr]; [|..|done].
    + split; [done|]. intros b vb Hb%not_elem_of_1. by apply Hfr.
    + intros v' h1. rewrite ctor_fill_ok. intros [= <- <-].
      apply owned_step_alloc; [by rewrite length_replicate|lia].
  - (* DeclInit *)
    eapply declare_sound in Hex as [? Hfr]; [|..|done].
    + split; [done|]. intros b vb Hb%not_elem_of_1. by apply Hfr.
    + intros v' h1. rewrite ctor_init_ok. intros [= <- <-].
      by apply owned_step_alloc.
  - (* DeclCopy *)
    destruct (σ !! b) as [other|] eqn:Hb; [|done].
    assert (wf h other) as Hwo by (by eapply (proj1 Hst)).
    eapply declare_sound in Hex as [? Hfr]; [|..|done].
    + split; [done|]. intros c vc Hc%not_elem_of_1. by apply Hfr.
    + intros v' h1. rewrite ctor_copy_ok by done. intros [= <- <-].
      apply owned_step_alloc; [by apply wf_elems_length|lia].
  - (* DeclMove *)
    destruct (σ !! a) as [?|] eqn:Ha; [done|].
    destruct (σ !! b) as [other|] eqn:Hb; [|done].
    injection Hex as <- <-. unfold ctor_move, ArrayPtr_Release,
      ArrayPtr_from_raw. simpl. rewrite SimpleVector_eta.
    assert (a ≠ b) as Hab by congruence.
    split.
    + replace (<[a:=other]> (<[b:=mkVec 0 0 None]> σ))
        with (<[a:=other]> (<[b:=ctor_default]> (<[a:=ctor_default]> σ))).
      2:{ apply map_eq. intros c.
          repeat (rewrite lookup_insert; case_decide); done. }
      apply state_wf_swap.
      * apply lookup_insert_eq.
      * rewrite lookup_insert_ne by done. done.
      * apply (update_sound σ h a ctor_default ctor_default h Hst
                 (or_intror (conj Ha eq_refl))
                 (owned_step_refl _ _ (wf_ctor_default h))).
    + intros c vc [Hca Hcb]%not_elem_of_2 Hc.
      by rewrite !lookup_insert_ne.
  - (* Assign *)
    destruct (decide (a = b)) as [->|Hab].
    + rewrite operator_assign_self in Hex. injection Hex as <- <-. done.
    + unfold operator_assign in Hex.
      destruct (decide (a ≠ b)); [|done].
      destruct (σ !! a) as [t|] eqn:Ha; [|done].
      destruct (σ !! b) as [r|] eqn:Hb; [|done].
      assert (wf h t) as Hwt by (by eapply (proj1 Hst)).
      assert (wf h r) as Hwr by (by eapply (proj1 Hst)).
      pose proof (operator_assign_ok σ h a b t r Hab Ha Hb Hwt Hwr) as Heq.
      unfold operator_assign in Heq.
      destruct (decide (a ≠ b)); [|done]. rewrite Ha, Hb in Heq.
      rewrite Heq in Hex. injection Hex as <- <-.
      destruct (update_sound σ h a t _ _ Hst (or_introl Ha)
                  (assign_owned h t r Hwt Hwr)) as [? Hfr].
      split; [done|]. intros c vc Hc%not_elem_of_1. by apply Hfr.
  - (* AssignMove *)
    destruct (decide (a = b)) as [->|Hab].
    + rewrite operator_assign_self in Hex. injection Hex as <- <-. done.
    + unfold operator_assign in Hex.
      destruct (decide (a ≠ b)); [|done].
      destruct (σ !! a) as [t|] eqn:Ha; [|done].
      destruct (σ !! b) as [r|] eqn:Hb; [|done].
      assert (wf h t) as Hwt by (by eapply (proj1 Hst)).
      assert (wf h r) as Hwr by (by eapply (proj1 Hst)).
      pose proof (operator_assign_ok σ h a b t r Hab Ha Hb Hwt Hwr) as Heq.
      unfold operator_assign in Heq.
      destruct (decide (a ≠ b)); [|done]. rewrite Ha, Hb in Heq.
      rewrite Heq in Hex. injection Hex as <- <-.
      destruct (update_sound σ h a t _ _ Hst (or_introl Ha)
                  (assign_owned h t r Hwt Hwr)) as [? Hfr].
      split; [done|]. intros c vc Hc%not_elem_of_1. by apply Hfr.
  - (* CallClear *)
    eapply call_sound in Hex as [? Hfr]; [|..|done].
    + split; [done|]. intros b vb Hb%not_elem_of_1. by apply Hfr.
    + intros v v' h1 Hwf [= <- <-]. by apply Clear_owned.
  - (* CallResize *)
    eapply call_sound in Hex as [? Hfr]; [|..|done].
    + split; [done|]. intros b vb Hb%not_elem_of_1. by apply Hfr.
    + intros v v' h1 Hwf Hv. by eapply Resize_owned.
  - (* CallReserve *)
    eapply call_sound in Hex as [? Hfr]; [|..|done].
    + split; [done|]. intros b vb Hb%not_elem_of_1. by apply Hfr.
    + intros v v' h1 Hwf Hv. by eapply Reserve_owned.
  - (* CallPushBack *)
    apply exec_CallPushBack in Hex as (r & Hex).
    eapply call_sound in Hex as [? Hfr]; [|..|done].
    + split; [done|]. intros b vb Hb%not_elem_of_1. by apply Hfr.
    + intros v v' h1 Hwf Hv. by eapply PushBack_owned.
  - (* CallPopBack *)
    eapply call_sound in Hex as [? Hfr]; [|..|done].
    + split; [done|]. intros b vb Hb%not_elem_of_1. by apply Hfr.
    + intros v v' h1 Hwf Hv. by eapply PopBack_owned.
  - (* CallInsert *)
    apply exec_CallInsert in Hex as (r & Hex).
    eapply call_sound in Hex as [? Hfr]; [|..|done].
    + split; [done|]. intros b vb Hb%not_elem_of_1. by apply Hfr.
    + intros v v' h1 Hwf ([it v1] & Hv & ->)%fmap_inv.
      by eapply Insert_owned.
  - (* CallErase *)
    eapply call_sound in Hex as [? Hfr]; [|..|done].
    + split; [done|]. intros b vb Hb%not_elem_of_1. by apply Hfr.
    + intros v v' h1 Hwf ([it v1] & Hv & ->)%fmap_inv.
      by eapply Erase_owned.
  - (* CallSwap *)
    destruct (σ !! a) as [this|] eqn:Ha; [|done].
    destruct (σ !! b) as [other|] eqn:Hb; [|done].
    injection Hex as <- <-. unfold swap, ArrayPtr_swap. simpl.
    rewrite !SimpleVector_eta. split.
    + by apply state_wf_swap.
    + intros c vc [Hca Hcb]%not_elem_of_2 Hc.
      by rewrite !lookup_insert_ne.
  - (* SetItem *)
    eapply call_sound in Hex as [? Hfr]; [|..|done].
    + split; [done|]. intros b vb Hb%not_elem_of_1. by apply Hfr.
    + intros v v' h1 Hwf Hv. by eapply SetItem_owned.
  - (* Destroy *)
    destruct (σ !! a) as [v|] eqn:Ha; [|done].
    assert (wf h v) as Hwv by (by eapply (proj1 Hst)).
    unfold dtor in Hex. erewrite bind_val in Hex.
    2:{ apply ArrayPtr_delete_ok. intros l Hl.
        destruct (wf_lookup _ _ _ Hwv Hl) as [-> _]. done. }
    injection Hex as <- <-.
    assert (∀ b vb l, b ≠ a → σ !! b = Some vb → data_ vb = Some l →
                      hfree (data_ v) h !! l = h !! l) as Hkeep.
    { intros b vb l Hne Hb Hl. destruct (data_ v) as [lv|] eqn:Hlv; [|done].
      simpl. apply lookup_delete_ne. intros ->.
      by apply (proj2 Hst a b v vb l). }
    split; [split|].
    + intros b vb Hb. apply lookup_delete_Some in Hb as [Hne Hb].
      eapply wf_eq_lookup; [|by eapply (proj1 Hst)].
      intros l Hl. by eapply Hkeep.
    + intros b c vb vc l Hbc Hb Hc.
      apply lookup_delete_Some in Hb as [_ Hb].
      apply lookup_delete_Some in Hc as [_ Hc].
      by apply (proj2 Hst b c).
    + intros b vb Hne%not_elem_of_1 Hb. split.
      * by rewrite lookup_delete_ne.
      * apply block_eq_lookup. intros l Hl. by eapply Hkeep.
Qed.

(** ** The specified behaviour of the operations *)

Lemma elems_insert (h : heap T) l (front tl : list T) s c :
  length front = s →
  elems (<[l := front ++ tl]> h)
        {| size_ := s; capacity_ := c; data_ := Some l |} = front.
Proof.
  intros Hs. unfold elems. rewrite block_insert. simpl.
  by apply take_app_length'.
Qed.

Lemma PushBack_spec h v item x :
  wf h v → ref_value h item = Some x →
  size_ v < capacity_ v ∨ outside item v →
  ∃ v' h',
    PushBack item v h = Val v' h' ∧
    capacity_ v' = (if decide (size_ v = capacity_ v)
                    then (size_ v + 1) `max` (capacity_ v * 2)
                    else capacity_ v) ∧
    size_ v' = size_ v + 1 ∧
    block h' v' !! size_ v = Some x ∧
    elems h' v' = elems h v ++ [x] ∧
    wf h' v'.
Proof.
  intros Hwf Hx Hout. pose proof (proj1 Hwf) as Hsc.
  pose proof (wf_elems_length _ _ Hwf) as HE.
  destruct (decide (size_ v < capacity_ v)) as [Hlt|Hge].
  - destruct (wf_data_Some h v Hwf) as [l Hl]; [lia|].
    pose proof (PushBack_room _ _ l item x Hwf Hl Hlt Hx) as Heq.
    eexists _, _. split; [exact Heq|].
    destruct (decide (size_ v = capacity_ v)); [lia|].
    repeat split; simpl.
    + rewrite block_insert. by apply list_lookup_middle.
    + rewrite cons_middle, app_assoc.
      apply elems_insert. rewrite length_app. simpl. lia.
    + lia.
    + eexists. rewrite lookup_insert_eq. split; [done|]. len.
  - destruct Hout as [Hlt|Hout]; [lia|].
    pose proof (PushBack_full _ _ item x Hwf ltac:(lia)
                  (ref_value_hfree _ _ _ _ Hx Hout)) as Heq.
    simpl in Heq. eexists _, _. split; [exact Heq|].
    destruct (decide (size_ v = capacity_ v)); [|lia].
    repeat split; simpl.
    + rewrite block_insert. by apply list_lookup_middle.
    + rewrite cons_middle, app_assoc.
      apply elems_insert. rewrite length_app. simpl. lia.
    + lia.
    + eexists. rewrite lookup_insert_eq. split; [done|]. len.
Qed.







Lemma Insert_spec h v index value x :
  wf h v → index ≤ size_ v → ref_value h value = Some x →
  ∃ y v' h',
    ref_value (heap_at_read h v index) value = Some y ∧
    Insert (ptr_add (begin v) index) value v h
    = Val (ptr_add (begin v') index, v') h' ∧
    elems h' v'
    = take index (elems h v) ++ y :: drop index (elems h v) ∧
    size_ v' = size_ v + 1 ∧
    wf h' v' ∧
    (size_ v < capacity_ v →
     data_ v' = data_ v ∧ capacity_ v' = capacity_ v ∧
     drop (size_ v + 1) (block h' v') = drop (size_ v + 1) (block h v)).
Proof.
  intros Hwf Hidx Hx. pose proof (proj1 Hwf) as Hsc.
  pose proof (wf_elems_length _ _ Hwf) as HE.
  destruct (heap_at_read_valid h v index value x Hwf Hidx Hx) as [y Hy].
  exists y.
  assert (length (take index (elems h v) ++ y :: drop index (elems h v))
          = size_ v + 1) as Hlen by len.
  destruct (decide (size_ v < capacity_ v)) as [Hlt|Hge].
  - destruct (wf_data_Some h v Hwf) as [l Hl]; [lia|].
    pose proof (Insert_room _ _ l index value y Hwf Hl Hlt Hidx Hy) as Heq.
    eexists (mkVec (size_ v + 1) (capacity_ v) (Some l)), _.
    split; [done|]. split; [exact Heq|]. simpl.
    split; [|split; [done|split; [|intros _; split; [done|split; [done|]]]]].
    + rewrite app_comm_cons, app_assoc. by apply elems_insert.
    + split; simpl; [lia|]. eexists. rewrite lookup_insert_eq.
      split; [done|]. len.
    + rewrite block_insert, app_comm_cons, app_assoc.
      by apply drop_app_length'.
  - pose proof (Insert_full _ _ index value x y Hwf ltac:(lia) Hidx Hx Hy)
      as Heq.
    simpl in Heq.
    eexists (mkVec (size_ v + 1) _ (Some (fresh (dom h)))), _.
    split; [done|]. split; [exact Heq|]. simpl.
    split; [|split; [done|split; [|lia]]].
    + rewrite app_comm_cons, app_assoc. by apply elems_insert.
    + split; simpl; [lia|]. eexists. rewrite lookup_insert_eq.
      split; [done|]. len.
Qed.

(** The slots of the old block as [Insert] finds them when it reads its
    argument, against the slots at the call. *)
Lemma block_at_read_untouched h v index j :
  wf h v → index ≤ size_ v → size_ v < capacity_ v →
  j < index ∨ size_ v < j ∨ index = size_ v →
  block_at_read h v index !! j = block h v !! j.
Proof.
  intros Hwf Hidx Hlt Hj. pose proof (wf_elems_length _ _ Hwf) as HE.
  destruct (drop_size_cons _ _ Hwf Hlt) as [y Hy].
  assert (block h v !! size_ v = Some y) as Hsz
    by (by rewrite <-(Nat.add_0_r (size_ v)), <-lookup_drop, Hy).
  unfold block_at_read. destruct (decide (size_ v < capacity_ v)); [|lia].
  rewrite Hsz. simpl.
  assert (length (take index (elems h v)) = index) as Hpre by len.
  assert (length (drop index (elems h v)) = size_ v - index) as Hmid by len.
  destruct (decide (j < index)) as [Hji|Hji].
  - rewrite lookup_app_l by lia. rewrite lookup_take_lt by done.
    unfold elems. by rewrite lookup_take_lt by lia.
  - rewrite lookup_app_r by lia. rewrite Hpre.
    destruct (decide (j = size_ v)) as [->|Hjs].
    + assert (index = size_ v) as -> by lia.
      rewrite Nat.sub_diag, drop_ge by lia. simpl. by rewrite Hsz.
    + destruct (j - index) as [|k] eqn:Hk; [lia|]. simpl.
      rewrite lookup_app_r by lia. rewrite lookup_drop, Hmid.
      f_equal. lia.
Qed.



Lemma block_at_read_full h v index j :
  wf h v → index ≤ size_ v → capacity_ v ≤ size_ v →
  block_at_read h v index !! j
  = (if decide (j < index) then fmap moved_from else id) (block h v !! j).
Proof.
  intros Hwf Hidx Hge. pose proof (wf_elems_length _ _ Hwf) as HE.
  pose proof (wf_block_length _ _ Hwf) as HB. pose proof (proj1 Hwf).
  unfold block_at_read. destruct (decide (size_ v < capacity_ v)); [lia|].
  assert (length (take index (elems h v)) = index) as Hpre by len.
  assert (elems h v = block h v) as Hall.
  { unfold elems. apply take_ge. lia. }
  rewrite (drop_ge (block h v)) by lia. rewrite app_nil_r, Hall.
  destruct (decide (j < index)) as [Hji|Hji].
  - rewrite lookup_app_l by (rewrite length_fmap, <-Hall; lia).
    by rewrite list_lookup_fmap, lookup_take_lt.
  - rewrite lookup_app_r by (rewrite length_fmap, <-Hall; lia).
    rewrite length_fmap, <-Hall, Hpre, Hall, lookup_drop. simpl.
    f_equal. lia.
Qed.

Lemma elems_lookup_load h v index x :
  wf h v → elems h v !! index = Some x →
  load (ptr_add (begin v) index) h = Val x h.
Proof.
  intros Hwf Hx. pose proof (lookup_lt_Some _ _ _ Hx) as Hidx.
  rewrite wf_elems_length in Hidx by done.
  destruct (wf_data_Some h v Hwf) as [l Hl]; [destruct Hwf; lia|].
  destruct (wf_lookup _ _ _ Hwf Hl) as [Hb _].
  unfold begin, ArrayPtr_Get, ptr_add. simpl. rewrite Hl.
  eapply load_ok; [done|]. unfold elems in Hx.
  by rewrite lookup_take_lt in Hx.
Qed.













Lemma Erase_spec h v index :
  wf h v → index < size_ v →
  ∃ v' h',
    Erase (ptr_add (begin v) index) v h
    = Val (ptr_add (begin v') index, v') h' ∧
    elems h' v' = take index (elems h v) ++ drop (S index) (elems h v) ∧
    size_ v' = size_ v - 1 ∧ capacity_ v' = capacity_ v ∧
    data_ v' = data_ v ∧
    wf h' v'.
Proof.
  intros Hwf Hidx. pose proof (proj1 Hwf) as Hsc.
  pose proof (wf_elems_length _ _ Hwf) as HE.
  destruct (wf_data_Some h v Hwf) as [l Hl]; [lia|].
  destruct (lookup_lt_is_Some_2 (elems h v) index) as [y Hy]; [lia|].
  pose proof (Erase_ok _ _ l index y Hwf Hl Hy) as Heq.
  eexists (mkVec (size_ v - 1) (capacity_ v) (Some l)), _.
  split; [exact Heq|]. simpl.
  split; [|split; [done|split; [done|split; [done|]]]].
  - rewrite app_assoc. apply elems_insert. len.
  - split; simpl; [lia|]. eexists. rewrite lookup_insert_eq.
    split; [done|]. len.
Qed.

(** C5. [Erase] at offset [index] of [begin, end) moves the elements
    [index + 1, size) one slot to the left, keeps [0, index), decrements
    [size], keeps the capacity, and returns the position [index]: the slot
    of the element that followed the erased one, or the new end. *)
Theorem Erase_shifts_left h v index :
  wf h v → index < size_ v →
  ∃ it v' h',
    Erase (ptr_add (begin v) index) v h = Val (it, v') h' ∧
    elems h' v' = take index (elems h v) ++ drop (S index) (elems h v) ∧
    (∀ j, j < index → elems h' v' !! j = elems h v !! j) ∧
    (∀ j, index ≤ j → j < size_ v - 1 →
          elems h' v' !! j = elems h v !! (j + 1)) ∧
    size_ v' = size_ v - 1 ∧
    capacity_ v' = capacity_ v ∧
    it = ptr_add (begin v') index ∧
    (∀ x, elems h v !! (index + 1) = Some x → load it h' = Val x h') ∧
    (index + 1 = size_ v → it = end_ v') ∧
    wf h' v'.
Proof.
  intros Hwf Hidx. pose proof (wf_elems_length _ _ Hwf) as HE.
  destruct (Erase_spec h v index Hwf Hidx)
    as (v' & h' & Her & Hel & Hsize & Hcap & Hdata & Hwf').
  assert (length (take index (elems h v)) = index) as Htake
    by (rewrite length_take; lia).
  assert (∀ j, index ≤ j →
               elems h' v' !! j = elems h v !! (j + 1)) as Hshift.
  { intros j Hj. rewrite Hel, lookup_app_r by lia.
    rewrite lookup_drop, Htake. f_equal. lia. }
  exists (ptr_add (begin v') index), v', h'.
  split; [done|]. split; [done|]. split; [|split; [|split; [done|]]].
  - intros j Hj. rewrite Hel, lookup_app_l by lia.
    by apply lookup_take_lt.
  - intros j Hj _. by apply Hshift.
  - split; [done|]. split; [done|]. split; [|split; [|done]].
    + intros x Hx. apply elems_lookup_load; [done|].
      by rewrite Hshift.
    + intros Hlast. unfold end_, begin, ptr_add, ArrayPtr_Get. simpl.
      f_equal. lia.
Qed.


(** C7. [Resize(n)] has three cases: [n <= size] only lowers [size];
    [size < n <= capacity] keeps the block and fills slots [size, n) with
    the default value; [n > capacity] reallocates to exactly
    [max(n, capacity * 2)], keeps the old elements and leaves default
    values in [size, n). *)
Theorem Resize_three_cases h v n :
  wf h v →
  ∃ v' h',
    Resize n v h = Val v' h' ∧ size_ v' = n ∧ wf h' v' ∧
    (n ≤ size_ v →
     h' = h ∧ data_ v' = data_ v ∧ capacity_ v' = capacity_ v ∧
     elems h' v' = take n (elems h v)) ∧
    (size_ v < n → n ≤ capacity_ v →
     data_ v' = data_ v ∧ capacity_ v' = capacity_ v ∧
     elems h' v' = elems h v ++ replicate (n - size_ v) value_init) ∧
    (capacity_ v < n →
     capacity_ v' = n `max` (capacity_ v * 2) ∧
     elems h' v' = elems h v ++ replicate (n - size_ v) value_init).
Proof.
  intros Hwf. pose proof (proj1 Hwf) as Hsc.
  pose proof (wf_elems_length _ _ Hwf) as HE.
  destruct (decide (n ≤ size_ v)) as [Hle|Hgt].
  - eexists _, _. split; [by apply Resize_shrink|]. split; [done|].
    split; [|split; [|split; [lia|lia]]].
    + destruct Hwf as [? Hd]. split; simpl; [lia|done].
    + intros _. split; [done|]. split; [done|]. split; [done|].
      unfold elems, block. simpl. rewrite take_take. f_equal. lia.
  - destruct (decide (n ≤ capacity_ v)) as [Hle|Hgt'].
    + destruct (wf_data_Some h v Hwf) as [l Hl]; [lia|].
      eexists _, _. split; [by apply (Resize_room _ _ l); try lia|].
      split; [done|]. split; [|split; [lia|split; [|lia]]].
      * split; simpl; [lia|]. eexists. rewrite lookup_insert_eq.
        split; [done|]. len.
      * intros _ _. split; [done|]. split; [done|].
        rewrite app_assoc. apply elems_insert. len.
    + eexists _, _. split; [by apply Resize_grow; try lia|].
      split; [done|]. split; [|split; [lia|split; [lia|]]].
      * split; simpl; [lia|]. eexists. rewrite lookup_insert_eq.
        split; [done|]. len.
      * intros _. split; [done|].
        unfold elems at 1. rewrite block_insert. simpl.
        rewrite take_app_ge by lia. rewrite take_replicate. do 2 f_equal.
        lia.
Qed.

(** C2 (amended). [At(index)] with [index >= size] throws
    [std::out_of_range] with one fixed message, whatever the index; the
    exception reaches a handler and neither the vector nor the heap has
    changed.  With [index < size] it returns the slot holding the element
    at logical position [index]. *)
Theorem At_checked h v index :
  (index ≥ size_ v →
   At v index h = Exc (out_of_range "Выход за пределы массива") h ∧
   ∀ handler : exn → M T ptr,
     try_catch (At v index) handler h
     = handler (out_of_range "Выход за пределы массива") h) ∧
  (wf h v → index < size_ v →
   ∃ x, elems h v !! index = Some x ∧
        At v index h = Val (ptr_add (begin v) index) h ∧
        load (ptr_add (begin v) index) h = Val x h).
Proof.
  split.
  - intros Hge. unfold try_catch, At.
    destruct (decide (index ≥ size_ v)); [done|lia].
  - intros Hwf Hlt.
    destruct (lookup_lt_is_Some_2 (elems h v) index) as [x Hx].
    { by rewrite wf_elems_length. }
    exists x. split; [done|]. split; [|by apply elems_lookup_load].
    unfold At. destruct (decide (index ≥ size_ v)); [lia|done].
Qed.

(** C10. Self-assignment [v = v] is a no-op: the identity check returns
    before anything is copied, so every object and every block is as
    before. *)
Theorem self_assignment_is_identity σ h a :
  exec (Assign a a) σ h = Val σ h.
Proof. apply operator_assign_self. Qed.

Lemma elems_alloc (h : heap T) n (b : list T) :
  length b = n →
  elems (alloc_heap n b h)
        {| size_ := n; capacity_ := n; data_ := alloc_data n h |} = b.
Proof.
  intros Hb. unfold alloc_heap, alloc_data.
  destruct (decide (n = 0)) as [->|Hn].
  - by apply nil_length_inv in Hb as ->.
  - rewrite <-(app_nil_r b) at 1. by apply elems_insert.
Qed.

Lemma elems_eq_block h h' v : block h' v = block h v → elems h' v = elems h v.
Proof. unfold elems. by intros ->. Qed.

Lemma exec_all_sound cs : ∀ σ h σ' h',
  state_wf σ h → exec_all cs σ h = Val σ' h' →
  state_wf σ' h' ∧
  ∀ b vb, Forall (λ c, b ∉ modifies c) cs → σ !! b = Some vb →
          σ' !! b = Some vb ∧ block h' vb = block h vb.
Proof.
  induction cs as [|c cs IH]; intros σ h σ' h' Hst Hex.
  - injection Hex as <- <-. done.
  - simpl in Hex. apply bind_inv in Hex as (σ1 & h1 & Hc & Hcs).
    destruct (exec_sound _ _ _ _ _ Hst Hc) as [Hst1 Hfr1].
    destruct (IH _ _ _ _ Hst1 Hcs) as [Hst' Hfr].
    split; [done|]. intros b vb Hall Hb.
    apply Forall_cons in Hall as [Hc' Hall].
    destruct (Hfr1 b vb Hc' Hb) as [Hb1 Hblk1].
    destruct (Hfr b vb Hall Hb1) as [Hb' Hblk].
    split; [done|]. by rewrite Hblk.
Qed.

Lemma state_wf_empty : state_wf ∅ ∅.
Proof. split; intros *; by rewrite ?lookup_empty. Qed.

(** C9. Every command of a client program (each constructor, copy and
    move, assignment, [PushBack], [PopBack], [Insert], [Erase], [Resize],
    [Reserve], [Clear], [swap], element assignment, destruction) keeps the
    state invariant; so in every state a program reaches from nothing each
    vector has [size <= capacity], owns a live block of exactly [capacity]
    slots, and shows [size] elements. *)
Theorem operations_preserve_invariant :
  (∀ c σ h σ' h',
     state_wf σ h → exec c σ h = Val σ' h' → state_wf σ' h') ∧
  (∀ cs σ h a v,
     exec_all cs ∅ ∅ = Val σ h → σ !! a = Some v →
     size_ v ≤ capacity_ v ∧
     length (block h v) = capacity_ v ∧
     length (elems h v) = size_ v).
Proof.
  split.
  - intros c σ h σ' h' Hst Hex. by eapply exec_sound.
  - intros cs σ h a v Hex Ha.
    destruct (exec_all_sound cs _ _ _ _ state_wf_empty Hex) as [Hst _].
    assert (wf h v) as Hwf by (by eapply (proj1 Hst)).
    split; [by destruct Hwf|].
    split; [by apply wf_block_length|by apply wf_elems_length].
Qed.

(** C8. A copy-constructed vector compares equal to the original, has
    capacity equal to the original's size, and owns a block of its own: no
    sequence of operations on the copy changes the original's record (size,
    capacity) or its elements. *)
Theorem copy_is_deep σ h copy original vo :
  state_wf σ h → σ !! original = Some vo → σ !! copy = None →
  ∃ σ1 h1 vc,
    exec (DeclCopy copy original) σ h = Val σ1 h1 ∧
    σ1 !! copy = Some vc ∧ σ1 !! original = Some vo ∧
    eq_op vc vo h1 = Val true h1 ∧
    capacity_ vc = size_ vo ∧
    ∀ cs σ2 h2,
      Forall (λ c, modifies c = [copy]) cs →
      exec_all cs σ1 h1 = Val σ2 h2 →
      σ2 !! original = Some vo ∧ elems h2 vo = elems h vo.
Proof.
  intros Hst Ho Hc.
  assert (wf h vo) as Hwo by (by eapply (proj1 Hst)).
  assert (original ≠ copy) as Hne by congruence.
  assert (exec (DeclCopy copy original) σ h
          = Val (<[copy := {| size_ := size_ vo; capacity_ := size_ vo;
                              data_ := alloc_data (size_ vo) h |}]> σ)
                (alloc_heap (size_ vo) (elems h vo) h)) as Hex.
  { simpl. rewrite Ho. unfold declare. rewrite Hc.
    by rewrite (bind_val _ _ _ _ _ (ctor_copy_ok h vo Hwo)). }
  destruct (exec_sound _ _ _ _ _ Hst Hex) as [Hst1 Hfr1].
  destruct (Hfr1 original vo) as [Ho1 Hblk1]; [|done|].
  { simpl. intros Hin%list_elem_of_singleton. done. }
  eexists _, _, _. split; [exact Hex|].
  split; [apply lookup_insert_eq|]. split; [done|].
  split; [|split; [done|]].
  - rewrite eq_op_ok.
    + f_equal. apply bool_decide_eq_true.
      rewrite elems_alloc by (by apply wf_elems_length).
      symmetry. by apply elems_eq_block.
    + eapply (proj1 Hst1). apply lookup_insert_eq.
    + by eapply (proj1 Hst1).
  - intros cs σ2 h2 Hall Hcs.
    destruct (exec_all_sound cs _ _ _ _ Hst1 Hcs) as [_ Hfr].
    destruct (Hfr original vo) as [Ho2 Hblk2]; [|done|].
    { eapply Forall_impl; [exact Hall|]. simpl. intros c ->.
      intros Hin%list_elem_of_singleton. done. }
    split; [done|]. apply elems_eq_block. by rewrite Hblk2.
Qed.

(** C1 (amended). Move construction hands the buffer and the counters to
    the new object and leaves the source with size 0 and capacity 0.  The
    class has no move assignment: [moved = std::move(original)] on two
    objects runs the copy assignment, after which [moved] holds a copy of
    the original's elements with capacity equal to their number, and
    [original] keeps its size, its capacity and its elements. *)
Theorem move_construction_resets_assignment_copies σ h moved original vo :
  state_wf σ h → σ !! original = Some vo → moved ≠ original →
  (σ !! moved = None →
   ∃ σ' vo',
     exec (DeclMove moved original) σ h = Val σ' h ∧
     σ' !! moved = Some vo ∧
     σ' !! original = Some vo' ∧ size_ vo' = 0 ∧ capacity_ vo' = 0) ∧
  (∀ vm, σ !! moved = Some vm →
   ∃ σ' h' vm',
     exec (AssignMove moved original) σ h = Val σ' h' ∧
     σ' !! moved = Some vm' ∧
     elems h' vm' = elems h vo ∧
     capacity_ vm' = size_ vo ∧
     σ' !! original = Some vo ∧
     elems h' vo = elems h vo).
Proof.
  intros Hst Ho Hne. split.
  - intros Hm. eexists _, _. simpl. rewrite Hm, Ho.
    split; [done|]. unfold ctor_move, ArrayPtr_Release, ArrayPtr_from_raw.
    simpl. rewrite SimpleVector_eta. split; [apply lookup_insert_eq|].
    rewrite lookup_insert_ne, lookup_insert_eq by done. done.
  - intros vm Hm.
    assert (wf h vo) as Hwo by (by eapply (proj1 Hst)).
    assert (wf h vm) as Hwm by (by eapply (proj1 Hst)).
    pose proof (operator_assign_ok σ h moved original vm vo
                  Hne Hm Ho Hwm Hwo) as Hex.
    change (operator_assign moved original σ h)
      with (exec (AssignMove moved original) σ h) in Hex.
    destruct (exec_sound _ _ _ _ _ Hst Hex) as [Hst' Hfr].
    destruct (Hfr original vo) as [Ho' Hblk]; [|done|].
    { simpl. intros Hin%list_elem_of_singleton. done. }
    eexists _, _, _. split; [exact Hex|].
    split; [apply lookup_insert_eq|].
    split; [|split; [done|split; [done|by apply elems_eq_block]]].
    assert (wf (hfree (data_ vm)
                  (alloc_heap (size_ vo) (elems h vo) h))
               {| size_ := size_ vo; capacity_ := size_ vo;
                  data_ := alloc_data (size_ vo) h |}) as Hwf'.
    { eapply (proj1 Hst'). apply lookup_insert_eq. }
    rewrite <-(elems_alloc h (size_ vo) (elems h vo))
      by (by apply wf_elems_length).
    rewrite <-(elems_alloc h (size_ vo) (elems h vo)) at 2
      by (by apply wf_elems_length).
    apply elems_eq_block, block_eq_lookup. simpl. intros l Hl.
    destruct (data_ vm) as [lm|] eqn:Hlm; simpl; [|done].
    apply lookup_delete_ne. intros <-.
    unfold alloc_data in Hl. destruct (decide (size_ vo = 0)); [done|].
    injection Hl as <-. by apply (fresh_ne_data h vm (fresh (dom h))).
Qed.

(** * Further properties of the class *)

(** ** Constructors *)

Lemma alloc_heap_frame (h : heap T) n (b x : list T) l :
  h !! l = Some x → alloc_heap n b h !! l = Some x.
Proof.
  intros Hl. unfold alloc_heap. destruct (decide (n = 0)); [done|].
  rewrite lookup_insert_ne; [done|]. intros <-.
  by rewrite fresh_loc_None in Hl.
Qed.

Lemma wf_alloc (h : heap T) n (b : list T) s :
  length b = n → s ≤ n →
  wf (alloc_heap n b h) {| size_ := s; capacity_ := n; data_ := alloc_data n h |}.
Proof. intros Hb Hs. by apply (owned_step_alloc h n b s). Qed.

(** The sized constructors build exactly [size] slots, all holding the
    given value (the default value for the one-argument form), with no
    spare capacity, and touch no block that was live before. *)
Theorem sized_constructor_fills h n value :
  ∃ v h',
    ctor_fill n value h = Val v h' ∧
    size_ v = n ∧ capacity_ v = n ∧
    elems h' v = replicate n value ∧
    wf h' v ∧
    (∀ l b, h !! l = Some b → h' !! l = Some b) ∧
    ctor_size n h = ctor_fill n value_init h.
Proof.
  eexists _, _. split; [apply ctor_fill_ok|]. simpl.
  split; [done|]. split; [done|]. split.
  - apply elems_alloc, length_replicate.
  - split; [apply wf_alloc; [apply length_replicate|lia]|].
    split; [|done]. intros l b. apply alloc_heap_frame.
Qed.

(** The initializer-list constructor yields the listed elements in order,
    with size and capacity equal to their number. *)
Theorem initializer_list_constructor_copies h init :
  ∃ v h',
    ctor_init init h = Val v h' ∧
    size_ v = length init ∧ capacity_ v = length init ∧
    elems h' v = init ∧
    wf h' v ∧
    (∀ l b, h !! l = Some b → h' !! l = Some b).
Proof.
  eexists _, _. split; [apply ctor_init_ok|]. simpl.
  split; [done|]. split; [done|]. split; [by apply elems_alloc|].
  split; [by apply wf_alloc|]. intros l b. apply alloc_heap_frame.
Qed.

(** ** Pushing within the capacity *)

Lemma push_all_room items : ∀ h v,
  wf h v → size_ v + length items ≤ capacity_ v →
  ∃ v' h',
    push_all items v h = Val v' h' ∧ wf h' v' ∧
    data_ v' = data_ v ∧ capacity_ v' = capacity_ v ∧
    size_ v' = size_ v + length items ∧
    elems h' v' = elems h v ++ items ∧
    (∀ l, data_ v ≠ Some l → h' !! l = h !! l).
Proof.
  induction items as [|item items IH]; intros h v Hwf Hroom.
  - exists v, h. simpl. rewrite app_nil_r.
    split; [done|]. split; [done|]. split; [done|]. split; [done|].
    split; [lia|done].
  - simpl in Hroom.
    destruct (wf_data_Some h v Hwf) as [l Hl]; [lia|].
    destruct (PushBack_spec h v (Local item) item Hwf eq_refl (or_intror I))
      as (v1 & h1 & Hpush & _ & Hsize & _ & Hel & Hwf1).
    pose proof Hpush as Heq.
    rewrite (PushBack_room _ _ l _ item) in Heq by (done || lia).
    injection Heq as Hv1 Hh1.
    assert (data_ v1 = data_ v ∧ capacity_ v1 = capacity_ v) as [Hd1 Hc1].
    { rewrite <-Hv1. simpl. by rewrite Hl. }
    destruct (IH h1 v1 Hwf1) as (v' & h' & Hall & Hwf' & Hd & Hc & Hs & He & Hfr).
    { rewrite Hsize, Hc1. lia. }
    exists v', h'. simpl push_all. rewrite (bind_val _ _ _ _ _ Hpush).
    split; [done|]. split; [done|]. split; [congruence|].
    split; [congruence|]. split; [rewrite Hs, Hsize; simpl; lia|].
    split; [by rewrite He, Hel, <-app_assoc|].
    intros l' Hne. rewrite Hfr by congruence.
    rewrite <-Hh1. apply lookup_insert_ne. congruence.
Qed.

(** While the items fit into the capacity, [PushBack] never reallocates:
    the buffer and the capacity stay, the old elements keep their slots and
    the new ones follow them, and no other block changes. *)
Theorem pushes_within_capacity_keep_buffer h v items :
  wf h v → size_ v + length items ≤ capacity_ v →
  ∃ v' h',
    push_all items v h = Val v' h' ∧
    data_ v' = data_ v ∧ capacity_ v' = capacity_ v ∧
    size_ v' = size_ v + length items ∧
    elems h' v' = elems h v ++ items ∧
    (∀ l, data_ v ≠ Some l → h' !! l = h !! l).
Proof.
  intros Hwf Hroom.
  destruct (push_all_room items h v Hwf Hroom)
    as (v' & h' & Hall & _ & Hd & Hc & Hs & He & Hfr).
  by exists v', h'.
Qed.

(** A vector constructed from [Reserve(n)] is empty with capacity [n], and
    takes up to [n] pushes in the block it was built with. *)
Theorem reserved_vector_takes_pushes h n items :
  length items ≤ n →
  ∃ v0 h0 v' h',
    ctor_reserve (Reserve_proxy n) h = Val v0 h0 ∧
    size_ v0 = 0 ∧ capacity_ v0 = n ∧ elems h0 v0 = [] ∧
    push_all items v0 h0 = Val v' h' ∧
    data_ v' = data_ v0 ∧ capacity_ v' = n ∧ elems h' v' = items.
Proof.
  intros Hn.
  assert (wf (alloc_heap n (replicate n value_init) h)
             {| size_ := 0; capacity_ := n; data_ := alloc_data n h |}) as Hwf.
  { apply wf_alloc; [apply length_replicate|lia]. }
  destruct (push_all_room items _ _ Hwf)
    as (v' & h' & Hall & _ & Hd & Hc & _ & He & _); [simpl; lia|].
  eexists _, _, v', h'. split; [apply ctor_reserve_ok|]. simpl.
  split; [done|]. split; [done|]. split; [done|]. split; [done|].
  split; [done|]. split; [done|]. by rewrite He.
Qed.

(** [Clear] empties the vector and keeps its buffer: refilling it with up
    to [capacity] items happens in the same block. *)
Theorem Clear_keeps_buffer h v items :
  wf h v → length items ≤ capacity_ v →
  elems h (Clear v) = [] ∧ IsEmpty (Clear v) = true ∧
  capacity_ (Clear v) = capacity_ v ∧
  ∃ v' h',
    push_all items (Clear v) h = Val v' h' ∧
    data_ v' = data_ v ∧ capacity_ v' = capacity_ v ∧
    elems h' v' = items.
Proof.
  intros Hwf Hn. split; [done|]. split; [done|]. split; [done|].
  assert (wf h (Clear v)) as Hwc.
  { destruct Hwf as [? Hd]. split; simpl; [lia|done]. }
  destruct (push_all_room items h (Clear v) Hwc)
    as (v' & h' & Hall & _ & Hd & Hc & _ & He & _); [simpl; lia|].
  exists v', h'. split; [done|]. split; [done|]. split; [done|].
  by rewrite He.
Qed.

(** ** Reserve *)

(** [Reserve(n)] makes the capacity [max(capacity, n)]: it reallocates to
    exactly [n] slots when [n] exceeds the capacity and is a no-op
    otherwise; size and elements are kept either way. *)
Theorem Reserve_never_shrinks h v n :
  wf h v →
  ∃ v' h',
    Reserve n v h = Val v' h' ∧
    capacity_ v' = capacity_ v `max` n ∧
    size_ v' = size_ v ∧
    elems h' v' = elems h v ∧
    wf h' v' ∧
    (n ≤ capacity_ v → v' = v ∧ h' = h).
Proof.
  intros Hwf. pose proof (proj1 Hwf) as Hsc.
  destruct (decide (n ≤ capacity_ v)) as [Hle|Hgt].
  - exists v, h. split; [by apply Reserve_keep|].
    split; [lia|]. done.
  - eexists _, _. split; [apply Reserve_grow; [done|lia]|]. simpl.
    split; [lia|]. split; [done|]. split.
    + apply elems_insert. by apply wf_elems_length.
    + split; [|lia]. split; simpl; [lia|]. eexists.
      rewrite lookup_insert_eq. split; [done|].
      rewrite length_app, length_replicate, wf_elems_length by done. lia.
Qed.

(** ** PopBack and unchecked access *)

(** [PopBack] on an empty vector fails its assertion; otherwise it drops
    the last element and nothing else: capacity, buffer and heap stay. *)
Theorem PopBack_drops_last h v :
  (size_ v = 0 → PopBack v h = Undef) ∧
  (wf h v → 0 < size_ v →
   ∃ v' x,
     PopBack v h = Val v' h ∧
     size_ v' = size_ v - 1 ∧ capacity_ v' = capacity_ v ∧
     data_ v' = data_ v ∧
     elems h v = elems h v' ++ [x]).
Proof.
  split.
  - intros Hz. unfold PopBack, assert.
    rewrite bool_decide_eq_false_2 by lia. done.
  - intros Hwf Hpos. pose proof (wf_elems_length _ _ Hwf) as HE.
    destruct (lookup_lt_is_Some_2 (elems h v) (size_ v - 1)) as [x Hx];
      [lia|].
    eexists _, x. split; [by apply PopBack_ok|]. simpl.
    split; [done|]. split; [done|]. split; [done|].
    unfold elems at 2. unfold block. simpl. fold (block h v).
    replace (take (size_ v - 1) (block h v))
      with (take (size_ v - 1) (elems h v))
      by (unfold elems; rewrite take_take; f_equal; lia).
    rewrite <-(take_S_r _ _ _ Hx).
    rewrite take_ge; [done|]. lia.
Qed.

(** [PushBack] followed by [PopBack] gives back the logical sequence and
    the size; the capacity is the one the push left.  The pushed item is
    any valid reference that the push can read: with room any, without room
    one outside the vector's own buffer. *)
Theorem PushBack_then_PopBack h v item x :
  wf h v → ref_value h item = Some x →
  size_ v < capacity_ v ∨ outside item v →
  ∃ v1 h1 v2,
    PushBack item v h = Val v1 h1 ∧
    PopBack v1 h1 = Val v2 h1 ∧
    elems h1 v2 = elems h v ∧
    size_ v2 = size_ v ∧ capacity_ v2 = capacity_ v1.
Proof.
  intros Hwf Hx Hout. pose proof (wf_elems_length _ _ Hwf) as HE.
  destruct (PushBack_spec h v item x Hwf Hx Hout)
    as (v1 & h1 & Hpush & _ & Hsize & _ & Hel & Hwf1).
  eexists v1, h1, _. split; [done|].
  split; [apply PopBack_ok; lia|]. simpl.
  split; [|split; [lia|done]].
  unfold elems at 1. unfold block. simpl. fold (block h1 v1).
  replace (take (size_ v1 - 1) (block h1 v1))
    with (take (size_ v1 - 1) (elems h1 v1))
    by (unfold elems; rewrite take_take; f_equal; lia).
  rewrite Hel. apply take_app_length'. lia.
Qed.

(** [operator[]] within the size returns the same reference as [At], the
    slot of the element at that position.  Outside it fails its assertion:
    nothing is thrown, so no handler can recover. *)
Theorem subscript_unchecked h v index :
  (wf h v → index < size_ v →
   ∃ x, elems h v !! index = Some x ∧
        subscript v index h = Val (ptr_add (begin v) index) h ∧
        At v index h = subscript v index h ∧
        load (ptr_add (begin v) index) h = Val x h) ∧
  (size_ v ≤ index →
   subscript v index h = Undef ∧
   ∀ handler : exn → M T ptr,
     try_catch (subscript v index) handler h = Undef).
Proof.
  split.
  - intros Hwf Hlt.
    destruct (lookup_lt_is_Some_2 (elems h v) index) as [x Hx].
    { by rewrite wf_elems_length. }
    assert (subscript v index h = Val (ptr_add (begin v) index) h) as Hsub.
    { unfold subscript, assert. rewrite bool_decide_eq_true_2 by done.
      done. }
    exists x. split; [done|]. split; [done|].
    split; [|by apply elems_lookup_load].
    rewrite Hsub. unfold At.
    destruct (decide (index ≥ size_ v)); [lia|done].
  - intros Hge.
    assert (subscript v index h = Undef) as Hsub.
    { unfold subscript, assert. rewrite bool_decide_eq_false_2 by lia.
      done. }
    split; [done|]. intros handler. unfold try_catch. by rewrite Hsub.
Qed.

(** Assigning through [operator[]] replaces the element at that position
    and nothing else: the other elements, the spare slots, the counters and
    every other block stay. *)
Theorem subscript_write h v index value :
  wf h v → index < size_ v →
  ∃ p h',
    subscript v index h = Val p h ∧
    store p value h = Val tt h' ∧
    elems h' v = <[index := value]> (elems h v) ∧
    drop (size_ v) (block h' v) = drop (size_ v) (block h v) ∧
    wf h' v ∧
    (∀ l, data_ v ≠ Some l → h' !! l = h !! l).
Proof.
  intros Hwf Hlt. pose proof (proj1 Hwf) as Hsc.
  destruct (wf_data_Some h v Hwf) as [l Hl]; [lia|].
  destruct (wf_lookup _ _ _ Hwf Hl) as [Hb Hlen].
  assert (block (<[l := <[index := value]> (block h v)]> h) v
          = <[index := value]> (block h v)) as Hblk.
  { unfold block at 1. by rewrite Hl, lookup_insert_eq. }
  eexists (Some l, index), _. split.
  { unfold subscript, assert, ArrayPtr_index.
    rewrite bool_decide_eq_true_2 by done. by rewrite Hl. }
  split; [eapply store_ok; [done|lia]|].
  split; [unfold elems; rewrite Hblk; by apply take_insert_lt|].
  split; [rewrite Hblk; by apply drop_insert_lt|].
  split.
  - split; [done|]. rewrite Hl. eexists. rewrite lookup_insert_eq.
    split; [done|]. by rewrite length_insert.
  - intros l' Hne. apply lookup_insert_ne. congruence.
Qed.

(** ** Observers and iteration *)

(** The size and emptiness queries describe the logical sequence, and the
    capacity query the owned block. *)
Theorem observers_agree h v :
  wf h v →
  GetSize v = length (elems h v) ∧
  GetCapacity v = length (block h v) ∧
  GetSize v ≤ GetCapacity v ∧
  (IsEmpty v = true ↔ elems h v = []).
Proof.
  intros Hwf. pose proof (wf_elems_length _ _ Hwf) as HE.
  pose proof (wf_block_length _ _ Hwf) as HB.
  unfold GetSize, GetCapacity, IsEmpty.
  split; [done|]. split; [done|]. split; [by destruct Hwf|].
  rewrite bool_decide_eq_true. split.
  - intros Hz. apply nil_length_inv. lia.
  - intros Hnil. rewrite Hnil in HE. simpl in HE. lia.
Qed.

Lemma collect_n_ok n : ∀ h l (pre mid post : list T),
  h !! l = Some (pre ++ mid ++ post) → length mid = n →
  collect_n (Some l, length pre) n h = Val mid h.
Proof.
  induction n as [|n IH]; intros h l pre mid post Hl Hn.
  - by destruct mid.
  - destruct mid as [|x mid]; [done|]. simpl in Hn. simpl collect_n.
    change ((x :: mid) ++ post) with (x :: mid ++ post) in Hl.
    erewrite bind_val; [|eapply load_ok; [done|]; by apply list_lookup_middle].
    replace (ptr_add (Some l, length pre) 1)
      with (Some l, length (pre ++ [x]))
      by (unfold ptr_add; simpl; by rewrite length_app).
    erewrite bind_val;
      [done|apply (IH _ l (pre ++ [x]) mid post); [|lia]].
    by rewrite <-app_assoc.
Qed.

(** Walking from [begin()] to [end()] (or [cbegin()] to [cend()]) reads
    exactly the logical sequence, in order, and changes nothing. *)
Theorem traversal_reads_sequence h v :
  wf h v →
  collect (begin v) (end_ v) h = Val (elems h v) h ∧
  collect (cbegin v) (cend v) h = Val (elems h v) h ∧
  (end_ v).2 - (begin v).2 = size_ v.
Proof.
  intros Hwf. pose proof (wf_elems_length _ _ Hwf) as HE.
  assert (collect (begin v) (end_ v) h = Val (elems h v) h) as Hc.
  { unfold collect, begin, end_, ArrayPtr_Get, ptr_add. simpl.
    rewrite Nat.sub_0_r.
    destruct (decide (size_ v = 0)) as [Hz|Hz].
    - rewrite (nil_length_inv (elems h v)) by lia. by rewrite Hz.
    - destruct (wf_data_Some h v Hwf) as [l Hl]; [destruct Hwf; lia|].
      destruct (wf_lookup _ _ _ Hwf Hl) as [Hb _]. rewrite Hl.
      apply (collect_n_ok _ _ l [] (elems h v)
               (drop (size_ v) (block h v))); [|done].
      simpl. by rewrite <-block_split. }
  split; [done|]. split; [done|].
  unfold begin, end_, ArrayPtr_Get, ptr_add. simpl. lia.
Qed.

(** ** swap *)

(** [swap] exchanges the two vectors (counters and buffers) without
    touching the heap, leaves every other object alone, and undoes itself
    when applied twice. *)
Theorem swap_exchanges σ h a b va vb :
  σ !! a = Some va → σ !! b = Some vb →
  ∃ σ',
    exec (CallSwap a b) σ h = Val σ' h ∧
    σ' !! a = Some vb ∧ σ' !! b = Some va ∧
    (∀ c, c ≠ a → c ≠ b → σ' !! c = σ !! c) ∧
    exec (CallSwap a b) σ' h = Val σ h.
Proof.
  intros Ha Hb.
  assert (<[a := vb]> (<[b := va]> σ) !! a = Some vb) as Ha'
    by apply lookup_insert_eq.
  assert (<[a := vb]> (<[b := va]> σ) !! b = Some va) as Hb'.
  { rewrite lookup_insert. case_decide; [congruence|].
    apply lookup_insert_eq. }
  exists (<[a := vb]> (<[b := va]> σ)).
  split.
  { simpl. rewrite Ha, Hb. unfold swap, ArrayPtr_swap. simpl.
    by rewrite !SimpleVector_eta. }
  split; [done|]. split; [done|]. split.
  - intros c Hca Hcb. by rewrite !lookup_insert_ne.
  - simpl. rewrite Ha', Hb'. unfold swap, ArrayPtr_swap. simpl.
    rewrite !SimpleVector_eta. unfold mret, M_ret, ret.
    f_equal. apply map_eq. intros c.
    repeat (rewrite lookup_insert; case_decide); congruence.
Qed.

(** ** Comparison operators *)

(** [==] holds exactly when the two logical sequences are equal, whatever
    the capacities and spare slots are; [!=] is its negation. *)
Theorem equality_compares_sequences h lhs rhs :
  wf h lhs → wf h rhs →
  eq_op lhs rhs h = Val (bool_decide (elems h lhs = elems h rhs)) h ∧
  ne_op lhs rhs h = Val (negb (bool_decide (elems h lhs = elems h rhs))) h.
Proof.
  intros Hl Hr. pose proof (eq_op_ok h lhs rhs Hl Hr) as Heq.
  split; [done|]. unfold ne_op. by apply (fmap_val negb).
Qed.

Lemma lex_lt_nil_r (xs : list T) : lex_lt xs [] = false.
Proof. by destruct xs. Qed.

Lemma lexicographical_compare_n_0_l (p1 p2 : ptr) n2 (h : heap T) (m2 : list T) :
  length m2 = n2 →
  lexicographical_compare_n p1 0 p2 n2 h = Val (lex_lt [] m2) h.
Proof. intros <-. by destruct m2. Qed.

Lemma lexicographical_compare_n_0_r (p1 p2 : ptr) n1 (h : heap T) (m1 : list T) :
  lexicographical_compare_n p1 n1 p2 0 h = Val (lex_lt m1 []) h.
Proof. rewrite lex_lt_nil_r. by destruct n1. Qed.

Lemma lexicographical_compare_n_ok (m1 : list T) :
  ∀ (m2 : list T) h l1 l2 (p1 q1 p2 q2 : list T),
  h !! l1 = Some (p1 ++ m1 ++ q1) → h !! l2 = Some (p2 ++ m2 ++ q2) →
  lexicographical_compare_n (Some l1, length p1) (length m1)
                            (Some l2, length p2) (length m2) h
  = Val (lex_lt m1 m2) h.
Proof.
  induction m1 as [|x m1 IH]; intros m2 h l1 l2 p1 q1 p2 q2 H1 H2.
  - by apply lexicographical_compare_n_0_l.
  - destruct m2 as [|y m2]; [done|].
    change ((x :: m1) ++ q1) with (x :: m1 ++ q1) in H1.
    change ((y :: m2) ++ q2) with (y :: m2 ++ q2) in H2.
    simpl length. simpl lexicographical_compare_n. simpl lex_lt.
    erewrite bind_val; [|eapply load_ok; [done|]; by apply list_lookup_middle].
    erewrite bind_val; [|eapply load_ok; [done|]; by apply list_lookup_middle].
    destruct (Type_lt x y); [done|]. destruct (Type_lt y x); [done|].
    replace (ptr_add (Some l1, length p1) 1)
      with (Some l1, length (p1 ++ [x]))
      by (unfold ptr_add; simpl; by rewrite length_app).
    replace (ptr_add (Some l2, length p2) 1)
      with (Some l2, length (p2 ++ [y]))
      by (unfold ptr_add; simpl; by rewrite length_app).
    apply (IH m2 h l1 l2 (p1 ++ [x]) q1 (p2 ++ [y]) q2);
      by rewrite <-app_assoc.
Qed.

Lemma lt_op_ok h lhs rhs :
  wf h lhs → wf h rhs →
  lt_op lhs rhs h = Val (lex_lt (elems h lhs) (elems h rhs)) h.
Proof.
  intros Hl Hr.
  pose proof (wf_elems_length _ _ Hl) as Hnl.
  pose proof (wf_elems_length _ _ Hr) as Hnr.
  unfold lt_op, lexicographical_compare, cbegin, cend, ArrayPtr_Get, ptr_add.
  simpl. rewrite !Nat.sub_0_r.
  destruct (decide (size_ lhs = 0)) as [Hzl|Hzl].
  { rewrite Hzl, (nil_length_inv (elems h lhs)) by lia.
    by apply lexicographical_compare_n_0_l. }
  destruct (decide (size_ rhs = 0)) as [Hzr|Hzr].
  { rewrite Hzr, (nil_length_inv (elems h rhs)) by lia.
    apply lexicographical_compare_n_0_r. }
  destruct (wf_data_Some h lhs Hl) as [l1 Hl1]; [destruct Hl; lia|].
  destruct (wf_data_Some h rhs Hr) as [l2 Hl2]; [destruct Hr; lia|].
  rewrite Hl1, Hl2, <-Hnl, <-Hnr.
  apply (lexicographical_compare_n_ok _ _ _ l1 l2
           [] (drop (size_ lhs) (block h lhs))
           [] (drop (size_ rhs) (block h rhs))); simpl.
  - rewrite <-block_split. by apply wf_lookup.
  - rewrite <-block_split. by apply wf_lookup.
Qed.

Lemma lex_lt_prefix (xs ys : list T) y : lex_lt xs (xs ++ y :: ys) = true.
Proof.
  induction xs as [|x xs IH]; [done|]. simpl.
  destruct (Type_lt x x); done.
Qed.

(** The four ordering operators follow the lexicographic order of the
    logical sequences under the element's [<]: [>] is [<] with the sides
    exchanged, [<=] and [>=] are the negations of [>] and [<]; and a
    sequence that is a proper prefix of another is less than it. *)
Theorem ordering_is_lexicographic h lhs rhs :
  wf h lhs → wf h rhs →
  lt_op lhs rhs h = Val (lex_lt (elems h lhs) (elems h rhs)) h ∧
  gt_op lhs rhs h = Val (lex_lt (elems h rhs) (elems h lhs)) h ∧
  le_op lhs rhs h = Val (negb (lex_lt (elems h rhs) (elems h lhs))) h ∧
  ge_op lhs rhs h = Val (negb (lex_lt (elems h lhs) (elems h rhs))) h ∧
  (∀ y ys, elems h rhs = elems h lhs ++ y :: ys →
           lt_op lhs rhs h = Val true h).
Proof.
  intros Hl Hr.
  pose proof (lt_op_ok h lhs rhs Hl Hr) as Hlt.
  pose proof (lt_op_ok h rhs lhs Hr Hl) as Hgt.
  split; [done|]. split; [done|].
  split; [by apply (fmap_val negb)|].
  split; [by apply (fmap_val negb)|].
  intros y ys Hpre. by rewrite Hlt, Hpre, lex_lt_prefix.
Qed.

Lemma lex_lt_trichotomy :
  (∀ x y, Type_lt x y = true → Type_lt y x = false) →
  (∀ x y, Type_lt x y = false → Type_lt y x = false → x = y) →
  ∀ xs ys : list T,
    (lex_lt xs ys = true ∧ xs ≠ ys ∧ lex_lt ys xs = false) ∨
    (lex_lt xs ys = false ∧ xs = ys ∧ lex_lt ys xs = false) ∨
    (lex_lt xs ys = false ∧ xs ≠ ys ∧ lex_lt ys xs = true).
Proof.
  intros Hasym Htot. induction xs as [|x xs IH]; intros [|y ys]; simpl.
  - right. by left.
  - by left.
  - right. by right.
  - destruct (Type_lt x y) eqn:Hxy.
    + rewrite (Hasym _ _ Hxy). left. split; [done|]. split; [|done].
      intros [= -> _]. by rewrite (Hasym _ _ Hxy) in Hxy.
    + destruct (Type_lt y x) eqn:Hyx.
      * right. right. split; [done|]. split; [|done].
        intros [= -> _]. by rewrite Hxy in Hyx.
      * rewrite (Htot _ _ Hxy Hyx).
        destruct (IH ys) as [(? & ? & ?)|[(? & ? & ?)|(? & ? & ?)]].
        -- left. split; [done|]. split; [congruence|done].
        -- right. left. split; [done|]. split; [congruence|done].
        -- right. right. split; [done|]. split; [congruence|done].
Qed.

(** When the element's [<] is a strict total order, exactly one of
    [a < b], [a == b], [a > b] holds, [a <= b] is [a < b || a == b] and
    [a >= b] is [a > b || a == b]. *)
Theorem ordering_is_total h lhs rhs :
  (∀ x y, Type_lt x y = true → Type_lt y x = false) →
  (∀ x y, Type_lt x y = false → Type_lt y x = false → x = y) →
  wf h lhs → wf h rhs →
  ∃ lt eq gt : bool,
    lt_op lhs rhs h = Val lt h ∧ eq_op lhs rhs h = Val eq h ∧
    gt_op lhs rhs h = Val gt h ∧
    le_op lhs rhs h = Val (lt || eq) h ∧
    ge_op lhs rhs h = Val (gt || eq) h ∧
    ((lt, eq, gt) = (true, false, false) ∨
     (lt, eq, gt) = (false, true, false) ∨
     (lt, eq, gt) = (false, false, true)).
Proof.
  intros Hasym Htot Hl Hr.
  pose proof (lt_op_ok h lhs rhs Hl Hr) as Hlt.
  pose proof (lt_op_ok h rhs lhs Hr Hl) as Hgt.
  pose proof (eq_op_ok h lhs rhs Hl Hr) as Heq.
  exists (lex_lt (elems h lhs) (elems h rhs)),
    (bool_decide (elems h lhs = elems h rhs)),
    (lex_lt (elems h rhs) (elems h lhs)).
  split; [done|]. split; [done|]. split; [done|].
  unfold le_op, ge_op.
  rewrite (fmap_val negb _ _ _ _ Hlt), (fmap_val negb _ _ _ _ Hgt).
  destruct (lex_lt_trichotomy Hasym Htot (elems h lhs) (elems h rhs))
    as [(-> & Hne & ->)|[(-> & He & ->)|(-> & Hne & ->)]].
  - rewrite (bool_decide_eq_false_2 _ Hne). split; [done|]. split; [done|].
    by left.
  - rewrite (bool_decide_eq_true_2 _ He). split; [done|]. split; [done|].
    right. by left.
  - rewrite (bool_decide_eq_false_2 _ Hne). split; [done|]. split; [done|].
    right. by right.
Qed.

(** ** How the mutators compose *)

(** Nothing has been shifted when [Insert] at [end()] with headroom reads
    its argument. *)
Lemma heap_at_read_end h v r :
  wf h v → size_ v < capacity_ v →
  ref_value (heap_at_read h v (size_ v)) r = ref_value h r.
Proof.
  intros Hwf Hlt. destruct r as [x|[q i]]; [done|].
  destruct (decide (q = data_ v)) as [->|Hne].
  - change (data_ v, i) with (ptr_add (begin v) i).
    rewrite (ref_value_own h).
    destruct (wf_data_Some h v Hwf) as [l Hl]; [lia|].
    rewrite heap_at_read_own by (done || congruence).
    apply block_at_read_untouched; [done|lia|done|lia].
  - by apply heap_at_read_outside.
Qed.

(** [Insert] at [end()] is [PushBack] whenever both read the argument from
    the same slots: with headroom, or for an argument outside the vector's
    own buffer.  Then they give the same vector, the same heap, and the
    returned iterator designates the pushed element.  A full vector that is
    handed a reference to one of its own slots tells them apart: [Insert]
    reads it while the old block is live, after the elements have been moved
    out of it, [PushBack] after the block has been released. *)
Theorem Insert_at_end_is_PushBack h v item x :
  wf h v → ref_value h item = Some x →
  (size_ v < capacity_ v ∨ outside item v →
   ∃ v' h',
     PushBack item v h = Val v' h' ∧
     Insert (end_ v) item v h = Val (ptr_add (begin v') (size_ v), v') h') ∧
  (capacity_ v ≤ size_ v → ¬ outside item v →
   PushBack item v h = Undef ∧
   ∃ it v' h',
     Insert (end_ v) item v h = Val (it, v') h' ∧
     elems h' v' = elems h v ++ [moved_from x]).
Proof.
  intros Hwf Hx. pose proof (proj1 Hwf) as Hsc.
  pose proof (wf_elems_length _ _ Hwf) as HE.
  change (end_ v) with (ptr_add (begin v) (size_ v)).
  split.
  - intros Hout.
    destruct (decide (size_ v < capacity_ v)) as [Hlt|Hge].
    + destruct (wf_data_Some h v Hwf) as [l Hl]; [lia|].
      eexists _, _. split; [by apply (PushBack_room _ _ l _ x)|].
      rewrite (Insert_room _ _ l _ _ x);
        [|done|done|done|lia|by rewrite heap_at_read_end].
      rewrite take_ge, drop_ge by lia. done.
    + destruct Hout as [Hlt|Hout]; [lia|].
      eexists _, _.
      split; [apply (PushBack_full _ _ _ x);
              [done|lia|by apply ref_value_hfree]|].
      rewrite (Insert_full _ _ _ _ x x);
        [|done|lia|lia|done|by rewrite heap_at_read_outside].
      rewrite take_ge, drop_ge by lia. done.
  - intros Hfull Hown. destruct item as [z|[q j]]; [by destruct Hown|].
    simpl in Hown. destruct (decide (q = data_ v)) as [->|Hne]; [|done].
    split; [by apply PushBack_full_own|].
    change (data_ v, j) with (ptr_add (begin v) j) in *.
    destruct (Insert_spec h v (size_ v) _ x Hwf ltac:(lia) Hx)
      as (y & v' & h' & Hy & Hins & Hel & _).
    exists (ptr_add (begin v') (size_ v)), v', h'. split; [done|].
    rewrite Hel, take_ge, drop_ge by lia. do 2 f_equal.
    rewrite ref_value_own in Hx.
    assert (data_ v ≠ None) as Hd.
    { intros Hd. unfold block in Hx. by rewrite Hd in Hx. }
    rewrite heap_at_read_own, block_at_read_full, Hx in Hy
      by (done || lia).
    pose proof (lookup_lt_Some _ _ _ Hx) as Hj.
    rewrite wf_block_length in Hj by done.
    destruct (decide (j < size_ v)); [|lia]. simpl in Hy. congruence.
Qed.

(** [Erase] of the last element is [PopBack]: same vector, heap untouched,
    and the returned iterator is the new [end()]. *)
Theorem Erase_last_is_PopBack h v :
  wf h v → 0 < size_ v →
  ∃ v',
    PopBack v h = Val v' h ∧
    Erase (ptr_add (begin v) (size_ v - 1)) v h = Val (end_ v', v') h.
Proof.
  intros Hwf Hpos. pose proof (proj1 Hwf) as Hsc.
  pose proof (wf_elems_length _ _ Hwf) as HE.
  destruct (wf_data_Some h v Hwf) as [l Hl]; [lia|].
  destruct (wf_lookup _ _ _ Hwf Hl) as [Hb _].
  destruct (lookup_lt_is_Some_2 (elems h v) (size_ v - 1)) as [y Hy]; [lia|].
  eexists _. split; [by apply PopBack_ok|].
  rewrite (Erase_ok _ _ l _ y) by done. rewrite Hl.
  replace (S (size_ v - 1)) with (size_ v) by lia.
  rewrite (drop_ge (elems h v)) by lia. simpl.
  replace (take (size_ v - 1) (elems h v) ++ y :: drop (size_ v) (block h v))
    with (block h v).
  { by rewrite insert_id. }
  rewrite cons_middle, app_assoc, <-(take_S_r _ _ _ Hy).
  replace (S (size_ v - 1)) with (size_ v) by lia.
  rewrite (take_ge (elems h v)) by lia. apply block_split.
Qed.

Lemma Resize_spec h v n :
  wf h v →
  ∃ v' h',
    Resize n v h = Val v' h' ∧ size_ v' = n ∧ wf h' v' ∧
    elems h' v'
    = take n (elems h v) ++ replicate (n - size_ v) value_init.
Proof.
  intros Hwf. pose proof (proj1 Hwf) as Hsc.
  pose proof (wf_elems_length _ _ Hwf) as HE.
  destruct (decide (n ≤ size_ v)) as [Hle|Hgt].
  - eexists _, _. split; [by apply Resize_shrink|]. split; [done|]. split.
    + destruct Hwf as [? Hd]. split; simpl; [lia|done].
    + replace (n - size_ v) with 0 by lia. rewrite app_nil_r.
      unfold elems, block. simpl. rewrite take_take. f_equal. lia.
  - rewrite (take_ge (elems h v)) by lia.
    destruct (decide (n ≤ capacity_ v)) as [Hle|Hgt'].
    + destruct (wf_data_Some h v Hwf) as [l Hl]; [lia|].
      eexists _, _. split; [by apply (Resize_room _ _ l); try lia|].
      split; [done|]. split.
      * split; simpl; [lia|]. eexists. rewrite lookup_insert_eq.
        split; [done|]. len.
      * rewrite app_assoc. apply elems_insert. len.
    + eexists _, _. split; [by apply Resize_grow; try lia|].
      split; [done|]. split.
      * split; simpl; [lia|]. eexists. rewrite lookup_insert_eq.
        split; [done|]. len.
      * unfold elems at 1. rewrite block_insert. simpl.
        rewrite take_app_ge by lia. rewrite take_replicate. do 2 f_equal.
        lia.
Qed.

(** Elements cut off by a shrinking [Resize] do not come back: growing
    again exposes default values, whether the growth stays in the block or
    reallocates. *)
Theorem Resize_shrink_then_grow h v k n :
  wf h v → k ≤ size_ v → k ≤ n →
  ∃ v1 h1 v2 h2,
    Resize k v h = Val v1 h1 ∧
    Resize n v1 h1 = Val v2 h2 ∧
    size_ v2 = n ∧
    elems h2 v2 = take k (elems h v) ++ replicate (n - k) value_init.
Proof.
  intros Hwf Hk Hn.
  destruct (Resize_spec h v k Hwf) as (v1 & h1 & Hr1 & Hs1 & Hwf1 & He1).
  destruct (Resize_spec h1 v1 n Hwf1) as (v2 & h2 & Hr2 & Hs2 & _ & He2).
  exists v1, h1, v2, h2. split; [done|]. split; [done|]. split; [done|].
  rewrite He2, He1, Hs1.
  replace (k - size_ v) with 0 by lia. rewrite app_nil_r.
  rewrite take_take. do 2 f_equal. lia.
Qed.

(** ** Blocks are neither leaked nor shrunk *)

Lemma released_same h v h' v' : data_ v' = data_ v → released h v h' v'.
Proof. intros Heq l Hl Hne. congruence. Qed.

Lemma released_realloc h v (b : list T) s c :
  wf h v →
  released h v (<[fresh (dom h) := b]> (hfree (data_ v) h))
    {| size_ := s; capacity_ := c; data_ := Some (fresh (dom h)) |}.
Proof.
  intros Hwf l Hl _. pose proof (fresh_ne_data _ _ _ Hwf Hl).
  rewrite lookup_insert_ne by done. rewrite Hl. simpl.
  apply lookup_delete_eq.
Qed.

Lemma assign_released h t r :
  wf h t →
  released h t (hfree (data_ t) (alloc_heap (size_ r) (elems h r) h))
    {| size_ := size_ r; capacity_ := size_ r;
       data_ := alloc_data (size_ r) h |}.
Proof. intros Hwt l Hl _. rewrite Hl. simpl. apply lookup_delete_eq. Qed.

Lemma PushBack_kept h v item v' h' :
  wf h v → PushBack item v h = Val v' h' →
  released h v h' v' ∧ capacity_ v ≤ capacity_ v'.
Proof.
  intros Hwf Hp. pose proof (proj1 Hwf) as Hsc.
  apply PushBack_inv_Local in Hp as (x & Hp). revert Hp.
  destruct (decide (size_ v < capacity_ v)) as [Hlt|Hge].
  - destruct (wf_data_Some h v Hwf) as [l Hl]; [lia|].
    rewrite (PushBack_room _ _ l _ x) by done. intros [= <- <-].
    split; [by apply released_same|done].
  - rewrite (PushBack_full _ _ _ x) by (done || lia). intros [= <- <-].
    split; [by apply released_realloc|simpl; lia].
Qed.

Lemma PopBack_kept h v v' h' :
  PopBack v h = Val v' h' → released h v h' v' ∧ capacity_ v ≤ capacity_ v'.
Proof.
  unfold PopBack, assert. destruct (bool_decide (size_ v > 0)); [|done].
  intros [= <- <-]. split; [by apply released_same|done].
Qed.

Lemma Resize_kept h v n v' h' :
  wf h v → Resize n v h = Val v' h' →
  released h v h' v' ∧ capacity_ v ≤ capacity_ v'.
Proof.
  intros Hwf. pose proof (proj1 Hwf) as Hsc.
  destruct (decide (n ≤ size_ v)) as [Hle|Hgt].
  - rewrite Resize_shrink by done. intros [= <- <-].
    split; [by apply released_same|done].
  - destruct (decide (n ≤ capacity_ v)) as [Hle|Hgt'].
    + destruct (wf_data_Some h v Hwf) as [l Hl]; [lia|].
      rewrite (Resize_room _ _ l) by (done || lia). intros [= <- <-].
      split; [by apply released_same|done].
    + rewrite Resize_grow by (done || lia). intros [= <- <-].
      split; [by apply released_realloc|simpl; lia].
Qed.

Lemma Reserve_kept h v n v' h' :
  wf h v → Reserve n v h = Val v' h' →
  released h v h' v' ∧ capacity_ v ≤ capacity_ v'.
Proof.
  intros Hwf. pose proof (proj1 Hwf) as Hsc.
  destruct (decide (n ≤ capacity_ v)) as [Hle|Hgt].
  - rewrite Reserve_keep by done. intros [= <- <-].
    split; [by apply released_same|done].
  - rewrite Reserve_grow by (done || lia). intros [= <- <-].
    split; [by apply released_realloc|simpl; lia].
Qed.

Lemma Insert_kept h v index value it v' h' :
  wf h v → Insert (ptr_add (begin v) index) value v h = Val (it, v') h' →
  released h v h' v' ∧ capacity_ v ≤ capacity_ v'.
Proof.
  intros Hwf Hi. pose proof (proj1 Hwf) as Hsc.
  apply Insert_inv_Local in Hi as (x & Hi). revert Hi.
  destruct (decide (index ≤ size_ v)) as [Hidx|Hidx].
  - destruct (decide (size_ v < capacity_ v)) as [Hlt|Hge].
    + destruct (wf_data_Some h v Hwf) as [l Hl]; [lia|].
      rewrite (Insert_room _ _ l _ _ x) by done. intros [= <- <- <-].
      split; [by apply released_same|done].
    + rewrite (Insert_full _ _ _ _ x x) by (done || lia).
      intros [= <- <- <-].
      split; [by apply released_realloc|simpl; lia].
  - by rewrite Insert_out_of_range by lia.
Qed.

Lemma Erase_kept h v index it v' h' :
  wf h v → Erase (ptr_add (begin v) index) v h = Val (it, v') h' →
  released h v h' v' ∧ capacity_ v ≤ capacity_ v'.
Proof.
  intros Hwf. pose proof (proj1 Hwf) as Hsc.
  destruct (elems h v !! index) as [y|] eqn:Hy.
  - pose proof (lookup_lt_Some _ _ _ Hy) as Hidx.
    rewrite wf_elems_length in Hidx by done.
    destruct (wf_data_Some h v Hwf) as [l Hl]; [lia|].
    rewrite (Erase_ok _ _ l _ y) by done. intros [= <- <- <-].
    split; [by apply released_same|done].
  - apply lookup_ge_None in Hy. rewrite wf_elems_length in Hy by done.
    by rewrite Erase_out_of_range.
Qed.

Lemma SetItem_kept h v index value v' h' :
  wf h v →
  (p ← subscript v index; store p value;; mret v) h = Val v' h' →
  released h v h' v' ∧ capacity_ v ≤ capacity_ v'.
Proof.
  intros Hwf. pose proof (proj1 Hwf) as Hsc.
  destruct (decide (index < size_ v)) as [Hidx|Hidx].
  - destruct (wf_data_Some h v Hwf) as [l Hl]; [lia|].
    rewrite (SetItem_ok _ _ l) by done. intros [= <- <-].
    split; [by apply released_same|done].
  - unfold subscript, assert. rewrite bool_decide_eq_false_2 by done.
    done.
Qed.

Lemma declare_step c a init σ h σ' h' :
  is_member_call c = false →
  (∀ v' h', init h = Val v' h' → owned_step h ctor_default h' v') →
  declare a init σ h = Val σ' h' → one_object_step c σ h σ' h'.
Proof.
  intros Hc Hinit. unfold declare.
  destruct (σ !! a) as [?|] eqn:Ha; [done|].
  intros (v' & h1 & Hv & [= <- <-])%bind_inv.
  exists a, ctor_default, v'. split; [by right|]. split; [done|].
  split; [by apply Hinit|]. split; [done|]. by rewrite Hc.
Qed.

Lemma call_step c a method σ h σ' h' :
  (∀ v v' h', wf h v → method v h = Val v' h' →
              owned_step h v h' v' ∧ released h v h' v' ∧
              capacity_ v ≤ capacity_ v') →
  state_wf σ h → call a method σ h = Val σ' h' →
  one_object_step c σ h σ' h'.
Proof.
  intros Hm Hst. unfold call.
  destruct (σ !! a) as [v|] eqn:Ha; [|done].
  intros (v' & h1 & Hv & [= <- <-])%bind_inv.
  destruct (Hm v v' h1) as (Ho & Hr & Hcap); [by eapply (proj1 Hst)|done|].
  exists a, v, v'. split; [by left|]. done.
Qed.

Lemma assign_step c a b σ h σ' h' :
  is_member_call c = false → a ≠ b → state_wf σ h →
  operator_assign a b σ h = Val σ' h' → one_object_step c σ h σ' h'.
Proof.
  intros Hc Hab Hst Hex.
  destruct (σ !! a) as [t|] eqn:Ha.
  2:{ unfold operator_assign in Hex. destruct (decide (a ≠ b)); [|done].
      by rewrite Ha in Hex. }
  destruct (σ !! b) as [r|] eqn:Hb.
  2:{ unfold operator_assign in Hex. destruct (decide (a ≠ b)); [|done].
      by rewrite Ha, Hb in Hex. }
  assert (wf h t) as Hwt by (by eapply (proj1 Hst)).
  assert (wf h r) as Hwr by (by eapply (proj1 Hst)).
  rewrite (operator_assign_ok σ h a b t r Hab Ha Hb Hwt Hwr) in Hex.
  injection Hex as <- <-.
  eexists a, t, _. split; [by left|]. split; [done|].
  split; [by apply assign_owned|]. split; [by apply assign_released|].
  by rewrite Hc.
Qed.

Lemma exec_shape c σ h σ' h' :
  state_wf σ h → exec c σ h = Val σ' h' →
  one_object_step c σ h σ' h' ∨
  (σ' = σ ∧ h' = h) ∨
  (is_member_call c = false ∧ h' = h ∧
   ∃ a b va vb, σ !! b = Some vb ∧
                (σ !! a = Some va ∨ σ !! a = None ∧ va = ctor_default) ∧
                σ' = <[a := vb]> (<[b := va]> σ)) ∨
  (is_member_call c = false ∧
   ∃ a v, σ !! a = Some v ∧ σ' = delete a σ ∧ h' = hfree (data_ v) h).
Proof.
  intros Hst Hex. destruct c; simpl in Hex.
  - left. eapply declare_step; [done| |done].
    intros v' h1 [= <- <-]. apply owned_step_refl, wf_ctor_default.
  - left. eapply declare_step; [done| |done].
    intros v' h1. rewrite ctor_reserve_ok. intros [= <- <-].
    apply owned_step_alloc; [by rewrite length_replicate|lia].
  - left. eapply declare_step; [done| |done].
    intros v' h1. rewrite ctor_size_ok. intros [= <- <-].
    apply owned_step_alloc; [by rewrite length_replicate|lia].
  - left. eapply declare_step; [done| |done].
    intros v' h1. rewrite ctor_fill_ok. intros [= <- <-].
    apply owned_step_alloc; [by rewrite length_replicate|lia].
  - left. eapply declare_step; [done| |done].
    intros v' h1. rewrite ctor_init_ok. intros [= <- <-].
    by apply owned_step_alloc.
  - destruct (σ !! b) as [other|] eqn:Hb; [|done].
    assert (wf h other) as Hwo by (by eapply (proj1 Hst)).
    left. eapply declare_step; [done| |done].
    intros v' h1. rewrite ctor_copy_ok by done. intros [= <- <-].
    apply owned_step_alloc; [by apply wf_elems_length|lia].
  - destruct (σ !! a) as [?|] eqn:Ha; [done|].
    destruct (σ !! b) as [other|] eqn:Hb; [|done].
    injection Hex as <- <-. right. right. left.
    split; [done|]. split; [done|].
    exists a, b, ctor_default, other. split; [done|]. split; [by right|].
    unfold ctor_move, ArrayPtr_Release, ArrayPtr_from_raw. simpl.
    by rewrite SimpleVector_eta.
  - destruct (decide (a = b)) as [->|Hab].
    + rewrite operator_assign_self in Hex. injection Hex as <- <-.
      right. by left.
    + left. by eapply assign_step.
  - destruct (decide (a = b)) as [->|Hab].
    + rewrite operator_assign_self in Hex. injection Hex as <- <-.
      right. by left.
    + left. by eapply assign_step.
  - left. eapply call_step; [|done|done].
    intros v v' h1 Hwf [= <- <-].
    split; [by apply Clear_owned|]. split; [by apply released_same|done].
  - left. eapply call_step; [|done|done].
    intros v v' h1 Hwf Hv. split; [by eapply Resize_owned|].
    by eapply Resize_kept.
  - left. eapply call_step; [|done|done].
    intros v v' h1 Hwf Hv. split; [by eapply Reserve_owned|].
    by eapply Reserve_kept.
  - apply exec_CallPushBack in Hex as (r & Hex).
    left. eapply call_step; [|done|done].
    intros v v' h1 Hwf Hv. split; [by eapply PushBack_owned|].
    by eapply PushBack_kept.
  - left. eapply call_step; [|done|done].
    intros v v' h1 Hwf Hv. split; [by eapply PopBack_owned|].
    by eapply PopBack_kept.
  - apply exec_CallInsert in Hex as (r & Hex).
    left. eapply call_step; [|done|done].
    intros v v' h1 Hwf ([it v1] & Hv & ->)%fmap_inv.
    split; [by eapply Insert_owned|]. by eapply Insert_kept.
  - left. eapply call_step; [|done|done].
    intros v v' h1 Hwf ([it v1] & Hv & ->)%fmap_inv.
    split; [by eapply Erase_owned|]. by eapply Erase_kept.
  - destruct (σ !! a) as [this|] eqn:Ha; [|done].
    destruct (σ !! b) as [other|] eqn:Hb; [|done].
    injection Hex as <- <-. right. right. left.
    split; [done|]. split; [done|].
    exists a, b, this, other. split; [done|]. split; [by left|].
    unfold swap, ArrayPtr_swap. simpl. by rewrite !SimpleVector_eta.
  - left. eapply call_step; [|done|done].
    intros v v' h1 Hwf Hv.
    split; [exact (SetItem_owned _ _ _ _ _ _ Hwf Hv)|].
    exact (SetItem_kept _ _ _ _ _ _ Hwf Hv).
  - destruct (σ !! a) as [v|] eqn:Ha; [|done].
    assert (wf h v) as Hwv by (by eapply (proj1 Hst)).
    unfold dtor in Hex. erewrite bind_val in Hex.
    2:{ apply ArrayPtr_delete_ok. intros l Hl.
        destruct (wf_lookup _ _ _ Hwv Hl) as [-> _]. done. }
    injection Hex as <- <-. right. right. right.
    split; [done|]. by exists a, v.
Qed.

Lemma exec_no_leak c σ h σ' h' :
  state_wf σ h → no_leak σ h → exec c σ h = Val σ' h' → no_leak σ' h'.
Proof.
  intros Hst Hnl Hex.
  destruct (exec_shape _ _ _ _ _ Hst Hex)
    as [(a & v & v' & Ha & -> & Hown & Hrel & _)
       |[[-> ->]
        |[(_ & -> & a & b & va & vb & Hb & Ha & ->)
         |(_ & a & v & Ha & -> & ->)]]].
  - destruct Hown as (_ & _ & Hframe). intros l Hlive.
    destruct (decide (data_ v' = Some l)) as [Hnew|Hnew].
    { exists a, v'. by rewrite lookup_insert_eq. }
    destruct (decide (data_ v = Some l)) as [Hold|Hold].
    { rewrite (Hrel l Hold Hnew) in Hlive. by destruct Hlive. }
    rewrite (Hframe l Hold Hnew) in Hlive.
    destruct (Hnl l Hlive) as (b & vb & Hb & Hl).
    exists b, vb. split; [|done]. rewrite lookup_insert_ne; [done|].
    intros ->. destruct Ha as [Ha|[Ha _]]; congruence.
  - done.
  - intros l Hlive. destruct (Hnl l Hlive) as (c0 & vc & Hc & Hl).
    destruct (decide (c0 = b)) as [->|Hcb].
    + exists a, vb. rewrite lookup_insert_eq. split; [done|]. congruence.
    + destruct (decide (c0 = a)) as [->|Hca].
      * exists b, va. rewrite lookup_insert_ne, lookup_insert_eq by done.
        split; [done|]. destruct Ha as [Ha|[Ha _]]; congruence.
      * exists c0, vc. by rewrite !lookup_insert_ne.
  - intros l Hlive.
    assert (is_Some (h !! l) ∧ data_ v ≠ Some l) as [Hlive0 Hne].
    { destruct (data_ v) as [lv|]; simpl in Hlive; [|done].
      destruct (decide (lv = l)) as [->|Hne].
      - rewrite lookup_delete_eq in Hlive. by destruct Hlive.
      - rewrite lookup_delete_ne in Hlive by done. split; [done|].
        congruence. }
    destruct (Hnl l Hlive0) as (b & vb & Hb & Hl).
    exists b, vb. split; [|done]. rewrite lookup_delete_ne; [done|].
    intros ->. congruence.
Qed.

Lemma exec_all_no_leak cs : ∀ σ h σ' h',
  state_wf σ h → no_leak σ h → exec_all cs σ h = Val σ' h' → no_leak σ' h'.
Proof.
  induction cs as [|c cs IH]; intros σ h σ' h' Hst Hnl Hex.
  - by injection Hex as <- <-.
  - simpl in Hex. apply bind_inv in Hex as (σ1 & h1 & Hc & Hcs).
    eapply IH; [|by eapply exec_no_leak|done].
    by eapply exec_sound.
Qed.

(** No command leaks memory: if every live block has an owner before, so
    it has after (a reallocation, an assignment and a destructor release the
    block they replace).  Hence a program started from nothing never holds
    a block without an owner, and once all its objects are destroyed the
    heap is empty. *)
Theorem no_block_is_leaked :
  (∀ c σ h σ' h',
     state_wf σ h → no_leak σ h → exec c σ h = Val σ' h' →
     no_leak σ' h') ∧
  (∀ cs σ h,
     exec_all cs ∅ ∅ = Val σ h → no_leak σ h ∧ (σ = ∅ → h = ∅)).
Proof.
  split; [intros; by eapply exec_no_leak|].
  intros cs σ h Hex.
  assert (no_leak σ h) as Hnl.
  { eapply exec_all_no_leak; [apply state_wf_empty| |done].
    intros l [b Hl]. by rewrite lookup_empty in Hl. }
  split; [done|]. intros ->. apply map_empty. intros l.
  destruct (h !! l) as [b|] eqn:Hl; [|done].
  destruct (Hnl l) as (a & v & Ha & _); [by rewrite Hl|].
  by rewrite lookup_empty in Ha.
Qed.

(** No member call on a vector lowers the capacity of any vector:
    [Clear], [PopBack], [Erase] and a shrinking [Resize] keep the buffer,
    the growing ones only enlarge it. *)
Theorem capacity_never_shrinks c σ h σ' h' a v :
  state_wf σ h → is_member_call c = true →
  exec c σ h = Val σ' h' → σ !! a = Some v →
  ∃ v', σ' !! a = Some v' ∧ capacity_ v ≤ capacity_ v'.
Proof.
  intros Hst Hc Hex Ha.
  destruct (exec_shape _ _ _ _ _ Hst Hex)
    as [(a0 & v0 & v0' & _ & -> & _ & _ & Hcap)
       |[[-> ->]
        |[(Hc' & _)|(Hc' & _)]]]; [| |congruence..].
  - destruct (Hcap Hc) as [Ha0 Hle].
    destruct (decide (a = a0)) as [->|Hne].
    + exists v0'. rewrite lookup_insert_eq. split; [done|]. congruence.
    + exists v. by rewrite lookup_insert_ne.
  - by exists v.
Qed.

(** ** Reading back, putting back, and stale iterators *)

(** After a [PushBack] that can read its argument (with room any valid
    reference, without room one outside the vector's own buffer), [At] at
    the old size returns the value the argument had at the call, and every
    older element is still read at its index. *)
Theorem PushBack_then_At h v item x :
  wf h v → ref_value h item = Some x →
  size_ v < capacity_ v ∨ outside item v →
  ∃ v' h' p,
    PushBack item v h = Val v' h' ∧
    At v' (size_ v) h' = Val p h' ∧
    load p h' = Val x h' ∧
    ∀ i z, elems h v !! i = Some z →
           ∃ q, At v' i h' = Val q h' ∧ load q h' = Val z h'.
Proof.
  intros Hwf Hx Hout. pose proof (wf_elems_length _ _ Hwf) as HE.
  destruct (PushBack_spec h v item x Hwf Hx Hout)
    as (v' & h' & Hpush & _ & Hsize & _ & Hel & Hwf').
  assert (∀ i z, elems h' v' !! i = Some z →
                 At v' i h' = Val (ptr_add (begin v') i) h' ∧
                 load (ptr_add (begin v') i) h' = Val z h') as Hread.
  { intros i z Hz. split; [|by apply elems_lookup_load].
    pose proof (lookup_lt_Some _ _ _ Hz) as Hi.
    rewrite wf_elems_length in Hi by done.
    unfold At. destruct (decide (i ≥ size_ v')); [lia|done]. }
  exists v', h', (ptr_add (begin v') (size_ v)).
  split; [done|].
  destruct (Hread (size_ v) x) as [Hat Hload].
  { rewrite Hel. apply list_lookup_middle. lia. }
  split; [done|]. split; [done|].
  intros i z Hz. exists (ptr_add (begin v') i). apply Hread.
  rewrite Hel. rewrite lookup_app_l; [done|]. by eapply lookup_lt_Some.
Qed.

(** Erasing an element and inserting it again, from a copy the caller
    kept, at the returned position
    restores the logical sequence, and does so in the same block: after an
    [Erase] there is room, so the [Insert] does not reallocate. *)
Theorem Erase_then_Insert h v index y :
  wf h v → elems h v !! index = Some y →
  ∃ it v1 h1 it' v2 h2,
    Erase (ptr_add (begin v) index) v h = Val (it, v1) h1 ∧
    Insert it (Local y) v1 h1 = Val (it', v2) h2 ∧
    elems h2 v2 = elems h v ∧
    size_ v2 = size_ v ∧ capacity_ v2 = capacity_ v ∧ data_ v2 = data_ v.
Proof.
  intros Hwf Hy. pose proof (wf_elems_length _ _ Hwf) as HE.
  pose proof (proj1 Hwf) as Hsc.
  pose proof (lookup_lt_Some _ _ _ Hy) as Hidx. rewrite HE in Hidx.
  destruct (Erase_spec h v index Hwf Hidx)
    as (v1 & h1 & Her & Hel1 & Hs1 & Hc1 & Hd1 & Hwf1).
  destruct (Insert_spec h1 v1 index (Local y) y Hwf1)
    as (y' & v2 & h2 & [= <-] & Hins & Hel2 & Hs2 & _ & Hroom);
    [lia|done|].
  destruct Hroom as (Hd2 & Hc2 & _); [lia|].
  exists (ptr_add (begin v1) index), v1, h1, (ptr_add (begin v2) index),
    v2, h2.
  split; [done|]. split; [done|].
  split; [|split; [lia|split; congruence]].
  rewrite Hel2, Hel1.
  rewrite take_app_length' by (rewrite length_take; lia).
  rewrite drop_app_length' by (rewrite length_take; lia).
  by apply take_drop_middle.
Qed.

(** A [PushBack] into a full vector, of an argument outside the vector's
    own buffer, moves the elements to a new block and releases the old one:
    every pointer into the old buffer dangles, and reading through it is
    undefined. *)
Theorem reallocation_invalidates_iterators h v item x :
  wf h v → capacity_ v ≤ size_ v →
  ref_value h item = Some x → outside item v →
  ∃ v' h',
    PushBack item v h = Val v' h' ∧
    data_ v' ≠ data_ v ∧
    (∀ l, data_ v = Some l → h' !! l = None) ∧
    ∀ i, load (ptr_add (begin v) i) h' = Undef.
Proof.
  intros Hwf Hfull Hx Hout.
  assert (∀ l, data_ v = Some l →
               (<[fresh (dom h) :=
                    elems h v ++ x
                      :: replicate ((size_ v + 1) `max` (capacity_ v * 2)
                                    - (size_ v + 1)) value_init]>
                  (hfree (data_ v) h)) !! l = None) as Hgone.
  { intros l Hl. pose proof (fresh_ne_data _ _ _ Hwf Hl).
    rewrite lookup_insert_ne by done. rewrite Hl. apply lookup_delete_eq. }
  eexists _, _.
  split; [by apply (PushBack_full _ _ _ x), ref_value_hfree|]. simpl.
  split; [|split; [done|]].
  - intros Heq. symmetry in Heq.
    by apply (fresh_ne_data _ _ _ Hwf) in Heq.
  - intros i. unfold load, begin, ArrayPtr_Get, ptr_add. simpl.
    destruct (data_ v) as [l|] eqn:Hl; [|done].
    by rewrite (Hgone l eq_refl).
Qed.

End SimpleVector.

(** * Instances on vectors of numbers

    [Type = nat], [Type{} = 0], and moving a number leaves it in place. *)

Lemma move_construction_resets_assignment_copies_witness :
  state_wf (T:=nat) {[2%positive := mkVec 1 3 (Some 1%positive)]}
           {[1%positive := [7; 0; 0]]} ∧
  ∃ σ' h' vm',
    exec 0 id (AssignMove 1%positive 2%positive)
         (<[1%positive := ctor_default]>
            {[2%positive := mkVec 1 3 (Some 1%positive)]})
         {[1%positive := [7; 0; 0]]} = Val σ' h' ∧
    σ' !! 1%positive = Some vm' ∧ elems h' vm' = [7] ∧ capacity_ vm' = 1 ∧
    σ' !! 2%positive = Some (mkVec 1 3 (Some 1%positive)) ∧
    elems h' (mkVec 1 3 (Some 1%positive)) = [7].
Proof.
  assert (state_wf (T:=nat) {[2%positive := mkVec 1 3 (Some 1%positive)]}
                   {[1%positive := [7; 0; 0]]}) as Hst0.
  { apply (proj1 (exec_all_sound 0 id
                    [DeclReserve 2%positive 3; CallPushBack 2%positive (Lvalue 7)]
                    ∅ ∅ _ _ state_wf_empty eq_refl)). }
  assert (state_wf (T:=nat)
            (<[1%positive := ctor_default]>
               {[2%positive := mkVec 1 3 (Some 1%positive)]})
            {[1%positive := [7; 0; 0]]}) as Hst.
  { apply (proj1 (exec_sound 0 id (DeclDefault 1%positive) _ _ _ _
                    Hst0 eq_refl)). }
  split; [exact Hst0|].
  destruct (proj2 (move_construction_resets_assignment_copies 0 id _ _
                     1%positive 2%positive (mkVec 1 3 (Some 1%positive))
                     Hst eq_refl ltac:(discriminate))
              ctor_default eq_refl)
    as (σ' & h' & vm' & Hex & Hm & Hel & Hcap & Ho & Hel').
  exists σ', h', vm'. repeat split; assumption.
Defined.

(** C1, as claimed: after [moved = std::move(original)] the source would
    have size 0 and capacity 0.  It keeps both. *)
Lemma move_assignment_keeps_source :
  ¬ (∀ (σ σ' : gmap positive SimpleVector) (h h' : heap nat)
       (moved original : positive) (vo' : SimpleVector),
       state_wf σ h →
       exec 0 id (AssignMove moved original) σ h = Val σ' h' →
       σ' !! original = Some vo' →
       size_ vo' = 0 ∧ capacity_ vo' = 0).
Proof.
  intros Hclaim.
  assert (state_wf (T:=nat)
            (<[1%positive := ctor_default]>
               {[2%positive := mkVec 1 1 (Some 1%positive)]})
            {[1%positive := [7]]}) as Hst.
  { apply (proj1 (exec_all_sound 0 id
                    [DeclInit 2%positive [7]; DeclDefault 1%positive]
                    ∅ ∅ _ _ state_wf_empty eq_refl)). }
  destruct (Hclaim _ _ _ _ 1%positive 2%positive
              (mkVec 1 1 (Some 1%positive)) Hst eq_refl eq_refl)
    as [Hsize _].
  discriminate Hsize.
Qed.

Lemma At_checked_witness :
  wf (T:=nat) {[1%positive := [10; 20; 30; 0]]} (mkVec 3 4 (Some 1%positive)) ∧
  At (mkVec 3 4 (Some 1%positive)) 3 ({[1%positive := [10; 20; 30; 0]]} : heap nat)
  = Exc (out_of_range "Выход за пределы массива")
        {[1%positive := [10; 20; 30; 0]]} ∧
  ∃ x, At (mkVec 3 4 (Some 1%positive)) 2
          ({[1%positive := [10; 20; 30; 0]]} : heap nat)
       = Val (Some 1%positive, 2) {[1%positive := [10; 20; 30; 0]]} ∧
       load (Some 1%positive, 2) {[1%positive := [10; 20; 30; 0]]}
       = Val x {[1%positive := [10; 20; 30; 0]]} ∧
       x = 30.
Proof.
  assert (wf (T:=nat) {[1%positive := [10; 20; 30; 0]]}
             (mkVec 3 4 (Some 1%positive))) as Hwf.
  { split; [simpl; lia|]. exists [10; 20; 30; 0]. split; reflexivity. }
  split; [exact Hwf|]. split.
  - apply (proj1 (At_checked _ (mkVec 3 4 (Some 1%positive)) 3)).
    simpl. lia.
  - destruct (proj2 (At_checked _ (mkVec 3 4 (Some 1%positive)) 2) Hwf)
      as (x & Hx & Hat & Hload); [simpl; lia|].
    exists x. split; [exact Hat|]. split; [exact Hload|].
    injection Hx as <-. reflexivity.
Defined.

(** C2, as claimed: the failure would carry the offending index, so that
    some function of the exception recovers it.  None does: the exception is
    the same for every index. *)
Lemma At_failure_hides_index :
  ¬ ∃ index_of : exn → nat,
      ∀ (h : heap nat) (v : SimpleVector) (index : nat),
        index ≥ size_ v →
        ∃ e, At v index h = Exc e h ∧ index_of e = index.
Proof.
  intros [index_of Hclaim].
  destruct (Hclaim {[1%positive := [10; 20]]}
              (mkVec 2 2 (Some 1%positive)) 2) as (e2 & He2 & H2);
    [simpl; lia|].
  destruct (Hclaim {[1%positive := [10; 20]]}
              (mkVec 2 2 (Some 1%positive)) 5) as (e5 & He5 & H5);
    [simpl; lia|].
  injection He2 as <-. injection He5 as <-. congruence.
Qed.





Lemma Erase_shifts_left_witness :
  wf (T:=nat) {[1%positive := [10; 20; 30; 0]]} (mkVec 3 4 (Some 1%positive)) ∧
  1 < size_ (mkVec 3 4 (Some 1%positive)) ∧
  ∃ it v' h',
    Erase id (Some 1%positive, 1) (mkVec 3 4 (Some 1%positive))
          {[1%positive := [10; 20; 30; 0]]} = Val (it, v') h' ∧
    elems h' v' = [10; 30] ∧ size_ v' = 2 ∧ capacity_ v' = 4 ∧
    load it h' = Val 30 h'.
Proof.
  assert (wf (T:=nat) {[1%positive := [10; 20; 30; 0]]}
             (mkVec 3 4 (Some 1%positive))) as Hwf.
  { split; [simpl; lia|]. exists [10; 20; 30; 0]. split; reflexivity. }
  assert (1 < size_ (mkVec 3 4 (Some 1%positive))) as Hidx by (simpl; lia).
  split; [exact Hwf|]. split; [exact Hidx|].
  destruct (Erase_shifts_left id _ _ 1 Hwf Hidx)
    as (it & v' & h' & Her & Hel & _ & _ & Hsize & Hcap & _ & Hload & _).
  exists it, v', h'. split; [exact Her|].
  split; [exact Hel|]. split; [exact Hsize|]. split; [exact Hcap|].
  apply Hload. reflexivity.
Defined.


Lemma Resize_three_cases_witness :
  wf (T:=nat) {[1%positive := [1; 9; 3; 3]]} (mkVec 3 4 (Some 1%positive)) ∧
  ∃ v' h',
    Resize 0 id 5 (mkVec 3 4 (Some 1%positive)) {[1%positive := [1; 9; 3; 3]]}
    = Val v' h' ∧
    size_ v' = 5 ∧ capacity_ v' = 8 ∧ elems h' v' = [1; 9; 3; 0; 0].
Proof.
  assert (wf (T:=nat) {[1%positive := [1; 9; 3; 3]]}
             (mkVec 3 4 (Some 1%positive))) as Hwf.
  { split; [simpl; lia|]. exists [1; 9; 3; 3]. split; reflexivity. }
  split; [exact Hwf|].
  destruct (Resize_three_cases 0 id _ _ 5 Hwf)
    as (v' & h' & Hres & Hsize & _ & _ & _ & Hgrow).
  destruct Hgrow as [Hcap Hel]; [simpl; lia|].
  exists v', h'. split; [exact Hres|].
  split; [exact Hsize|]. split; [exact Hcap|exact Hel].
Defined.

Lemma copy_is_deep_witness :
  state_wf (T:=nat) {[1%positive := mkVec 2 3 (Some 1%positive)]}
           {[1%positive := [5; 6; 0]]} ∧
  ∃ σ1 h1 vc σ2 h2,
    exec 0 id (DeclCopy 2%positive 1%positive)
         {[1%positive := mkVec 2 3 (Some 1%positive)]}
         {[1%positive := [5; 6; 0]]} = Val σ1 h1 ∧
    σ1 !! 2%positive = Some vc ∧ capacity_ vc = 2 ∧
    eq_op vc (mkVec 2 3 (Some 1%positive)) h1 = Val true h1 ∧
    exec_all 0 id [CallPushBack 2%positive (Lvalue 7); SetItem 2%positive 0 8;
                   CallErase 2%positive 1; CallClear 2%positive]
             σ1 h1 = Val σ2 h2 ∧
    σ2 !! 1%positive = Some (mkVec 2 3 (Some 1%positive)) ∧
    elems h2 (mkVec 2 3 (Some 1%positive)) = [5; 6].
Proof.
  assert (state_wf (T:=nat) {[1%positive := mkVec 2 3 (Some 1%positive)]}
                   {[1%positive := [5; 6; 0]]}) as Hst.
  { apply (proj1 (exec_all_sound 0 id
                    [DeclReserve 1%positive 3; CallPushBack 1%positive (Lvalue 5);
                     CallPushBack 1%positive (Lvalue 6)]
                    ∅ ∅ _ _ state_wf_empty eq_refl)). }
  split; [exact Hst|].
  destruct (copy_is_deep 0 id _ _ 2%positive 1%positive
              (mkVec 2 3 (Some 1%positive)) Hst eq_refl eq_refl)
    as (σ1 & h1 & vc & Hex & Hc & _ & Heq & Hcap & Hiso).
  injection Hex as <- <-.
  eexists _, _, vc, _, _. split; [reflexivity|].
  split; [exact Hc|]. split; [exact Hcap|]. split; [exact Heq|].
  split; [reflexivity|].
  apply (Hiso [CallPushBack 2%positive (Lvalue 7); SetItem 2%positive 0 8;
                CallErase 2%positive 1; CallClear 2%positive]);
    [|reflexivity].
  repeat constructor.
Defined.

Lemma operations_preserve_invariant_witness :
  state_wf (T:=nat) {[1%positive := mkVec 2 2 (Some 1%positive)]}
           {[1%positive := [5; 6]]} ∧
  ∃ σ' h',
    exec 0 id (CallPushBack 1%positive (Lvalue 7))
         {[1%positive := mkVec 2 2 (Some 1%positive)]}
         {[1%positive := [5; 6]]} = Val σ' h' ∧
    state_wf σ' h'.
Proof.
  assert (state_wf (T:=nat) {[1%positive := mkVec 2 2 (Some 1%positive)]}
                   {[1%positive := [5; 6]]}) as Hst.
  { apply (proj1 (exec_all_sound 0 id [DeclInit 1%positive [5; 6]]
                    ∅ ∅ _ _ state_wf_empty eq_refl)). }
  split; [exact Hst|].
  eexists _, _. split; [reflexivity|].
  apply (proj1 (operations_preserve_invariant 0 id)
           (CallPushBack 1%positive (Lvalue 7)) _ _ _ _ Hst eq_refl).
Defined.

(** ** Instances of the further properties *)

Lemma pushes_within_capacity_keep_buffer_witness :
  wf (T:=nat) {[1%positive := [10; 0; 0; 0]]} (mkVec 1 4 (Some 1%positive)) ∧
  ∃ v' h',
    push_all 0 id [20; 30] (mkVec 1 4 (Some 1%positive))
             {[1%positive := [10; 0; 0; 0]]} = Val v' h' ∧
    data_ v' = Some 1%positive ∧ capacity_ v' = 4 ∧
    elems h' v' = [10; 20; 30].
Proof.
  assert (wf (T:=nat) {[1%positive := [10; 0; 0; 0]]}
             (mkVec 1 4 (Some 1%positive))) as Hwf.
  { split; [simpl; lia|]. exists [10; 0; 0; 0]. split; reflexivity. }
  split; [exact Hwf|].
  destruct (pushes_within_capacity_keep_buffer 0 id _ _ [20; 30] Hwf)
    as (v' & h' & Hall & Hd & Hc & _ & He & _); [simpl; lia|].
  exists v', h'. split; [exact Hall|].
  split; [exact Hd|]. split; [exact Hc|exact He].
Defined.

Lemma reserved_vector_takes_pushes_witness :
  length [1; 2; 3] ≤ 3 ∧
  ∃ v0 h0 v' h',
    ctor_reserve (T:=nat) 0 (Reserve_proxy 3) ∅ = Val v0 h0 ∧
    push_all 0 id [1; 2; 3] v0 h0 = Val v' h' ∧
    data_ v' = data_ v0 ∧ capacity_ v' = 3 ∧ elems h' v' = [1; 2; 3].
Proof.
  assert (length [1; 2; 3] ≤ 3) as Hn by (simpl; lia).
  split; [exact Hn|].
  destruct (reserved_vector_takes_pushes (T:=nat) 0 id ∅ 3 [1; 2; 3] Hn)
    as (v0 & h0 & v' & h' & Hctor & _ & _ & _ & Hall & Hd & Hc & He).
  exists v0, h0, v', h'. split; [exact Hctor|]. split; [exact Hall|].
  split; [exact Hd|]. split; [exact Hc|exact He].
Defined.

Lemma Clear_keeps_buffer_witness :
  wf (T:=nat) {[1%positive := [10; 20; 30; 0]]} (mkVec 3 4 (Some 1%positive)) ∧
  ∃ v' h',
    push_all 0 id [7; 8] (Clear (mkVec 3 4 (Some 1%positive)))
             {[1%positive := [10; 20; 30; 0]]} = Val v' h' ∧
    data_ v' = Some 1%positive ∧ capacity_ v' = 4 ∧ elems h' v' = [7; 8].
Proof.
  assert (wf (T:=nat) {[1%positive := [10; 20; 30; 0]]}
             (mkVec 3 4 (Some 1%positive))) as Hwf.
  { split; [simpl; lia|]. exists [10; 20; 30; 0]. split; reflexivity. }
  split; [exact Hwf|].
  destruct (Clear_keeps_buffer 0 id _ _ [7; 8] Hwf)
    as (_ & _ & _ & v' & h' & Hall & Hd & Hc & He); [simpl; lia|].
  exists v', h'. split; [exact Hall|].
  split; [exact Hd|]. split; [exact Hc|exact He].
Defined.

Lemma Reserve_never_shrinks_witness :
  wf (T:=nat) {[1%positive := [10; 20; 30; 0]]} (mkVec 3 4 (Some 1%positive)) ∧
  ∃ v' h',
    Reserve 0 id 10 (mkVec 3 4 (Some 1%positive))
            {[1%positive := [10; 20; 30; 0]]} = Val v' h' ∧
    capacity_ v' = 10 ∧ size_ v' = 3 ∧ elems h' v' = [10; 20; 30].
Proof.
  assert (wf (T:=nat) {[1%positive := [10; 20; 30; 0]]}
             (mkVec 3 4 (Some 1%positive))) as Hwf.
  { split; [simpl; lia|]. exists [10; 20; 30; 0]. split; reflexivity. }
  split; [exact Hwf|].
  destruct (Reserve_never_shrinks 0 id _ _ 10 Hwf)
    as (v' & h' & Hres & Hc & Hs & He & _).
  exists v', h'. split; [exact Hres|].
  split; [exact Hc|]. split; [exact Hs|exact He].
Defined.

Lemma PopBack_drops_last_witness :
  wf (T:=nat) {[1%positive := [10; 20; 30; 0]]} (mkVec 3 4 (Some 1%positive)) ∧
  PopBack (T:=nat) ctor_default ∅ = Undef ∧
  ∃ v' x,
    PopBack (mkVec 3 4 (Some 1%positive))
            ({[1%positive := [10; 20; 30; 0]]} : heap nat)
    = Val v' {[1%positive := [10; 20; 30; 0]]} ∧
    size_ v' = 2 ∧ capacity_ v' = 4 ∧
    [10; 20; 30] = elems {[1%positive := [10; 20; 30; 0]]} v' ++ [x].
Proof.
  assert (wf (T:=nat) {[1%positive := [10; 20; 30; 0]]}
             (mkVec 3 4 (Some 1%positive))) as Hwf.
  { split; [simpl; lia|]. exists [10; 20; 30; 0]. split; reflexivity. }
  split; [exact Hwf|]. split.
  - apply (proj1 (PopBack_drops_last ∅ ctor_default)). reflexivity.
  - destruct (proj2 (PopBack_drops_last _ _) Hwf)
      as (v' & x & Hpop & Hs & Hc & _ & He); [simpl; lia|].
    exists v', x. split; [exact Hpop|].
    split; [exact Hs|]. split; [exact Hc|exact He].
Defined.

Lemma PushBack_then_PopBack_witness :
  wf (T:=nat) {[1%positive := [10; 20]]} (mkVec 2 2 (Some 1%positive)) ∧
  ∃ v1 h1 v2,
    PushBack 0 id (Local 30) (mkVec 2 2 (Some 1%positive))
             {[1%positive := [10; 20]]}
    = Val v1 h1 ∧
    PopBack v1 h1 = Val v2 h1 ∧
    elems h1 v2 = [10; 20] ∧ size_ v2 = 2.
Proof.
  assert (wf (T:=nat) {[1%positive := [10; 20]]}
             (mkVec 2 2 (Some 1%positive))) as Hwf.
  { split; [simpl; lia|]. exists [10; 20]. split; reflexivity. }
  split; [exact Hwf|].
  destruct (PushBack_then_PopBack 0 id _ _ (Local 30) 30 Hwf eq_refl
              (or_intror I))
    as (v1 & h1 & v2 & Hpush & Hpop & He & Hs & _).
  exists v1, h1, v2. split; [exact Hpush|].
  split; [exact Hpop|]. split; [exact He|exact Hs].
Defined.

Lemma subscript_unchecked_witness :
  wf (T:=nat) {[1%positive := [10; 20; 30; 0]]} (mkVec 3 4 (Some 1%positive)) ∧
  subscript (mkVec 3 4 (Some 1%positive)) 3
            ({[1%positive := [10; 20; 30; 0]]} : heap nat) = Undef ∧
  ∃ x,
    subscript (mkVec 3 4 (Some 1%positive)) 2
              ({[1%positive := [10; 20; 30; 0]]} : heap nat)
    = Val (Some 1%positive, 2) {[1%positive := [10; 20; 30; 0]]} ∧
    load (Some 1%positive, 2) {[1%positive := [10; 20; 30; 0]]}
    = Val x {[1%positive := [10; 20; 30; 0]]} ∧
    x = 30.
Proof.
  assert (wf (T:=nat) {[1%positive := [10; 20; 30; 0]]}
             (mkVec 3 4 (Some 1%positive))) as Hwf.
  { split; [simpl; lia|]. exists [10; 20; 30; 0]. split; reflexivity. }
  split; [exact Hwf|]. split.
  - apply (proj2 (subscript_unchecked _ (mkVec 3 4 (Some 1%positive)) 3)).
    simpl. lia.
  - destruct (proj1 (subscript_unchecked _ (mkVec 3 4 (Some 1%positive)) 2)
                Hwf) as (x & Hx & Hsub & _ & Hload); [simpl; lia|].
    exists x. split; [exact Hsub|]. split; [exact Hload|].
    injection Hx as <-. reflexivity.
Defined.

Lemma subscript_write_witness :
  wf (T:=nat) {[1%positive := [10; 20; 30; 0]]} (mkVec 3 4 (Some 1%positive)) ∧
  ∃ p h',
    subscript (mkVec 3 4 (Some 1%positive)) 1
              ({[1%positive := [10; 20; 30; 0]]} : heap nat)
    = Val p {[1%positive := [10; 20; 30; 0]]} ∧
    store p 99 {[1%positive := [10; 20; 30; 0]]} = Val tt h' ∧
    elems h' (mkVec 3 4 (Some 1%positive)) = [10; 99; 30].
Proof.
  assert (wf (T:=nat) {[1%positive := [10; 20; 30; 0]]}
             (mkVec 3 4 (Some 1%positive))) as Hwf.
  { split; [simpl; lia|]. exists [10; 20; 30; 0]. split; reflexivity. }
  split; [exact Hwf|].
  destruct (subscript_write _ _ 1 99 Hwf)
    as (p & h' & Hsub & Hst & He & _); [simpl; lia|].
  exists p, h'. split; [exact Hsub|]. split; [exact Hst|exact He].
Defined.

Lemma observers_agree_witness :
  wf (T:=nat) {[1%positive := [10; 20; 30; 0]]} (mkVec 3 4 (Some 1%positive)) ∧
  GetSize (mkVec 3 4 (Some 1%positive))
  = length (elems ({[1%positive := [10; 20; 30; 0]]} : heap nat)
                  (mkVec 3 4 (Some 1%positive))) ∧
  IsEmpty (mkVec 3 4 (Some 1%positive)) = false.
Proof.
  assert (wf (T:=nat) {[1%positive := [10; 20; 30; 0]]}
             (mkVec 3 4 (Some 1%positive))) as Hwf.
  { split; [simpl; lia|]. exists [10; 20; 30; 0]. split; reflexivity. }
  split; [exact Hwf|].
  destruct (observers_agree _ _ Hwf) as (Hs & _ & _ & Hempty).
  split; [exact Hs|].
  destruct (IsEmpty (mkVec 3 4 (Some 1%positive))) eqn:He; [|reflexivity].
  discriminate (proj1 Hempty eq_refl).
Defined.

Lemma traversal_reads_sequence_witness :
  wf (T:=nat) {[1%positive := [10; 20; 30; 0]]} (mkVec 3 4 (Some 1%positive)) ∧
  collect (begin (mkVec 3 4 (Some 1%positive)))
          (end_ (mkVec 3 4 (Some 1%positive)))
          ({[1%positive := [10; 20; 30; 0]]} : heap nat)
  = Val [10; 20; 30] {[1%positive := [10; 20; 30; 0]]}.
Proof.
  assert (wf (T:=nat) {[1%positive := [10; 20; 30; 0]]}
             (mkVec 3 4 (Some 1%positive))) as Hwf.
  { split; [simpl; lia|]. exists [10; 20; 30; 0]. split; reflexivity. }
  split; [exact Hwf|].
  exact (proj1 (traversal_reads_sequence _ _ Hwf)).
Defined.

Lemma swap_exchanges_witness :
  (<[1%positive := mkVec 1 1 (Some 1%positive)]>
     {[2%positive := ctor_default]} : gmap positive SimpleVector)
  !! 1%positive = Some (mkVec 1 1 (Some 1%positive)) ∧
  ∃ σ',
    exec (T:=nat) 0 id (CallSwap 1%positive 2%positive)
         (<[1%positive := mkVec 1 1 (Some 1%positive)]>
            {[2%positive := ctor_default]})
         {[1%positive := [7]]} = Val σ' {[1%positive := [7]]} ∧
    σ' !! 1%positive = Some ctor_default ∧
    σ' !! 2%positive = Some (mkVec 1 1 (Some 1%positive)).
Proof.
  assert ((<[1%positive := mkVec 1 1 (Some 1%positive)]>
             {[2%positive := ctor_default]} : gmap positive SimpleVector)
          !! 1%positive = Some (mkVec 1 1 (Some 1%positive))) as Ha0
    by reflexivity.
  assert ((<[1%positive := mkVec 1 1 (Some 1%positive)]>
             {[2%positive := ctor_default]} : gmap positive SimpleVector)
          !! 2%positive = Some ctor_default) as Hb0
    by reflexivity.
  split; [exact Ha0|].
  destruct (swap_exchanges (T:=nat) 0 id _ {[1%positive := [7]]}
              1%positive 2%positive _ _ Ha0 Hb0)
    as (σ' & Hex & Ha & Hb & _).
  exists σ'. split; [exact Hex|]. split; [exact Ha|exact Hb].
Defined.

Lemma equality_compares_sequences_witness :
  wf (T:=nat) (<[1%positive := [1; 2; 0]]> {[2%positive := [1; 2]]})
     (mkVec 2 3 (Some 1%positive)) ∧
  wf (T:=nat) (<[1%positive := [1; 2; 0]]> {[2%positive := [1; 2]]})
     (mkVec 2 2 (Some 2%positive)) ∧
  eq_op (mkVec 2 3 (Some 1%positive)) (mkVec 2 2 (Some 2%positive))
        (<[1%positive := [1; 2; 0]]> {[2%positive := [1; 2]]} : heap nat)
  = Val true (<[1%positive := [1; 2; 0]]> {[2%positive := [1; 2]]}).
Proof.
  assert (wf (T:=nat) (<[1%positive := [1; 2; 0]]> {[2%positive := [1; 2]]})
             (mkVec 2 3 (Some 1%positive))) as Hl.
  { split; [simpl; lia|]. exists [1; 2; 0]. split; reflexivity. }
  assert (wf (T:=nat) (<[1%positive := [1; 2; 0]]> {[2%positive := [1; 2]]})
             (mkVec 2 2 (Some 2%positive))) as Hr.
  { split; [simpl; lia|]. exists [1; 2]. split; reflexivity. }
  split; [exact Hl|]. split; [exact Hr|].
  exact (proj1 (equality_compares_sequences _ _ _ Hl Hr)).
Defined.

Lemma ordering_is_lexicographic_witness :
  wf (T:=nat) (<[1%positive := [1; 2; 9]]> {[2%positive := [1; 2; 3]]})
     (mkVec 2 3 (Some 1%positive)) ∧
  wf (T:=nat) (<[1%positive := [1; 2; 9]]> {[2%positive := [1; 2; 3]]})
     (mkVec 3 3 (Some 2%positive)) ∧
  lt_op Nat.ltb (mkVec 2 3 (Some 1%positive)) (mkVec 3 3 (Some 2%positive))
        (<[1%positive := [1; 2; 9]]> {[2%positive := [1; 2; 3]]} : heap nat)
  = Val true (<[1%positive := [1; 2; 9]]> {[2%positive := [1; 2; 3]]}).
Proof.
  assert (wf (T:=nat) (<[1%positive := [1; 2; 9]]> {[2%positive := [1; 2; 3]]})
             (mkVec 2 3 (Some 1%positive))) as Hl.
  { split; [simpl; lia|]. exists [1; 2; 9]. split; reflexivity. }
  assert (wf (T:=nat) (<[1%positive := [1; 2; 9]]> {[2%positive := [1; 2; 3]]})
             (mkVec 3 3 (Some 2%positive))) as Hr.
  { split; [simpl; lia|]. exists [1; 2; 3]. split; reflexivity. }
  split; [exact Hl|]. split; [exact Hr|].
  apply (proj2 (proj2 (proj2 (proj2
           (ordering_is_lexicographic Nat.ltb _ _ _ Hl Hr)))) 3 []).
  reflexivity.
Defined.

Lemma ordering_is_total_witness :
  (∀ x y, Nat.ltb x y = true → Nat.ltb y x = false) ∧
  (∀ x y, Nat.ltb x y = false → Nat.ltb y x = false → x = y) ∧
  ∃ lt eq gt : bool,
    lt_op Nat.ltb (mkVec 2 2 (Some 1%positive)) (mkVec 2 2 (Some 2%positive))
          (<[1%positive := [1; 3]]> {[2%positive := [1; 2]]} : heap nat)
    = Val lt (<[1%positive := [1; 3]]> {[2%positive := [1; 2]]}) ∧
    le_op Nat.ltb (mkVec 2 2 (Some 1%positive)) (mkVec 2 2 (Some 2%positive))
          (<[1%positive := [1; 3]]> {[2%positive := [1; 2]]} : heap nat)
    = Val (lt || eq) (<[1%positive := [1; 3]]> {[2%positive := [1; 2]]}) ∧
    ((lt, eq, gt) = (true, false, false) ∨
     (lt, eq, gt) = (false, true, false) ∨
     (lt, eq, gt) = (false, false, true)).
Proof.
  assert (∀ x y, Nat.ltb x y = true → Nat.ltb y x = false) as Hasym.
  { intros x y H%Nat.ltb_lt. apply Nat.ltb_ge. lia. }
  assert (∀ x y, Nat.ltb x y = false → Nat.ltb y x = false → x = y) as Htot.
  { intros x y H1%Nat.ltb_ge H2%Nat.ltb_ge. lia. }
  assert (wf (T:=nat) (<[1%positive := [1; 3]]> {[2%positive := [1; 2]]})
             (mkVec 2 2 (Some 1%positive))) as Hl.
  { split; [simpl; lia|]. exists [1; 3]. split; reflexivity. }
  assert (wf (T:=nat) (<[1%positive := [1; 3]]> {[2%positive := [1; 2]]})
             (mkVec 2 2 (Some 2%positive))) as Hr.
  { split; [simpl; lia|]. exists [1; 2]. split; reflexivity. }
  split; [exact Hasym|]. split; [exact Htot|].
  destruct (ordering_is_total Nat.ltb _ _ _ Hasym Htot Hl Hr)
    as (lt & eq & gt & Hlt & _ & _ & Hle & _ & Hone).
  exists lt, eq, gt. split; [exact Hlt|]. split; [exact Hle|exact Hone].
Defined.

Lemma Insert_at_end_is_PushBack_witness :
  wf (T:=nat) {[1%positive := [10; 20]]} (mkVec 2 2 (Some 1%positive)) ∧
  (∃ v' h',
     PushBack 0 id (Local 30) (mkVec 2 2 (Some 1%positive))
              {[1%positive := [10; 20]]}
     = Val v' h' ∧
     Insert 0 id (Some 1%positive, 2) (Local 30)
            (mkVec 2 2 (Some 1%positive)) {[1%positive := [10; 20]]}
     = Val (ptr_add (begin v') 2, v') h') ∧
  PushBack 0 id (Slot (Some 1%positive, 0)) (mkVec 2 2 (Some 1%positive))
           {[1%positive := [10; 20]]} = Undef ∧
  ∃ it v' h',
    Insert 0 id (Some 1%positive, 2) (Slot (Some 1%positive, 0))
           (mkVec 2 2 (Some 1%positive)) {[1%positive := [10; 20]]}
    = Val (it, v') h' ∧
    elems h' v' = [10; 20; 10].
Proof.
  assert (wf (T:=nat) {[1%positive := [10; 20]]}
             (mkVec 2 2 (Some 1%positive))) as Hwf.
  { split; [simpl; lia|]. exists [10; 20]. split; reflexivity. }
  split; [exact Hwf|]. split.
  - destruct (proj1 (Insert_at_end_is_PushBack 0 id _ _ (Local 30) 30
                       Hwf eq_refl) (or_intror I))
      as (v' & h' & Hpush & Hins).
    exists v', h'. split; [exact Hpush|exact Hins].
  - destruct (proj2 (Insert_at_end_is_PushBack 0 id _ _
                       (Slot (Some 1%positive, 0)) 10 Hwf eq_refl))
      as (Hpush & it & v' & h' & Hins & Hel).
    + simpl. lia.
    + simpl. intros Hne. by apply Hne.
    + split; [exact Hpush|]. exists it, v', h'.
      split; [exact Hins|exact Hel].
Defined.

Lemma Erase_last_is_PopBack_witness :
  wf (T:=nat) {[1%positive := [10; 20; 30; 0]]} (mkVec 3 4 (Some 1%positive)) ∧
  ∃ v',
    PopBack (mkVec 3 4 (Some 1%positive))
            ({[1%positive := [10; 20; 30; 0]]} : heap nat)
    = Val v' {[1%positive := [10; 20; 30; 0]]} ∧
    Erase id (Some 1%positive, 2) (mkVec 3 4 (Some 1%positive))
          {[1%positive := [10; 20; 30; 0]]}
    = Val (end_ v', v') {[1%positive := [10; 20; 30; 0]]}.
Proof.
  assert (wf (T:=nat) {[1%positive := [10; 20; 30; 0]]}
             (mkVec 3 4 (Some 1%positive))) as Hwf.
  { split; [simpl; lia|]. exists [10; 20; 30; 0]. split; reflexivity. }
  split; [exact Hwf|].
  destruct (Erase_last_is_PopBack id _ _ Hwf) as (v' & Hpop & Her);
    [simpl; lia|].
  exists v'. split; [exact Hpop|exact Her].
Defined.

Lemma Resize_shrink_then_grow_witness :
  wf (T:=nat) {[1%positive := [10; 20; 30; 0]]} (mkVec 3 4 (Some 1%positive)) ∧
  ∃ v1 h1 v2 h2,
    Resize 0 id 1 (mkVec 3 4 (Some 1%positive))
           {[1%positive := [10; 20; 30; 0]]} = Val v1 h1 ∧
    Resize 0 id 3 v1 h1 = Val v2 h2 ∧
    elems h2 v2 = [10; 0; 0].
Proof.
  assert (wf (T:=nat) {[1%positive := [10; 20; 30; 0]]}
             (mkVec 3 4 (Some 1%positive))) as Hwf.
  { split; [simpl; lia|]. exists [10; 20; 30; 0]. split; reflexivity. }
  split; [exact Hwf|].
  destruct (Resize_shrink_then_grow 0 id _ _ 1 3 Hwf)
    as (v1 & h1 & v2 & h2 & Hr1 & Hr2 & _ & He); [simpl; lia..|].
  exists v1, h1, v2, h2. split; [exact Hr1|]. split; [exact Hr2|exact He].
Defined.

Lemma no_block_is_leaked_witness :
  exec_all (T:=nat) 0 id
    [DeclInit 1%positive [1; 2]; DeclCopy 2%positive 1%positive;
     CallPushBack 2%positive (Lvalue 3); Destroy 1%positive; Destroy 2%positive]
    ∅ ∅ = Val ∅ ∅ ∧
  no_leak (T:=nat) ∅ ∅.
Proof.
  assert (exec_all (T:=nat) 0 id
            [DeclInit 1%positive [1; 2]; DeclCopy 2%positive 1%positive;
             CallPushBack 2%positive (Lvalue 3); Destroy 1%positive;
             Destroy 2%positive] ∅ ∅ = Val ∅ ∅) as Hex
    by (vm_compute; reflexivity).
  split; [exact Hex|].
  exact (proj1 (proj2 (no_block_is_leaked 0 id) _ _ _ Hex)).
Defined.

Lemma capacity_never_shrinks_witness :
  state_wf (T:=nat) {[1%positive := mkVec 2 2 (Some 1%positive)]}
           {[1%positive := [5; 6]]} ∧
  ∃ σ' h' v',
    exec 0 id (CallErase 1%positive 0)
         {[1%positive := mkVec 2 2 (Some 1%positive)]}
         {[1%positive := [5; 6]]} = Val σ' h' ∧
    σ' !! 1%positive = Some v' ∧ 2 ≤ capacity_ v'.
Proof.
  assert (state_wf (T:=nat) {[1%positive := mkVec 2 2 (Some 1%positive)]}
                   {[1%positive := [5; 6]]}) as Hst.
  { apply (proj1 (exec_all_sound 0 id [DeclInit 1%positive [5; 6]]
                    ∅ ∅ _ _ state_wf_empty eq_refl)). }
  split; [exact Hst|].
  assert (∃ σ' h',
            exec 0 id (CallErase 1%positive 0)
                 {[1%positive := mkVec 2 2 (Some 1%positive)]}
                 {[1%positive := [5; 6]]} = Val σ' h') as (σ' & h' & Hex)
    by (eexists _, _; reflexivity).
  destruct (capacity_never_shrinks 0 id (CallErase 1%positive 0)
              _ _ σ' h' 1%positive (mkVec 2 2 (Some 1%positive))
              Hst eq_refl Hex eq_refl) as (v' & Hv & Hle).
  exists σ', h', v'. split; [exact Hex|]. split; [exact Hv|exact Hle].
Defined.

Lemma PushBack_then_At_witness :
  wf (T:=nat) {[1%positive := [10; 20; 0; 0]]}
     (mkVec 2 4 (Some 1%positive)) ∧
  ref_value (T:=nat) {[1%positive := [10; 20; 0; 0]]}
            (Slot (Some 1%positive, 0)) = Some 10 ∧
  ∃ v' h' p,
    PushBack 0 id (Slot (Some 1%positive, 0)) (mkVec 2 4 (Some 1%positive))
             {[1%positive := [10; 20; 0; 0]]}
    = Val v' h' ∧
    At v' 2 h' = Val p h' ∧ load p h' = Val 10 h'.
Proof.
  assert (wf (T:=nat) {[1%positive := [10; 20; 0; 0]]}
             (mkVec 2 4 (Some 1%positive))) as Hwf.
  { split; [simpl; lia|]. exists [10; 20; 0; 0]. split; reflexivity. }
  assert (ref_value (T:=nat) {[1%positive := [10; 20; 0; 0]]}
                    (Slot (Some 1%positive, 0)) = Some 10) as Hx
    by reflexivity.
  split; [exact Hwf|]. split; [exact Hx|].
  destruct (PushBack_then_At 0 id _ _ _ 10 Hwf Hx)
    as (v' & h' & p & Hpush & Hat & Hload & _); [left; simpl; lia|].
  exists v', h', p. split; [exact Hpush|]. split; [exact Hat|exact Hload].
Defined.

Lemma Erase_then_Insert_witness :
  wf (T:=nat) {[1%positive := [10; 20; 30; 0]]} (mkVec 3 4 (Some 1%positive)) ∧
  elems ({[1%positive := [10; 20; 30; 0]]} : heap nat)
        (mkVec 3 4 (Some 1%positive)) !! 1 = Some 20 ∧
  ∃ it v1 h1 it' v2 h2,
    Erase id (Some 1%positive, 1) (mkVec 3 4 (Some 1%positive))
          {[1%positive := [10; 20; 30; 0]]} = Val (it, v1) h1 ∧
    Insert 0 id it (Local 20) v1 h1 = Val (it', v2) h2 ∧
    elems h2 v2 = [10; 20; 30] ∧ data_ v2 = Some 1%positive.
Proof.
  assert (wf (T:=nat) {[1%positive := [10; 20; 30; 0]]}
             (mkVec 3 4 (Some 1%positive))) as Hwf.
  { split; [simpl; lia|]. exists [10; 20; 30; 0]. split; reflexivity. }
  assert (elems ({[1%positive := [10; 20; 30; 0]]} : heap nat)
                (mkVec 3 4 (Some 1%positive)) !! 1 = Some 20) as Hy
    by reflexivity.
  split; [exact Hwf|]. split; [exact Hy|].
  destruct (Erase_then_Insert 0 id _ _ 1 20 Hwf Hy)
    as (it & v1 & h1 & it' & v2 & h2 & Her & Hins & He & _ & _ & Hd).
  exists it, v1, h1, it', v2, h2. split; [exact Her|].
  split; [exact Hins|]. split; [exact He|exact Hd].
Defined.

Lemma reallocation_invalidates_iterators_witness :
  wf (T:=nat) {[1%positive := [10; 20]]} (mkVec 2 2 (Some 1%positive)) ∧
  ∃ v' h',
    PushBack 0 id (Local 30) (mkVec 2 2 (Some 1%positive))
             {[1%positive := [10; 20]]}
    = Val v' h' ∧
    load (Some 1%positive, 0) h' = Undef.
Proof.
  assert (wf (T:=nat) {[1%positive := [10; 20]]}
             (mkVec 2 2 (Some 1%positive))) as Hwf.
  { split; [simpl; lia|]. exists [10; 20]. split; reflexivity. }
  split; [exact Hwf|].
  destruct (reallocation_invalidates_iterators 0 id _ _ (Local 30) 30 Hwf)
    as (v' & h' & Hpush & _ & _ & Hload); [simpl; lia|reflexivity|exact I|].
  exists v', h'. split; [exact Hpush|exact (Hload 0)].
Defined.

(** ** The scenario of the specification, run on the model *)

Example scenario_push_insert_erase_resize :
  match exec_all (T:=nat) 0 id
          [DeclDefault 1%positive;
           CallPushBack 1%positive (Lvalue 1); CallPushBack 1%positive (Lvalue 2);
           CallPushBack 1%positive (Lvalue 3);
           CallInsert 1%positive 1 (Lvalue 9); CallErase 1%positive 2;
           CallResize 1%positive 5] ∅ ∅ with
  | Val σ h => (λ v, (elems h v, size_ v, capacity_ v)) <$> σ !! 1%positive
  | _ => None
  end = Some ([1; 9; 3; 0; 0], 5, 8).
Proof. vm_compute. reflexivity. Qed.

Example capacity_progression :
  (λ k, match push_all (T:=nat) 0 id (replicate k 0) ctor_default ∅ with
        | Val v _ => capacity_ v
        | _ => 0
        end) <$> seq 0 10
  = [0; 1; 2; 4; 4; 8; 8; 8; 8; 16].
Proof. vm_compute. reflexivity. Qed.

Example insert_at_front_with_headroom :
  match Insert (T:=nat) 0 id (Some 1%positive, 0) (Local 9)
               (mkVec 3 4 (Some 1%positive))
               {[1%positive := [10; 20; 30; 77]]} with
  | Val (it, v) h => Some (it, block h v)
  | _ => None
  end = Some ((Some 1%positive, 0), [9; 10; 20; 30]).
Proof. vm_compute. reflexivity. Qed.

(** Elements of a vector passed back to it: [v.Insert(v.begin(), v[2])]
    with headroom stores what slot 2 holds after the shift, and
    [w.PushBack(w[0])] on a full vector has no result. *)
Example own_elements_as_arguments :
  (match exec_all (T:=nat) 0 id
           [DeclInit 1%positive [10; 20; 30]; CallReserve 1%positive 4;
            CallInsert 1%positive 0 (Elem 1%positive 2)] ∅ ∅ with
   | Val σ h => (λ v, (elems h v, size_ v, capacity_ v)) <$> σ !! 1%positive
   | _ => None
   end,
   match exec_all (T:=nat) 0 id
           [DeclInit 1%positive [10; 20];
            CallPushBack 1%positive (Elem 1%positive 0)] ∅ ∅ with
   | Val σ h => Some (elems h <$> σ !! 1%positive)
   | Exc _ _ => Some None
   | Undef => None
   end)
  = (Some ([20; 10; 20; 30], 4, 4), None).
Proof. vm_compute. reflexivity. Qed.
